(** * Mapping-configuration compiler: a shallow embedding

    The development follows the TypeScript sources of the visual
    data-mapping tool, one module per source unit:

    - [JS]               JavaScript values, truthiness, property access
    - [AiToCanvas]       convertMappingsToCanvas (AI suggestion adapter)
    - [Flow]             the Node and Edge of the canvas
    - [NodeImporter]     reconstructSchemaFields and the per-category importers
    - [UIExporter]       exportUIMappingConfiguration
    - [ConfigImporter]   the importer that assembles the graph
    - [RoundTrip]        export followed by import
    - [ExecExporter]     exportExecutionMapping
    - [Pipeline]         the expansion analysis of handleImportMapping
    - [AiFunction]       the tail of the generate-ai-mapping edge function
    - [MappingService]   saveMapping and activateVersion over a table of records
    - [MappingServiceMore] the other operations of the mapping service
    - [TargetNode]       the field editing of the target node
    - [AiToCanvasFacts], [LayoutFacts], [PipelineFacts], [NodeImporterFacts],
      [ExecExporterFacts], [MappingServiceFacts]: notions used in the
      statements only

    JavaScript values are embedded as a JSON-like tree, objects as
    association lists in the order in which [Object.keys] lists them;
    numbers are integers, no arithmetic is done on them by the code at
    hand, and they are printed as [Number.prototype.toString] prints the
    nearest double.  Text is held as its UTF-8 bytes: white space and
    line terminators outside ASCII are recognised by their byte
    sequences.  The sources type their data ([SchemaField[]], [Node],
    [Edge]): a property read on a value that this typing makes an object
    is total here.  The answer of the language model is typed by a cast
    only: what [JSON.parse] returns is handled as an arbitrary value, a
    failing read or call being an error of the handler.
    Console output is threaded explicitly where a property concerns it.
    The persistence collaborator is a list of records together with the
    outcome of each request. *)

From Stdlib Require Import List String Ascii ZArith Bool Lia Permutation.
From Stdlib Require Import DecimalString.
Import ListNotations.
Local Open Scope list_scope.
Local Open Scope string_scope.

(* ================================================================== *)
(** * Part I: definitions *)
(* ================================================================== *)

(** ** JavaScript values *)

Module JS.

Unset Elimination Schemes.
Inductive JSON : Type :=
| JUndef : JSON
| JNull : JSON
| JBool : bool -> JSON
| JNum : Z -> JSON
| JStr : string -> JSON
| JArr : list JSON -> JSON
| JObj : list (string * JSON) -> JSON.
Set Elimination Schemes.

(** Truthiness, as used by [||], [&&], [if] and [?:]. *)
Definition truthy (v : JSON) : bool :=
  match v with
  | JUndef | JNull => false
  | JBool b => b
  | JNum z => negb (Z.eqb z 0)
  | JStr s => negb (String.eqb s "")
  | JArr _ | JObj _ => true
  end.

(** [a || b] *)
Definition jor (a b : JSON) : JSON := if truthy a then a else b.

Fixpoint assoc (k : string) (kv : list (string * JSON)) : JSON :=
  match kv with
  | [] => JUndef
  | (k', v) :: rest => if String.eqb k k' then v else assoc k rest
  end.

(** Property read [v.k] (and [v?.k]); a missing key reads as [undefined].
    Reads on [null] and [undefined] are only ever written with [?.] in the
    modelled code, or on values whose declared type is an object. *)
Definition get (k : string) (v : JSON) : JSON :=
  match v with
  | JObj kv => assoc k kv
  | _ => JUndef
  end.

(** Assignment [o.k = v] on the entries of an object: an existing key keeps
    its place, a new key is appended. *)
Fixpoint set_entry (k : string) (v : JSON) (kv : list (string * JSON))
  : list (string * JSON) :=
  match kv with
  | [] => [(k, v)]
  | (k', v') :: rest =>
      if String.eqb k k' then (k, v) :: rest else (k', v') :: set_entry k v rest
  end.

(** An object literal [{ k1: v1, ..., ...spread, ... }] is built by writing
    its entries left to right. *)
Definition obj_entries (acc entries : list (string * JSON)) : list (string * JSON) :=
  fold_left (fun o kv => set_entry (fst kv) (snd kv) o) entries acc.

(** The decimal digits of an integer. *)
Definition decimal (z : Z) : string := NilZero.string_of_int (Z.to_int z).

(** The Number value of a positive integer literal: the integer itself up
    to 2^53, beyond that the nearest integer with 53 significant bits,
    ties to the even one. *)
Definition nearestDouble (a : Z) : Z :=
  if (a <=? 2 ^ 53)%Z then a
  else
    let e := (Z.log2 a - 52)%Z in
    let q := (a / 2 ^ e)%Z in
    let r := (a mod 2 ^ e)%Z in
    let half := (2 ^ (e - 1))%Z in
    let q := if (r <? half)%Z then q
             else if (half <? r)%Z then (q + 1)%Z
             else if Z.even q then q else (q + 1)%Z in
    (q * 2 ^ e)%Z.

(** The integer with the fewest significant digits that still reads back
    as the double [a] (beyond 2^53), the closest one when there are
    several: candidates with [k] significant digits are tried for
    [k = 1, 2, ...]; [lo2] and [hi2] are twice the ends of the interval
    of the numbers that round to [a]. *)
Fixpoint shortest (fuel : nat) (k a d lo2 hi2 : Z) (inclusive : bool) : Z :=
  match fuel with
  | O => a
  | S fuel =>
      if (d - k <? 0)%Z then a
      else
        let scale := (10 ^ (d - k))%Z in
        let below := (a / scale * scale)%Z in
        let above := (below + scale)%Z in
        let reads v :=
          if inclusive then (lo2 <=? 2 * v)%Z && (2 * v <=? hi2)%Z
          else (lo2 <? 2 * v)%Z && (2 * v <? hi2)%Z in
        match reads below, reads above with
        | true, true =>
            if (a - below <? above - a)%Z then below
            else if (above - a <? a - below)%Z then above
            else if Z.even (a / scale) then below else above
        | true, false => below
        | false, true => above
        | false, false => shortest fuel (k + 1)%Z a d lo2 hi2 inclusive
        end
  end.

Fixpoint stripTrailingZeros (s : string) : string :=
  match s with
  | EmptyString => ""
  | String c rest =>
      match stripTrailingZeros rest with
      | EmptyString => if Ascii.eqb c "0" then "" else String c ""
      | t => String c t
      end
  end.

(** [Number::toString] on a positive integer double. *)
Definition positiveToString (a : Z) : string :=
  let v :=
    if (a <=? 2 ^ 53)%Z then a
    else
      let e := (Z.log2 a - 52)%Z in
      let m := (a / 2 ^ e)%Z in
      let below := if (m =? 2 ^ 52)%Z then (2 ^ (e - 1))%Z else (2 ^ e)%Z in
      shortest 17 1 a (Z.of_nat (String.length (decimal a)))
               (2 * a - below)%Z (2 * a + 2 ^ e)%Z (Z.even m) in
  let digits := decimal v in
  let n := Z.of_nat (String.length digits) in
  if (n <=? 21)%Z then digits
  else
    match stripTrailingZeros digits with
    | String c EmptyString => String c ("e+" ++ decimal (n - 1))
    | String c rest => String c ("." ++ rest ++ "e+" ++ decimal (n - 1))
    | EmptyString => digits
    end.

(** The text of the number that the integer literal [z] denotes, as a
    template literal, [String] and a property key print it: the literal
    is rounded to a double, integers up to 2^53 print in full, larger
    ones with the digits that identify the double, and in exponent form
    from 10^21 on. *)
Definition string_of_Z (z : Z) : string :=
  let a := nearestDouble (Z.abs z) in
  if (z =? 0)%Z then "0"
  else if (2 ^ 1024 <=? a)%Z then (if (z <? 0)%Z then "-Infinity" else "Infinity")
  else if (z <? 0)%Z then "-" ++ positiveToString a
  else positiveToString a.
Definition string_of_nat (n : nat) : string := NilZero.string_of_uint (Nat.to_uint n).

Fixpoint index_entries (i : nat) (l : list JSON) : list (string * JSON) :=
  match l with
  | [] => []
  | x :: rest => (string_of_nat i, x) :: index_entries (S i) rest
  end.

Fixpoint char_entries (i : nat) (s : string) : list (string * JSON) :=
  match s with
  | EmptyString => []
  | String c rest => (string_of_nat i, JStr (String c EmptyString)) :: char_entries (S i) rest
  end.

(** The own enumerable properties copied by a spread [...v]. *)
Definition own_entries (v : JSON) : list (string * JSON) :=
  match v with
  | JObj kv => kv
  | JArr l => index_entries 0 l
  | JStr s => char_entries 0 s
  | _ => []
  end.

Definition isArray (v : JSON) : bool :=
  match v with JArr _ => true | _ => false end.

(** The elements of [v] when [Array.isArray(v)], else the empty list:
    [Array.isArray(v) ? v : []]. *)
Definition array_or_empty (v : JSON) : list JSON :=
  match v with JArr l => l | _ => [] end.

(** [typeof v === 'string' ? v : d] *)
Definition string_or (v : JSON) (d : string) : string :=
  match v with JStr s => s | _ => d end.

(** [Array.prototype.join] and [String(v)]. *)
Fixpoint toStr (v : JSON) : string :=
  match v with
  | JUndef => "undefined"
  | JNull => "null"
  | JBool true => "true"
  | JBool false => "false"
  | JNum z => string_of_Z z
  | JStr s => s
  | JArr l =>
      String.concat ","
        ((fix elems (l : list JSON) : list string :=
            match l with
            | [] => []
            | x :: rest =>
                match x with
                | JUndef | JNull => ""
                | _ => toStr x
                end :: elems rest
            end) l)
  | JObj _ => "[object Object]"
  end.

(** Strict equality [v === s] against a string. *)
Definition is_str (v : JSON) (s : string) : bool :=
  match v with JStr s' => String.eqb s' s | _ => false end.

(** Strict equality [a === b] of two values read from parsed documents:
    primitives compare by value, distinct objects and arrays never compare
    equal. *)
Definition strict_eq (a b : JSON) : bool :=
  match a, b with
  | JUndef, JUndef => true
  | JNull, JNull => true
  | JBool x, JBool y => Bool.eqb x y
  | JNum x, JNum y => Z.eqb x y
  | JStr x, JStr y => String.eqb x y
  | _, _ => false
  end.

(** [l.find(p)] *)
Definition find_or_undef (p : JSON -> bool) (l : list JSON) : JSON :=
  match List.find p l with Some x => x | None => JUndef end.

(** Console output. *)
Inductive Level : Type := LLog | LWarn | LError.

Record ConsoleEntry : Type := Console { level : Level; message : string }.

End JS.

(** ** The AI suggestion adapter *)

Module AiToCanvas.
Import JS.

(** The tagged union [MappingSuggestion]: the discriminant is the string
    [mapping_type]; each variant reads its own fields. *)
Record MappingSuggestion : Type := Suggestion {
  target_field : string;
  mapping_type : string;
  source_field : string;
  value : string;
  conditions : list (string * string);
  table : list (string * string);
  format : string;
  source_fields : list string;
  separator : option string;
  delimiter : string;
  index : Z
}.

(** [CanvasNode]: an id, a type and further keys. *)
Record CanvasNode : Type := CNode {
  id : string;
  type : string;
  props : list (string * JSON)
}.

Record CanvasEdge : Type := CEdge {
  etype : string;
  from : string;
  to : string
}.

(** The three locals of the function: [nodes], [edges], [addedNodeIds],
    and the console. *)
Record State : Type := St {
  nodes : list CanvasNode;
  edges : list CanvasEdge;
  addedNodeIds : list string;
  console : list ConsoleEntry
}.

Definition has (s : list string) (x : string) : bool :=
  existsb (String.eqb x) s.

(** [Set.prototype.add] *)
Definition add (s : list string) (x : string) : list string :=
  if has s x then s else (s ++ [x])%list.

Definition push_node (n : CanvasNode) (st : State) : State :=
  if has (addedNodeIds st) (id n) then st
  else St (nodes st ++ [n])%list (edges st) (add (addedNodeIds st) (id n)) (console st).

Definition push_edge (e : CanvasEdge) (st : State) : State :=
  St (nodes st) (edges st ++ [e])%list (addedNodeIds st) (console st).

Definition warn (msg : string) (st : State) : State :=
  St (nodes st) (edges st) (addedNodeIds st) (console st ++ [Console LWarn msg])%list.

Definition targetNode (field : string) : CanvasNode :=
  CNode ("target_" ++ field) "TargetNode"
        [("label", JStr field); ("field", JStr field)].

Definition sourceNode (field : string) : CanvasNode :=
  CNode ("source_" ++ field) "SourceNode"
        [("label", JStr field); ("field", JStr field)].

(** The closure [addSource]: returns the source id and the new state. *)
Definition addSource (field : string) (st : State) : string * State :=
  ("source_" ++ field, push_node (sourceNode field) st).

Definition json_of_conditions (cs : list (string * string)) : JSON :=
  JArr (map (fun c => JObj [("condition", JStr (fst c)); ("value", JStr (snd c))]) cs).

Definition json_of_table (t : list (string * string)) : JSON :=
  JObj (map (fun kv => (fst kv, JStr (snd kv))) t).

(** The tail of the loop body, after a [break]:
    push the transform node once, then the edge to the target. *)
Definition finish (node : CanvasNode) (targetId : string) (st : State) : State :=
  push_edge (CEdge "edge" (id node) targetId) (push_node node st).

(** One iteration of [for (const map of mappings)]. *)
Definition step (st : State) (m : MappingSuggestion) : State :=
  let targetId := "target_" ++ target_field m in
  let st := push_node (targetNode (target_field m)) st in
  let mt := mapping_type m in
  if String.eqb mt "direct" then
    let '(from, st) := addSource (source_field m) st in
    push_edge (CEdge "direct" from targetId) st
  else if String.eqb mt "static" then
    finish (CNode ("static_" ++ target_field m) "StaticValueNode"
              [("label", JStr ("Static: " ++ value m)); ("value", JStr (value m))])
           targetId st
  else if String.eqb mt "conditional" then
    finish (CNode ("if_" ++ target_field m) "IfThenNode"
              [("label", JStr "Conditional");
               ("conditions", json_of_conditions (conditions m))])
           targetId st
  else if String.eqb mt "table" then
    let nodeId := "convert_" ++ target_field m in
    let '(from, st) := addSource (source_field m) st in
    let st := push_edge (CEdge "edge" from nodeId) st in
    finish (CNode nodeId "ConversionMappingNode"
              [("label", JStr ("Convert: " ++ source_field m));
               ("sourceField", JStr (source_field m));
               ("mappingTable", json_of_table (table m))])
           targetId st
  else if String.eqb mt "date_conversion" then
    let nodeId := "date_" ++ target_field m in
    let '(from, st) := addSource (source_field m) st in
    let st := push_edge (CEdge "edge" from nodeId) st in
    finish (CNode nodeId "TransformNode"
              [("label", JStr ("Date: " ++ format m));
               ("sourceField", JStr (source_field m));
               ("transformType", JStr "dateFormat");
               ("format", JStr (format m));
               ("autoDetect", JBool true)])
           targetId st
  else if String.eqb mt "concat" then
    let nodeId := "concat_" ++ target_field m in
    let st :=
      fold_left (fun st field =>
                   let '(from, st) := addSource field st in
                   push_edge (CEdge "edge" from nodeId) st)
                (source_fields m) st in
    finish (CNode nodeId "ConcatTransformNode"
              [("label", JStr ("Concat: " ++ String.concat " + " (source_fields m)));
               ("sourceFields", JArr (map JStr (source_fields m)));
               ("separator", JStr (match separator m with Some s => s | None => " " end))])
           targetId st
  else if String.eqb mt "split" then
    let nodeId := "split_" ++ target_field m in
    let '(from, st) := addSource (source_field m) st in
    let st := push_edge (CEdge "edge" from nodeId) st in
    finish (CNode nodeId "SplitterTransformNode"
              [("label", JStr ("Split: " ++ source_field m ++ "[" ++ string_of_Z (index m) ++ "]"));
               ("sourceField", JStr (source_field m));
               ("delimiter", JStr (delimiter m));
               ("index", JNum (index m))])
           targetId st
  else if String.eqb mt "skip" then
    st
  else
    warn ("Unknown mapping type: " ++ mt) st.

Definition init : State := St [] [] [] [].

Definition run (mappings : list MappingSuggestion) : State :=
  fold_left step mappings init.

Definition convertMappingsToCanvas (mappings : list MappingSuggestion)
  : list CanvasNode * list CanvasEdge :=
  let st := run mappings in (nodes st, edges st).

(** A suggestion that takes the [skip] arm or the [default] arm. *)
Definition skipped (m : MappingSuggestion) : bool :=
  negb (existsb (String.eqb (mapping_type m))
          ["direct"; "static"; "conditional"; "table"; "date_conversion"; "concat"; "split"]).

(** Sample suggestions. *)
Definition exampleConcat : MappingSuggestion :=
  Suggestion "fullname" "concat" "" "" [] [] "" ["Roepnaam"; "Achternaam"] (Some " ") "" 0.

Definition skipX : MappingSuggestion :=
  Suggestion "x" "skip" "" "" [] [] "" [] None "" 0.

Definition unknownX : MappingSuggestion :=
  Suggestion "x" "lookup" "" "" [] [] "" [] None "" 0.

(** The relation between a run without the skipped entry ([st]) and the
    run with it ([st']): same edges, same nodes apart from those named [t],
    same membership in [addedNodeIds] apart from [t]. *)
Definition others (t : string) (ns : list CanvasNode) : list CanvasNode :=
  filter (fun n => negb (String.eqb (id n) t)) ns.

Record sim (t : string) (st st' : State) : Prop := Sim {
  sim_edges : edges st' = edges st;
  sim_nodes : others t (nodes st') = others t (nodes st);
  sim_added : forall x, x <> t -> has (addedNodeIds st') x = has (addedNodeIds st) x;
  sim_t : has (addedNodeIds st') t = true
}.

(** Every id of the form target_x in [addedNodeIds] belongs to the target
    node of x: the other ids start with source_, static_, if_, convert_,
    date_, concat_ or split_. *)
Definition target_inv (st : State) : Prop :=
  forall x, has (addedNodeIds st) ("target_" ++ x) = true ->
            In (targetNode x) (nodes st).

End AiToCanvas.

(** ** Canvas graph: the Node and Edge of the flow library *)

Module Flow.
Import JS.

(** A handle is a string, [null] or [undefined]. *)
Inductive Handle : Type := HUndef | HNull | HStr (s : string).

Definition hjson (h : Handle) : JSON :=
  match h with HUndef => JUndef | HNull => JNull | HStr s => JStr s end.

(** [h || d] *)
Definition handle_or (h : Handle) (d : string) : string :=
  match h with
  | HStr s => if String.eqb s "" then d else s
  | _ => d
  end.

Record Node : Type := mkNode {
  id : string;
  type : option string;
  position : JSON;
  data : JSON
}.

Record Edge : Type := mkEdge {
  eid : string;
  source : string;
  target : string;
  sourceHandle : Handle;
  targetHandle : Handle
}.

(** [node.type === s] *)
Definition type_is (n : Node) (s : string) : bool :=
  match type n with Some t => String.eqb t s | None => false end.

(** [nodes.find(n => n.id === i)] *)
Definition find_node (nodes : list Node) (i : string) : option Node :=
  List.find (fun n => String.eqb (id n) i) nodes.

(** [edges.find(e => e.target === i)] *)
Definition find_edge_into (edges : list Edge) (i : string) : option Edge :=
  List.find (fun e => String.eqb (target e) i) edges.

(** [fields.find(f => f.id === handle)] when [fields] is an array, else
    [null]; used as [fields.find(...)?.name]. *)
Definition find_field (fields : JSON) (handle : Handle) : JSON :=
  match fields with
  | JArr fs => find_or_undef (fun f => strict_eq (get "id" f) (hjson handle)) fs
  | _ => JNull
  end.

End Flow.

(** ** Node importers *)

Module SourceNodeConfig.
Record t : Type := mk {
  id : string; type : string; label : string; position : JS.JSON;
  schema_fields : list JS.JSON; sampleData : list JS.JSON
}.
End SourceNodeConfig.

Module TargetNodeConfig.
Record t : Type := mk {
  id : string; type : string; label : string; position : JS.JSON;
  schema_fields : list JS.JSON; outputData : list JS.JSON; fieldValues : JS.JSON
}.
End TargetNodeConfig.

Module TransformNodeConfig.
Record t : Type := mk {
  id : string; type : option string; label : string; position : JS.JSON;
  transformType : string; config : JS.JSON; nodeData : JS.JSON
}.
End TransformNodeConfig.

Module MappingNodeConfig.
Record t : Type := mk {
  id : string; type : string; label : string; position : JS.JSON;
  mappings : list JS.JSON
}.
End MappingNodeConfig.

Module NodeImporter.
Import JS Flow.

(** [arrayConfigs.find(config => config.target === field.name)] *)
Definition findArrayConfig (arrayConfigs : list JSON) (field : JSON) : JSON :=
  find_or_undef (fun config => strict_eq (get "target" config) (get "name" field)) arrayConfigs.

(** The copy [{ ...field }] with the groupBy assignment applied. *)
Definition withGroupBy (arrayConfigs : option (list JSON)) (field : JSON)
  : list (string * JSON) :=
  let reconstructedField := own_entries field in
  match arrayConfigs with
  | Some cfgs =>
      if is_str (get "type" field) "array" then
        let arrayConfig := findArrayConfig cfgs field in
        if truthy arrayConfig then
          set_entry "groupBy" (jor (get "groupBy" arrayConfig) JUndef) reconstructedField
        else reconstructedField
      else reconstructedField
  | None => reconstructedField
  end.

(** The body of the [fields.map] callback.  The inner loop locates
    [field.children]; the children are rebuilt when it is an array. *)
Fixpoint reconstructSchemaField (arrayConfigs : option (list JSON)) (field : JSON)
  {struct field} : JSON :=
  let reconstructedField := withGroupBy arrayConfigs field in
  match field with
  | JObj kv =>
      match (fix children (kv : list (string * JSON)) : option (list JSON) :=
               match kv with
               | [] => None
               | (k, v) :: rest =>
                   if String.eqb "children" k then
                     match v with
                     | JArr cs => Some (map (reconstructSchemaField arrayConfigs) cs)
                     | _ => None
                     end
                   else children rest
               end) kv with
      | Some cs => JObj (set_entry "children" (JArr cs) reconstructedField)
      | None => JObj reconstructedField
      end
  | _ => JObj reconstructedField
  end.

Definition reconstructSchemaFields (fields : list JSON) (arrayConfigs : option (list JSON))
  : list JSON :=
  map (reconstructSchemaField arrayConfigs) fields.

Definition importTargetNode (config : TargetNodeConfig.t) (arrayConfigs : option (list JSON))
  : Node :=
  let fieldsWithGroupBy :=
    reconstructSchemaFields (TargetNodeConfig.schema_fields config) arrayConfigs in
  mkNode (TargetNodeConfig.id config) (Some "target") (TargetNodeConfig.position config)
    (JObj [("label", JStr (TargetNodeConfig.label config));
           ("fields", JArr fieldsWithGroupBy);
           ("data", JArr (TargetNodeConfig.outputData config));
           ("fieldValues", JObj [])]).

Definition importSourceNode (config : SourceNodeConfig.t) : Node :=
  mkNode (SourceNodeConfig.id config) (Some "source") (SourceNodeConfig.position config)
    (JObj [("label", JStr (SourceNodeConfig.label config));
           ("fields", JArr (SourceNodeConfig.schema_fields config));
           ("data", JArr (SourceNodeConfig.sampleData config))]).

Definition importTransformNode (config : TransformNodeConfig.t) : Node :=
  let nodeData := TransformNodeConfig.nodeData config in
  let cfg := TransformNodeConfig.config config in
  if String.eqb (TransformNodeConfig.transformType config) "coalesce" then
    let rules :=
      jor (get "rules" nodeData)
          (jor (get "rules" (get "parameters" cfg))
               (jor (get "rules" cfg) (JArr []))) in
    let defaultValue :=
      jor (get "defaultValue" nodeData)
          (jor (get "defaultValue" (get "parameters" cfg))
               (jor (get "defaultValue" cfg) (JStr ""))) in
    let inputValues := jor (get "inputValues" nodeData) (JObj []) in
    let outputType := jor (get "outputType" nodeData) (JStr "value") in
    mkNode (TransformNodeConfig.id config) (Some "transform")
      (TransformNodeConfig.position config)
      (JObj [("label", JStr (TransformNodeConfig.label config));
             ("transformType", JStr "coalesce");
             ("rules", rules);
             ("defaultValue", defaultValue);
             ("outputType", outputType);
             ("inputValues", inputValues);
             ("config", JObj [("rules", rules);
                              ("defaultValue", defaultValue);
                              ("parameters", JObj [("rules", rules);
                                                   ("defaultValue", defaultValue);
                                                   ("outputType", outputType)])])])
  else
    let nodeData' :=
      obj_entries [("label", JStr (TransformNodeConfig.label config));
                   ("transformType", JStr (TransformNodeConfig.transformType config));
                   ("config", cfg)]
                  (own_entries nodeData) in
    mkNode (TransformNodeConfig.id config) (TransformNodeConfig.type config)
      (TransformNodeConfig.position config) (JObj nodeData').

Definition importMappingNode (config : MappingNodeConfig.t) : Node :=
  mkNode (MappingNodeConfig.id config) (Some "mapping") (MappingNodeConfig.position config)
    (JObj [("label", JStr (MappingNodeConfig.label config));
           ("mappings", JArr (MappingNodeConfig.mappings config))]).




End NodeImporter.


(** ** The UI exporter *)

Module UIExporter.
Import JS Flow.

Record Connection : Type := mkConnection {
  cid : string;
  sourceNodeId : string;
  targetNodeId : string;
  sourceHandle : string;
  targetHandle : string;
  ctype : string
}.

Record MappingConfiguration : Type := mkConfiguration {
  id : string;
  name : string;
  version : string;
  createdAt : string;
  sources : list SourceNodeConfig.t;
  targets : list TargetNodeConfig.t;
  transforms : list TransformNodeConfig.t;
  mappings : list MappingNodeConfig.t;
  connections : list Connection;
  steps : JSON;
  metadata : JSON
}.

(** [node.type] as a value. *)
Definition typeValue (node : Node) : JSON :=
  match type node with Some t => JStr t | None => JUndef end.

(** [['source', 'target', 'conversionMapping'].includes(node.type)] *)
Definition isBasicNode (node : Node) : bool :=
  type_is node "source" || type_is node "target" || type_is node "conversionMapping".

(** [v && typeof v === 'object'] *)
Definition isObject (v : JSON) : bool :=
  match v with JObj _ | JArr _ => true | _ => false end.

Definition exportSource (node : Node) : SourceNodeConfig.t :=
  SourceNodeConfig.mk (Flow.id node) "source"
    (toStr (jor (get "label" (data node)) (JStr "Source Node")))
    (position node)
    (array_or_empty (get "fields" (data node)))
    (array_or_empty (get "data" (data node))).

Definition exportTarget (node : Node) : TargetNodeConfig.t :=
  TargetNodeConfig.mk (Flow.id node) "target"
    (toStr (jor (get "label" (data node)) (JStr "Target Node")))
    (position node)
    (array_or_empty (get "fields" (data node)))
    (array_or_empty (get "data" (data node)))
    (if isObject (get "fieldValues" (data node)) then get "fieldValues" (data node)
     else JUndef).

(** The exported [transformType]:
    [String(node.data?.transformType || node.type || 'unknown')]. *)
Definition exportedTransformType (node : Node) : string :=
  toStr (jor (get "transformType" (data node)) (jor (typeValue node) (JStr "unknown"))).

(** The coalesce arm of the exporter. *)
Definition isCoalesce (node : Node) : bool :=
  type_is node "coalesceTransform"
  || (type_is node "transform" && is_str (get "transformType" (data node)) "coalesce").

(** The [config] and [nodeData] written for a transform-like node. *)
Definition transformPayload (node : Node) : JSON * JSON :=
  let d := data node in
  if type_is node "ifThen" then
    let ps := [("operator", jor (get "operator" d) (JStr "="));
               ("compareValue", jor (get "compareValue" d) (JStr ""));
               ("thenValue", jor (get "thenValue" d) (JStr ""));
               ("elseValue", jor (get "elseValue" d) (JStr ""))] in
    (JObj [("operation", JStr "conditional"); ("parameters", JObj ps)], JObj ps)
  else if type_is node "staticValue" then
    let ps := [("values", jor (get "values" d) (JArr []))] in
    (JObj [("operation", JStr "static"); ("parameters", JObj ps)], JObj ps)
  else if type_is node "splitterTransform" then
    let additionalConfig := if isObject (get "config" d) then get "config" d else JObj [] in
    let ps := [("delimiter", jor (get "delimiter" d) (JStr ","));
               ("splitIndex", jor (get "splitIndex" d) (JNum 0))] in
    (JObj [("operation", JStr "split");
           ("parameters", JObj (obj_entries ps (own_entries additionalConfig)))],
     JObj (ps ++ [("config", additionalConfig)])%list)
  else if isCoalesce node then
    let ps := [("rules", jor (get "rules" d) (JArr []));
               ("defaultValue", jor (get "defaultValue" d) (JStr ""));
               ("outputType", jor (get "outputType" d) (JStr "value"))] in
    (JObj [("operation", JStr "coalesce"); ("parameters", JObj ps)],
     JObj (ps ++ [("inputValues", jor (get "inputValues" d) (JObj []))])%list)
  else
    (jor (get "config" d) (jor d (JObj [])), if truthy d then d else JUndef).

Definition exportTransform (node : Node) : TransformNodeConfig.t :=
  TransformNodeConfig.mk (Flow.id node) (type node)
    (toStr (jor (get "label" (data node)) (JStr "Transform Node")))
    (position node)
    (exportedTransformType node)
    (fst (transformPayload node))
    (snd (transformPayload node)).

Definition exportMapping (node : Node) : MappingNodeConfig.t :=
  MappingNodeConfig.mk (Flow.id node) "mapping"
    (toStr (jor (get "label" (data node)) (JStr "Mapping Node")))
    (position node)
    (array_or_empty (get "mappings" (data node))).

Definition exportConnection (nodes : list Node) (edge : Edge) : Connection :=
  let connectionType :=
    match find_node nodes (source edge) with
    | Some sourceNode =>
        if negb (isBasicNode sourceNode) then "transform"
        else if type_is sourceNode "conversionMapping" then "mapping"
        else "direct"
    | None => "direct"
    end in
  mkConnection (eid edge) (source edge) (target edge)
    (handle_or (Flow.sourceHandle edge) "") (handle_or (Flow.targetHandle edge) "")
    connectionType.

(** [exportUIMappingConfiguration].  The clock ([Date.now()] as text and
    the ISO time stamp) and [buildExecutionSteps], which is defined
    elsewhere, are parameters; console output is left out. *)
Definition exportUIMappingConfiguration
  (nowMs nowIso : string) (buildExecutionSteps : list Node -> list Edge -> JSON)
  (nodes : list Node) (edges : list Edge) (name : string) : MappingConfiguration :=
  mkConfiguration ("mapping_" ++ nowMs) name "1.0.0" nowIso
    (map exportSource (filter (fun node => type_is node "source") nodes))
    (map exportTarget (filter (fun node => type_is node "target") nodes))
    (map exportTransform (filter (fun node => negb (isBasicNode node)) nodes))
    (map exportMapping (filter (fun node => type_is node "conversionMapping") nodes))
    (map (exportConnection nodes) edges)
    (buildExecutionSteps nodes edges)
    (JObj [("description", JStr "UI mapping configuration for canvas restoration");
           ("tags", JArr [JStr "ui-state"; JStr "canvas-layout"; JStr "visual-mapping"]);
           ("author", JStr "Lovable Mapping Tool")]).

End UIExporter.

(** ** The configuration importer *)

Module ConfigImporter.
Import JS Flow UIExporter NodeImporter.

(** Modelled from the spec: importConfiguration (ConfigImporter) is not
    part of the sources at hand.  Section 4.3: for each category in
    nodes.{sources, targets, transforms, mappings} a node is built by the
    importer of that category, target field trees going through
    reconstructSchemaFields with the externally supplied array
    configuration; then the connections are replayed as edges verbatim
    (sourceNodeId to source, targetNodeId to target, handles preserved). *)
Definition importConfiguration (config : MappingConfiguration)
  (arrayConfigs : option (list JSON)) : list Node * list Edge :=
  ((map importSourceNode (sources config)
    ++ map (fun c => importTargetNode c arrayConfigs) (targets config)
    ++ map importTransformNode (transforms config)
    ++ map importMappingNode (mappings config))%list,
   map (fun c => mkEdge (cid c) (sourceNodeId c) (targetNodeId c)
                        (HStr (sourceHandle c)) (HStr (targetHandle c)))
       (connections config)).

End ConfigImporter.

(** ** Export followed by import *)

Module RoundTrip.
Import JS Flow UIExporter NodeImporter ConfigImporter.

Definition Graph : Type := (list Node * list Edge)%type.

Definition roundTrip (nowMs nowIso : string)
  (buildExecutionSteps : list Node -> list Edge -> JSON) (g : Graph) : Graph :=
  importConfiguration
    (exportUIMappingConfiguration nowMs nowIso buildExecutionSteps (fst g) (snd g) "m") None.

(** The keys under which a node carries its field tree or its transform
    parameters, following the parameter table of the exporter. *)
Definition parameterKeys (n : Node) : list string :=
  if type_is n "source" || type_is n "target" then ["fields"]
  else if type_is n "conversionMapping" then ["mappings"]
  else if type_is n "ifThen" then ["operator"; "compareValue"; "thenValue"; "elseValue"]
  else if type_is n "staticValue" then ["values"]
  else if type_is n "splitterTransform" then ["delimiter"; "splitIndex"]
  else if isCoalesce n then ["rules"; "defaultValue"; "outputType"]
  else [].

(** Two nodes with the same kind, field tree and transform parameters. *)
Definition same_content (n n' : Node) : Prop :=
  type n' = type n
  /\ forall k, In k (parameterKeys n) -> get k (data n') = get k (data n).

Definition same_connection (rn re : string -> string) (e e' : Edge) : Prop :=
  eid e' = re (eid e)
  /\ source e' = rn (source e)
  /\ target e' = rn (target e)
  /\ handle_or (Flow.sourceHandle e') "" = handle_or (Flow.sourceHandle e) ""
  /\ handle_or (Flow.targetHandle e') "" = handle_or (Flow.targetHandle e) "".

(** [g'] is [g] up to a renaming of node ids and edge ids and up to the
    order of nodes and of edges. *)
Definition graph_iso (g g' : Graph) : Prop :=
  exists (rn re : string -> string) (ns : list Node) (es : list Edge),
    Permutation (fst g') ns
    /\ Permutation (snd g') es
    /\ Forall2 (fun n n' => Flow.id n' = rn (Flow.id n) /\ same_content n n') (fst g) ns
    /\ Forall2 (same_connection rn re) (snd g) es.

(** The defaults that the exporter substitutes for falsy parameters. *)
Definition parameterDefaults (n : Node) : list (string * JSON) :=
  if type_is n "ifThen" then
    [("operator", JStr "="); ("compareValue", JStr ""); ("thenValue", JStr "");
     ("elseValue", JStr "")]
  else if type_is n "staticValue" then [("values", JArr [])]
  else if type_is n "splitterTransform" then [("delimiter", JStr ","); ("splitIndex", JNum 0)]
  else if isCoalesce n then
    [("rules", JArr []); ("defaultValue", JStr ""); ("outputType", JStr "value");
     ("inputValues", JObj [])]
  else [].

(** The nodes that the exporter writes through its generic arm. *)
Definition isGeneric (n : Node) : bool :=
  negb (isBasicNode n || type_is n "ifThen" || type_is n "staticValue"
        || type_is n "splitterTransform" || isCoalesce n).

(** A field tree made of objects, as [SchemaField[]] declares it. *)
Fixpoint wf_field (f : JSON) : bool :=
  match f with
  | JObj kv =>
      (fix entries (kv : list (string * JSON)) : bool :=
         match kv with
         | [] => true
         | (k, v) :: rest =>
             (if String.eqb "children" k then
                match v with
                | JArr cs => forallb wf_field cs
                | _ => true
                end
              else true)
             && entries rest
         end) kv
  | _ => false
  end.

(** What the import of the export of [n] keeps of [n]. *)
Record restored (n n' : Node) : Prop := mkRestored {
  r_id : Flow.id n' = Flow.id n;
  r_position : position n' = position n;
  r_source :
    type_is n "source" = true ->
    type n' = type n
    /\ get "fields" (data n') = JArr (array_or_empty (get "fields" (data n)));
  r_target :
    type_is n "target" = true ->
    type n' = type n
    /\ get "fields" (data n')
       = JArr (reconstructSchemaFields (array_or_empty (get "fields" (data n))) None)
    /\ (forallb wf_field (array_or_empty (get "fields" (data n))) = true ->
        get "fields" (data n') = JArr (array_or_empty (get "fields" (data n))));
  r_mapping :
    type_is n "conversionMapping" = true ->
    get "mappings" (data n') = JArr (array_or_empty (get "mappings" (data n)));
  r_type :
    isBasicNode n = false ->
    type n' = if String.eqb (exportedTransformType n) "coalesce"
              then Some "transform" else type n;
  r_parameters :
    isBasicNode n = false ->
    exportedTransformType n <> "coalesce" \/ isCoalesce n = true ->
    forall k d, In (k, d) (parameterDefaults n) ->
                get k (data n') = jor (get k (data n)) d;
  r_generic :
    isGeneric n = true ->
    exportedTransformType n <> "coalesce" ->
    forall kv, data n = JObj kv -> NoDup (map fst kv) ->
               forall k, In k (map fst kv) -> get k (data n') = get k (data n)
}.

(** The order in which the importer rebuilds the nodes. *)
Definition byCategory (nodes : list Node) : list Node :=
  (filter (fun n => type_is n "source") nodes
   ++ filter (fun n => type_is n "target") nodes
   ++ filter (fun n => negb (isBasicNode n)) nodes
   ++ filter (fun n => type_is n "conversionMapping") nodes)%list.

(** An edge as it is replayed: an absent handle becomes the empty string. *)
Definition replayed (e : Edge) : Edge :=
  mkEdge (eid e) (source e) (target e)
         (HStr (handle_or (Flow.sourceHandle e) ""))
         (HStr (handle_or (Flow.targetHandle e) "")).

(** A splitter whose delimiter is the empty string. *)
Definition emptyDelimiterGraph : Graph :=
  ([mkNode "split1" (Some "splitterTransform") (JObj [("x", JNum 10); ("y", JNum 20)])
      (JObj [("label", JStr "Split"); ("delimiter", JStr ""); ("splitIndex", JNum 1)])],
   []).

(** A lookup table between a source field and a target field. *)
Definition lookupGraph : Graph :=
  ([mkNode "s1" (Some "source") JUndef
      (JObj [("label", JStr "Source");
             ("fields", JArr [JObj [("id", JStr "a"); ("name", JStr "code");
                                    ("type", JStr "string")]])]);
    mkNode "m1" (Some "conversionMapping") JUndef
      (JObj [("label", JStr "Codes");
             ("mappings", JArr [JObj [("from", JStr "A"); ("to", JStr "1")]])]);
    mkNode "t1" (Some "target") JUndef
      (JObj [("label", JStr "Target");
             ("fields", JArr [JObj [("id", JStr "f1"); ("name", JStr "status");
                                    ("type", JStr "string")]])])],
   [mkEdge "e1" "s1" "m1" (HStr "a") (HStr "input");
    mkEdge "e2" "m1" "t1" (HStr "output") (HStr "f1")]).

Definition noSteps (nodes : list Node) (edges : list Edge) : JSON := JUndef.

(** A conditional node whose data also carries the transformType of a
    coalesce node. *)
Definition relabelledGraph : Graph :=
  ([mkNode "if1" (Some "ifThen") JUndef
      (JObj [("label", JStr "If"); ("transformType", JStr "coalesce");
             ("operator", JStr ">"); ("compareValue", JStr "10");
             ("thenValue", JStr "high"); ("elseValue", JStr "low")])],
   []).

End RoundTrip.

(** ** The execution exporter *)

Module ExecExporter.
Import JS Flow.

Record ExecutionMappingConfig : Type := mkConfig {
  name : string;
  version : string;
  mappings : list JSON;
  metadata : JSON
}.

(** Console calls are recorded with their level and leading text. *)
Definition log (msg : string) : ConsoleEntry := Console LLog msg.

(** Property keys that are array indices: the decimal text, without
    leading zeros, of an integer from 0 to 2^32 - 2.  Own keys are
    enumerated with the array indices first, in increasing order, then
    the other keys in insertion order. *)
Fixpoint digitsValue (s : string) (acc : Z) : option Z :=
  match s with
  | EmptyString => Some acc
  | String c rest =>
      let d := (Z.of_nat (nat_of_ascii c) - 48)%Z in
      if (0 <=? d)%Z && (d <=? 9)%Z then digitsValue rest (10 * acc + d)%Z else None
  end.

Definition arrayIndex (k : string) : option Z :=
  match k with
  | EmptyString => None
  | _ =>
      match digitsValue k 0 with
      | Some z => if String.eqb (decimal z) k && (z <=? 4294967294)%Z then Some z else None
      | None => None
      end
  end.

(** A new key that is the array index [n] takes its place among the
    indices. *)
Fixpoint insertIndex (n : Z) (k : string) (v : JSON) (o : list (string * JSON))
  : list (string * JSON) :=
  match o with
  | [] => [(k, v)]
  | (k', v') :: rest =>
      match arrayIndex k' with
      | Some n' => if (n <? n')%Z then (k, v) :: o else (k', v') :: insertIndex n k v rest
      | None => (k, v) :: o
      end
  end.

Definition hasKey (k : string) (o : list (string * JSON)) : bool :=
  existsb (fun e => String.eqb k (fst e)) o.

(** [o[k] = v] for a key that meets no setter: a present key keeps its
    place and takes the value, a new one is added. *)
Definition defineOwn (k : string) (v : JSON) (o : list (string * JSON))
  : list (string * JSON) :=
  if hasKey k o then set_entry k v o
  else
    match arrayIndex k with
    | Some n => insertIndex n k v o
    | None => (o ++ [(k, v)])%list
    end.

(** The prototype of [mapObject]: [Object.prototype] at first; an
    assignment to [__proto__] that reaches the setter of
    [Object.prototype] replaces it by the assigned object or null and
    adds no key. *)
Inductive Proto : Type :=
| ObjectPrototype
| NullPrototype
| ValuePrototype (v : JSON).

(** Whether an assignment to [__proto__] still reaches that setter: not
    under a null prototype, and not under a prototype object that
    carries a property of that name itself. *)
Definition reachesSetter (p : Proto) : bool :=
  match p with
  | ObjectPrototype => true
  | NullPrototype => false
  | ValuePrototype (JObj kv) => negb (hasKey "__proto__" kv)
  | ValuePrototype _ => true
  end.

(** [mapObject[mapping.from] = mapping.to] *)
Definition assignEntry (st : Proto * list (string * JSON)) (mapping : JSON)
  : Proto * list (string * JSON) :=
  let '(proto, mapObject) := st in
  let key := toStr (get "from" mapping) in
  let value := get "to" mapping in
  if String.eqb key "__proto__" && negb (hasKey key mapObject) && reachesSetter proto then
    match value with
    | JNull => (NullPrototype, mapObject)
    | JObj _ | JArr _ => (ValuePrototype value, mapObject)
    | _ => (proto, mapObject)
    end
  else (proto, defineOwn key value mapObject).

(** The own properties of [mapObject] after
    [conversionMappings.forEach(...)]. *)
Definition buildMapObject (conversionMappings : JSON) : list (string * JSON) :=
  match conversionMappings with
  | JArr ms => snd (fold_left assignEntry ms (ObjectPrototype, []))
  | _ => []
  end.

(** The source field feeding [edge] out of [node], by name. *)
Definition fieldNameAt (node : option Node) (edge : option Edge) : JSON :=
  let fields := match node with Some n => get "fields" (data n) | None => JUndef end in
  let handle := match edge with Some e => sourceHandle e | None => HUndef end in
  jor (get "name" (find_field fields handle)) (JStr "").

(** The transform chain in front of a conversion mapping node: the name
    of the original source field and the transform information. *)
Definition conversionInput (nodes : list Node) (edges : list Edge) (sourceNode : Node)
  : JSON * JSON :=
  let conversionInputEdge := find_edge_into edges (id sourceNode) in
  let inputNode :=
    match conversionInputEdge with
    | Some e => find_node nodes (source e)
    | None => None
    end in
  match inputNode with
  | None => (JStr "", JNull)
  | Some inputNode =>
      if type_is inputNode "source" then
        (fieldNameAt (Some inputNode) conversionInputEdge, JNull)
      else if type_is inputNode "transform" || type_is inputNode "splitterTransform" then
        let transformData := data inputNode in
        let transformInputEdge := find_edge_into edges (id inputNode) in
        let transformSourceNode :=
          match transformInputEdge with
          | Some e => find_node nodes (source e)
          | None => None
          end in
        match transformSourceNode with
        | Some tsn =>
            if type_is tsn "source" then
              let originalSourceField := fieldNameAt (Some tsn) transformInputEdge in
              if type_is inputNode "transform" then
                let config := jor (get "config" transformData) (JObj []) in
                if is_str (get "stringOperation" config) "substring" then
                  (originalSourceField,
                   JObj [("type", JStr "substring");
                         ("start", jor (get "substringStart" config) (JNum 0));
                         ("end", get "substringEnd" config)])
                else
                  (originalSourceField,
                   JObj [("type", jor (get "transformType" transformData) (JStr "transform"));
                         ("operation",
                          jor (get "stringOperation" config)
                              (jor (get "operation" config) (JStr "unknown")));
                         ("parameters", config)])
              else
                (originalSourceField,
                 JObj [("type", JStr "split");
                       ("delimiter", jor (get "delimiter" transformData) (JStr ","));
                       ("index", jor (get "splitIndex" transformData) (JNum 0))])
            else (JStr "", JNull)
        | None => (JStr "", JNull)
        end
      else (JStr "", JNull)
  end.

(** The body of [incomingEdges.forEach]: the mapping pushed for the edge,
    if any, and the console output of the iteration. *)
Definition processEdge (nodes : list Node) (edges : list Edge) (targetField : JSON)
  (edge : Edge) : option JSON * list ConsoleEntry :=
  match find_node nodes (source edge) with
  | None => (None, [])
  | Some sourceNode =>
      let entered := log "Processing edge from" in
      let generated := log "Generated mapping:" in
      if type_is sourceNode "source" then
        let sourceField := find_field (get "fields" (data sourceNode)) (sourceHandle edge) in
        (Some (JObj [("from", jor (get "name" sourceField)
                                  (jor (hjson (sourceHandle edge)) (JStr "")));
                     ("to", get "name" targetField);
                     ("type", JStr "direct")]),
         [entered; generated])
      else if type_is sourceNode "staticValue" then
        let staticValue := find_field (get "values" (data sourceNode)) (sourceHandle edge) in
        (Some (JObj [("from", JNull);
                     ("to", get "name" targetField);
                     ("type", JStr "static");
                     ("value", jor (get "value" staticValue) (JStr ""))]),
         [entered; generated])
      else if type_is sourceNode "ifThen" then
        let sourceData := data sourceNode in
        let operator := string_or (get "operator" sourceData) "=" in
        let compareValue := string_or (get "compareValue" sourceData) "" in
        let thenValue := string_or (get "thenValue" sourceData) "" in
        let elseValue := string_or (get "elseValue" sourceData) "" in
        let ifThenInputEdge := find_edge_into edges (id sourceNode) in
        let inputSourceNode :=
          match ifThenInputEdge with
          | Some e => find_node nodes (source e)
          | None => None
          end in
        (Some (JObj [("from", fieldNameAt inputSourceNode ifThenInputEdge);
                     ("to", get "name" targetField);
                     ("type", JStr "ifThen");
                     ("if", JObj [("operator", JStr operator); ("value", JStr compareValue)]);
                     ("then", JStr thenValue);
                     ("else", JStr elseValue)]),
         [entered; generated])
      else if type_is sourceNode "conversionMapping" then
        let mapObject := buildMapObject (get "mappings" (data sourceNode)) in
        let '(originalSourceField, transformInfo) := conversionInput nodes edges sourceNode in
        let mapping :=
          [("from", originalSourceField);
           ("to", get "name" targetField);
           ("type", JStr "map");
           ("map", JObj mapObject)] in
        (Some (JObj (if truthy transformInfo
                     then set_entry "transform" transformInfo mapping
                     else mapping)),
         [entered; generated])
      else
        (None, [entered])
  end.

(** [edges.filter(edge => edge.target === targetNode.id &&
                          edge.targetHandle === targetField.id)] *)
Definition incomingEdges (edges : list Edge) (targetNode : Node) (targetField : JSON)
  : list Edge :=
  filter (fun edge => String.eqb (target edge) (id targetNode)
                      && strict_eq (hjson (targetHandle edge)) (get "id" targetField))
         edges.

Definition processField (nodes : list Node) (edges : list Edge) (targetNode : Node)
  (targetField : JSON) : list JSON * list ConsoleEntry :=
  let results := map (processEdge nodes edges targetField)
                     (incomingEdges edges targetNode targetField) in
  (flat_map (fun r => match fst r with Some m => [m] | None => [] end) results,
   (log "Target field has incoming edges" :: flat_map snd results)%list).

Definition processTarget (nodes : list Node) (edges : list Edge) (targetNode : Node)
  : list JSON * list ConsoleEntry :=
  let targetFields := jor (get "fields" (data targetNode)) (JArr []) in
  let results := map (processField nodes edges targetNode) (array_or_empty targetFields) in
  (flat_map fst results, (log "Processing target node:" :: flat_map snd results)%list).

Definition exportExecutionMapping (nodes : list Node) (edges : list Edge) (name : string)
  : ExecutionMappingConfig * list ConsoleEntry :=
  let targetNodes := filter (fun node => type_is node "target") nodes in
  let results := map (processTarget nodes edges) targetNodes in
  (mkConfig name "1.0.0" (flat_map fst results)
     (JObj [("description",
             JStr "Simplified execution mapping configuration for integration tools");
            ("tags", JArr [JStr "execution"; JStr "integration"; JStr "data-transformation"]);
            ("author", JStr "Lovable Mapping Tool")]),
   ([log "=== GENERATING EXECUTION MAPPINGS ==="; log "Processing nodes:";
     log "Target nodes:"]
    ++ flat_map snd results
    ++ [log "=== FINAL EXECUTION CONFIG ==="; log ""])%list).

(** The origin types for which [processEdge] builds a mapping. *)
Definition resolvable (n : Node) : bool :=
  type_is n "source" || type_is n "staticValue" || type_is n "ifThen"
  || type_is n "conversionMapping".

Definition is_warning (e : ConsoleEntry) : bool :=
  match level e with LWarn => true | _ => false end.

(** A target with one field fed by a coalesce transform node. *)
Definition orphanNodes : list Node :=
  [mkNode "t1" (Some "target") JUndef
     (JObj [("label", JStr "Target");
            ("fields", JArr [JObj [("id", JStr "f1"); ("name", JStr "total");
                                   ("type", JStr "string")]])]);
   mkNode "c1" (Some "transform") JUndef
     (JObj [("label", JStr "Coalesce"); ("transformType", JStr "coalesce")])].

Definition orphanEdges : list Edge :=
  [mkEdge "e1" "c1" "t1" (HStr "output") (HStr "f1")].

(** A source field wired to a target field through a handle that names
    no field of the source node. *)
Definition danglingTarget : Node :=
  mkNode "t1" (Some "target") JUndef
    (JObj [("label", JStr "Target");
           ("fields", JArr [JObj [("id", JStr "f1"); ("name", JStr "total");
                                  ("type", JStr "string")]])]).

Definition danglingSource : Node :=
  mkNode "s1" (Some "source") JUndef
    (JObj [("label", JStr "Source");
           ("fields", JArr [JObj [("id", JStr "a"); ("name", JStr "amount");
                                  ("type", JStr "number")]])]).

Definition danglingEdge : Edge := mkEdge "e1" "s1" "t1" (HStr "orders.amount") (HStr "f1").

End ExecExporter.

(** ** The canvas importer: expansion analysis of handleImportMapping *)

Module Pipeline.
Import JS Flow.

(** [s.split(c)] for a one-character separator. *)
Fixpoint split (c : ascii) (s : string) : list string :=
  match s with
  | EmptyString => [""]
  | String x rest =>
      let parts := split c rest in
      if Ascii.eqb x c then "" :: parts
      else match parts with
           | p :: ps => String x p :: ps
           | [] => [String x ""]
           end
  end.

(** Line terminators, which [.] does not match: [s], the text from the
    character on, starts with LF, CR, U+2028 or U+2029 (the last two by
    their UTF-8 bytes). *)
Definition lineTerminator (s : string) : bool :=
  match s with
  | String a rest =>
      Ascii.eqb a "010" || Ascii.eqb a "013"
      || match rest with
         | String b (String c _) =>
             Ascii.eqb a "226" && Ascii.eqb b "128"
             && (Ascii.eqb c "168" || Ascii.eqb c "169")
         | _ => false
         end
  | EmptyString => false
  end.

(** For the text after an opening bracket: the number of characters up to
    and including the first closing bracket, when [.*?\]] matches there. *)
Fixpoint closeLen (s : string) : option nat :=
  match s with
  | EmptyString => None
  | String c rest =>
      if Ascii.eqb c "]" then Some 1%nat
      else if lineTerminator s then None
      else option_map S (closeLen rest)
  end.

(** [s.replace(/\[.*?\]/g, '')], scanning left to right; [skip] counts the
    characters of the current match still to be dropped. *)
Fixpoint stripFrom (skip : nat) (s : string) : string :=
  match s with
  | EmptyString => ""
  | String c rest =>
      match skip with
      | S k => stripFrom k rest
      | O =>
          if Ascii.eqb c "[" then
            match closeLen rest with
            | Some k => stripFrom k rest
            | None => String c (stripFrom 0 rest)
            end
          else String c (stripFrom 0 rest)
      end
  end.

Definition stripIndices (s : string) : string := stripFrom 0 s.

(** The cleaned parent paths added for one handle, in loop order:
    [for (i = 0; i < pathParts.length - 1; i++)]. *)
Definition parentPaths (fieldPath : string) : list string :=
  let pathParts := split "." fieldPath in
  flat_map (fun i =>
              let parentPath := String.concat "." (firstn (S i) pathParts) in
              let cleanPath := stripIndices parentPath in
              if String.eqb cleanPath "" then [] else [cleanPath])
           (seq 0 (List.length pathParts - 1)).

(** [Map<string, Set<string>>], both in insertion order. *)
Definition ExpandMap : Type := list (string * list string).

Definition map_has (m : ExpandMap) (k : string) : bool :=
  existsb (fun kv => String.eqb (fst kv) k) m.

Definition map_get (m : ExpandMap) (k : string) : option (list string) :=
  option_map snd (List.find (fun kv => String.eqb (fst kv) k) m).

Definition set_add (s : list string) (x : string) : list string :=
  if existsb (String.eqb x) s then s else (s ++ [x])%list.

(** [m.get(k).add(x)] *)
Fixpoint map_add (m : ExpandMap) (k x : string) : ExpandMap :=
  match m with
  | [] => []
  | (k', s) :: rest =>
      if String.eqb k' k then (k', set_add s x) :: rest else (k', s) :: map_add rest k x
  end.

(** The body of [importedEdges.forEach]. *)
Definition analyseEdge (st : ExpandMap * list ConsoleEntry) (edge : Edge)
  : ExpandMap * list ConsoleEntry :=
  let '(sourceFieldsToExpand, console) := st in
  let console := (console ++ [Console LLog "Edge"])%list in
  match sourceHandle edge with
  | HStr fieldPath =>
      if String.eqb fieldPath "" then
        (sourceFieldsToExpand,
         (console ++ [Console LLog "Edge has no sourceHandle - skipping"])%list)
      else
        let sourceNodeId := source edge in
        let m := if map_has sourceFieldsToExpand sourceNodeId
                 then sourceFieldsToExpand
                 else (sourceFieldsToExpand ++ [(sourceNodeId, [])])%list in
        (fold_left (fun m cleanPath => map_add m sourceNodeId cleanPath)
                   (parentPaths fieldPath) m,
         (console ++ Console LLog "Analyzing path" :: Console LLog "Path parts:"
            :: map (fun _ => Console LLog "Will expand (cleaned)") (parentPaths fieldPath))%list)
  | _ =>
      (sourceFieldsToExpand,
       (console ++ [Console LLog "Edge has no sourceHandle - skipping"])%list)
  end.

Definition sourceFieldsToExpand (importedEdges : list Edge) : ExpandMap * list ConsoleEntry :=
  fold_left analyseEdge importedEdges ([], []).

(** [importedNodes.map(...)]: a source node with an entry in the map
    receives it as [data.initialExpandedFields]. *)
Definition enhanceNode (m : ExpandMap) (node : Node) : Node :=
  if type_is node "source" then
    match map_get m (id node) with
    | Some fieldsToExpand =>
        mkNode (id node) (type node) (position node)
          (JObj (obj_entries (own_entries (data node))
                   [("initialExpandedFields", JArr (map JStr fieldsToExpand))]))
    | None => node
    end
  else node.

Definition enhancedNodes (importedNodes : list Node) (importedEdges : list Edge) : list Node :=
  map (enhanceNode (fst (sourceFieldsToExpand importedEdges))) importedNodes.

(** [if (edge.sourceHandle)] *)
Definition hasHandle (edge : Edge) : bool :=
  match sourceHandle edge with
  | HStr s => negb (String.eqb s "")
  | _ => false
  end.

Definition cityEdge : Edge :=
  mkEdge "e1" "orders" "t1" (HStr "items[2].address.city") (HStr "city").

Definition ordersNode : Node :=
  mkNode "orders" (Some "source") JUndef (JObj [("label", JStr "Orders")]).

End Pipeline.

(** ** The generate-ai-mapping edge function, from the oracle's answer on *)

Module AiFunction.
Import JS AiToCanvas.

Local Open Scope Z_scope.

Fixpoint indexOfFrom (c : ascii) (s : string) (i : Z) : Z :=
  match s with
  | EmptyString => -1
  | String x rest => if Ascii.eqb x c then i else indexOfFrom c rest (i + 1)
  end.

(** [s.indexOf(c)] *)
Definition indexOf (c : ascii) (s : string) : Z := indexOfFrom c s 0.

Fixpoint lastIndexOfFrom (c : ascii) (s : string) (i found : Z) : Z :=
  match s with
  | EmptyString => found
  | String x rest => lastIndexOfFrom c rest (i + 1) (if Ascii.eqb x c then i else found)
  end.

(** [s.lastIndexOf(c)] *)
Definition lastIndexOf (c : ascii) (s : string) : Z := lastIndexOfFrom c s 0 (-1).

(** [s.slice(start, end)]: negative positions count from the end, positions
    are clamped to the string, an empty range gives the empty string. *)
Definition slice (s : string) (start stop : Z) : string :=
  let len := Z.of_nat (String.length s) in
  let norm := fun k => if k <? 0 then Z.max (len + k) 0 else Z.min k len in
  let from := norm start in
  let to := norm stop in
  if from <? to then substring (Z.to_nat from) (Z.to_nat (to - from)) s else "".

Definition jsonString (raw : string) : string :=
  let jsonStart := indexOf "[" raw in
  let jsonEnd := lastIndexOf "]" raw + 1 in
  slice raw jsonStart jsonEnd.

(** [calculateLayout]: the position written last for an id wins. *)
Definition place (x : Z) (layout : list (string * (Z * Z))) (indexed : nat * CanvasNode)
  : list (string * (Z * Z)) :=
  let '(i, node) := indexed in
  let pos := (x, 100 + Z.of_nat i * 120) in
  (fix put (l : list (string * (Z * Z))) : list (string * (Z * Z)) :=
     match l with
     | [] => [(id node, pos)]
     | (k, p) :: rest =>
         if String.eqb k (id node) then (k, pos) :: rest else (k, p) :: put rest
     end) layout.

Definition enumerate {A} (l : list A) : list (nat * A) := combine (seq 0 (List.length l)) l.

Definition calculateLayout (nodes : list CanvasNode) : list (string * (Z * Z)) :=
  let sourceNodes := filter (fun n => String.eqb (type n) "SourceNode") nodes in
  let targetNodes := filter (fun n => String.eqb (type n) "TargetNode") nodes in
  let transformNodes :=
    filter (fun n => negb (String.eqb (type n) "TargetNode" || String.eqb (type n) "SourceNode"))
           nodes in
  let layout := fold_left (place 100) (enumerate sourceNodes) [] in
  let layout := fold_left (place 450) (enumerate transformNodes) layout in
  fold_left (place 800) (enumerate targetNodes) layout.

Record FlowNode : Type := mkFlowNode {
  fid : string; ftype : string; fposition : Z * Z; fdata : list (string * JSON)
}.

Record FlowEdge : Type := mkFlowEdge {
  feid : string; fsource : string; ftarget : string; fetype : string
}.

Definition lookupLayout (layout : list (string * (Z * Z))) (k : string) : Z * Z :=
  match List.find (fun kv => String.eqb (fst kv) k) layout with
  | Some kv => snd kv
  | None => (100, 100)
  end.

Definition applyTemplate (canvas : list CanvasNode * list CanvasEdge)
  : list FlowNode * list FlowEdge :=
  let layout := calculateLayout (fst canvas) in
  (map (fun n =>
          let whole := (("id", JStr (id n)) :: ("type", JStr (type n)) :: props n)%list in
          mkFlowNode (id n) (type n) (lookupLayout layout (id n))
            (obj_entries
               [("label", jor (assoc "label" whole) (jor (assoc "field" whole) (JStr (id n))))]
               whole))
       (fst canvas),
   map (fun ie =>
          let '(idx, e) := ie in
          mkFlowEdge (from e ++ "-" ++ to e ++ "-" ++ string_of_nat idx)%string
                     (from e) (to e) "smoothstep")
       (enumerate (snd canvas))).

(** [s.includes(c)] for one character. *)
Fixpoint occurs (c : ascii) (s : string) : bool :=
  match s with
  | EmptyString => false
  | String x rest => Ascii.eqb x c || occurs c rest
  end.

(** What the conversion of the parsed value can throw, each a TypeError:
    the value is not iterable, a property is read on null or undefined,
    [join] is called on a value that has no such method, or an object
    has no text. *)
Inductive Failure : Type :=
| NotIterable
| ReadOnNullish
| NotAFunction
| NoPrimitive.

Definition bind {A B} (x : Failure + A) (f : A -> Failure + B) : Failure + B :=
  match x with
  | inl e => inl e
  | inr a => f a
  end.

Notation "x <- e ;; k" := (bind e (fun x => k))
  (at level 61, e at next level, right associativity).

(** [String(v)], as a template literal and [join] convert a parsed value:
    parsed data holds no function, so an object that carries a property
    [toString] of its own cannot be converted; any other object prints
    as [[object Object]], an array as its elements joined by commas. *)
Fixpoint text (v : JSON) : Failure + string :=
  match v with
  | JObj kv =>
      if existsb (fun e => String.eqb (fst e) "toString") kv then inl NoPrimitive
      else inr "[object Object]"%string
  | JArr l =>
      (fix elems (l : list JSON) : Failure + string :=
         match l with
         | [] => inr ""%string
         | x :: rest =>
             t <- match x with
                  | JUndef | JNull => inr ""%string
                  | _ => text x
                  end ;;
             match rest with
             | [] => inr t
             | _ => ts <- elems rest ;; inr (t ++ "," ++ ts)%string
             end
         end) l
  | _ => inr (toStr v)
  end.

(** [l.join(sep)] *)
Fixpoint joinText (sep : string) (l : list JSON) : Failure + string :=
  match l with
  | [] => inr ""%string
  | x :: rest =>
      t <- match x with
           | JUndef | JNull => inr ""%string
           | _ => text x
           end ;;
      match rest with
      | [] => inr t
      | _ => ts <- joinText sep rest ;; inr (t ++ sep ++ ts)%string
      end
  end.

(** The closure [addSource] on a value read from the parsed data. *)
Definition addSourceOf (field : JSON) (st : State) : Failure + (string * State) :=
  t <- text field ;;
  inr (("source_" ++ t)%string,
       push_node (CNode ("source_" ++ t) "SourceNode" [("label", field); ("field", field)]) st).

(** One iteration of [for (const map of mappings)] on a parsed element. *)
Definition stepParsed (st : State) (m : JSON) : Failure + State :=
  match m with
  | JUndef | JNull => inl ReadOnNullish
  | _ =>
      let target_field := get "target_field" m in
      let mapping_type := get "mapping_type" m in
      let source_field := get "source_field" m in
      t <- text target_field ;;
      let targetId := ("target_" ++ t)%string in
      let st := push_node (CNode targetId "TargetNode"
                             [("label", target_field); ("field", target_field)]) st in
      if is_str mapping_type "direct" then
        fs <- addSourceOf source_field st ;;
        inr (push_edge (CEdge "direct" (fst fs) targetId) (snd fs))
      else if is_str mapping_type "static" then
        v <- text (get "value" m) ;;
        inr (finish (CNode ("static_" ++ t) "StaticValueNode"
                       [("label", JStr ("Static: " ++ v)); ("value", get "value" m)])
                    targetId st)
      else if is_str mapping_type "conditional" then
        inr (finish (CNode ("if_" ++ t) "IfThenNode"
                       [("label", JStr "Conditional"); ("conditions", get "conditions" m)])
                    targetId st)
      else if is_str mapping_type "table" then
        let nodeId := ("convert_" ++ t)%string in
        fs <- addSourceOf source_field st ;;
        s <- text source_field ;;
        let st := push_edge (CEdge "edge" (fst fs) nodeId) (snd fs) in
        inr (finish (CNode nodeId "ConversionMappingNode"
                       [("label", JStr ("Convert: " ++ s));
                        ("sourceField", source_field);
                        ("mappingTable", get "table" m)])
                    targetId st)
      else if is_str mapping_type "date_conversion" then
        let nodeId := ("date_" ++ t)%string in
        fs <- addSourceOf source_field st ;;
        f <- text (get "format" m) ;;
        let st := push_edge (CEdge "edge" (fst fs) nodeId) (snd fs) in
        inr (finish (CNode nodeId "TransformNode"
                       [("label", JStr ("Date: " ++ f));
                        ("sourceField", source_field);
                        ("transformType", JStr "dateFormat");
                        ("format", get "format" m);
                        ("autoDetect", JBool true)])
                    targetId st)
      else if is_str mapping_type "concat" then
        let nodeId := ("concat_" ++ t)%string in
        match get "source_fields" m with
        | JArr source_fields =>
            label <- joinText " + " source_fields ;;
            let separator :=
              match get "separator" m with
              | JUndef | JNull => JStr " "
              | v => v
              end in
            st <- fold_left (fun acc field =>
                               st <- acc ;;
                               fs <- addSourceOf field st ;;
                               inr (push_edge (CEdge "edge" (fst fs) nodeId) (snd fs)))
                            source_fields (inr st) ;;
            inr (finish (CNode nodeId "ConcatTransformNode"
                           [("label", JStr ("Concat: " ++ label));
                            ("sourceFields", JArr source_fields);
                            ("separator", separator)])
                        targetId st)
        | JUndef | JNull => inl ReadOnNullish
        | _ => inl NotAFunction
        end
      else if is_str mapping_type "split" then
        let nodeId := ("split_" ++ t)%string in
        fs <- addSourceOf source_field st ;;
        s <- text source_field ;;
        i <- text (get "index" m) ;;
        let st := push_edge (CEdge "edge" (fst fs) nodeId) (snd fs) in
        inr (finish (CNode nodeId "SplitterTransformNode"
                       [("label", JStr ("Split: " ++ s ++ "[" ++ i ++ "]"));
                        ("sourceField", source_field);
                        ("delimiter", get "delimiter" m);
                        ("index", get "index" m)])
                    targetId st)
      else if is_str mapping_type "skip" then
        inr st
      else
        mt <- text mapping_type ;;
        inr (warn ("Unknown mapping type: " ++ mt) st)
  end.

(** The code points of a text held as UTF-8 bytes: a byte from 128 to 191
    continues the code point before it. *)
Fixpoint codePoints (s : string) : list string :=
  match s with
  | EmptyString => []
  | String c rest =>
      match codePoints rest with
      | p :: ps =>
          match rest with
          | String d _ =>
              if (Nat.leb 128 (nat_of_ascii d) && Nat.leb (nat_of_ascii d) 191)%bool
              then String c p :: ps
              else String c "" :: p :: ps
          | EmptyString => [String c ""]
          end
      | [] => [String c ""]
      end
  end.

(** What [for (const map of mappings)] iterates over: the elements of an
    array, the code points of a string; nothing else that JSON.parse
    returns is iterable. *)
Definition iterate (mappings : JSON) : Failure + list JSON :=
  match mappings with
  | JArr l => inr l
  | JStr s => inr (map JStr (codePoints s))
  | _ => inl NotIterable
  end.

(** [convertMappingsToCanvas(parsed)] on the value that JSON.parse gave,
    which nothing has checked against [MappingSuggestion[]]. *)
Definition convertParsed (parsed : JSON)
  : Failure + (list CanvasNode * list CanvasEdge) :=
  elements <- iterate parsed ;;
  st <- fold_left (fun acc m => st <- acc ;; stepParsed st m) elements (inr init) ;;
  inr (nodes st, edges st).

(** A well-typed suggestion as the parsed object that carries it. *)
Definition encode (m : MappingSuggestion) : JSON :=
  JObj [("target_field", JStr (target_field m));
        ("mapping_type", JStr (mapping_type m));
        ("source_field", JStr (source_field m));
        ("value", JStr (value m));
        ("conditions", json_of_conditions (conditions m));
        ("table", json_of_table (table m));
        ("format", JStr (format m));
        ("source_fields", JArr (map JStr (source_fields m)));
        ("separator", match separator m with Some s => JStr s | None => JNull end);
        ("delimiter", JStr (delimiter m));
        ("index", JNum (index m))].

(** The two responses that follow the oracle call. *)
Inductive Response : Type :=
| Ok200 (mappings : JSON) (canvas : list FlowNode * list FlowEdge)
| Error500 (error : string).

(** The tail of the handler, inside its [try].  [JSON.parse] is the
    parameter [parse]: it throws, with a message, or gives a value;
    [message] is the text that the engine gives each TypeError.  Whatever
    is thrown ends in the [catch], which answers with status 500 and the
    message. *)
Definition respond (parse : string -> string + JSON) (message : Failure -> string)
  (raw : string) : Response :=
  match parse (jsonString raw) with
  | inl thrown => Error500 thrown
  | inr parsed =>
      match convertParsed parsed with
      | inl failure => Error500 (message failure)
      | inr canvas => Ok200 parsed (applyTemplate canvas)
      end
  end.

(** A stand-in for [JSON.parse] that understands two texts only. *)
Definition parseSample (s : string) : string + JSON :=
  if String.eqb s "[]" then inr (JArr [])
  else if String.eqb s "[null]" then inr (JArr [JNull])
  else inl "Unexpected token"%string.

Definition messageSample (f : Failure) : string :=
  match f with
  | NotIterable => "mappings is not iterable"
  | ReadOnNullish => "Cannot read properties of null"
  | NotAFunction => "map.source_fields.join is not a function"
  | NoPrimitive => "Cannot convert object to primitive value"
  end%string.

End AiFunction.

(** ** The versioning and activation store *)

Module MappingService.
Import JS Flow.

Record Metadata : Type := mkMetadata {
  author : string; created_at : string; created_by : string
}.

Record SavedMappingConfig : Type := mkUiConfig {
  ui_name : string;
  ui_version : string;
  ui_category : string;
  ui_description : option string;
  ui_tags : list string;
  ui_nodes : list Node;
  ui_edges : list Edge;
  ui_metadata : Metadata
}.

(** A record of the mappings table; nullable columns are options. *)
Record Row : Type := mkRow {
  id : string;
  user_id : string;
  name : string;
  version : string;
  category : option string;
  description : option string;
  tags : option (list string);
  transform_type : option string;
  mapping_group_id : option string;
  ui_config : SavedMappingConfig;
  execution_config : JSON;
  is_active : bool
}.

Definition Table : Type := list Row.

Definition set_active (b : bool) (r : Row) : Row :=
  mkRow (id r) (user_id r) (name r) (version r) (category r) (description r) (tags r)
        (transform_type r) (mapping_group_id r) (ui_config r) (execution_config r) b.

(** [update({ is_active: b }) ... where p]: one statement over the table. *)
Definition update_active (b : bool) (p : Row -> bool) (db : Table) : Table :=
  map (fun r => if p r then set_active b r else r) db.

(** A column compared with [.eq(column, value)]: NULL matches nothing. *)
Definition col_eq (column : option string) (value : string) : bool :=
  match column with Some c => String.eqb c value | None => false end.

(** [.maybeSingle()]: the row when exactly one matches; no row gives null,
    several rows give an error and null data. *)
Definition maybeSingle (rows : list Row) : option Row :=
  match rows with
  | [r] => Some r
  | _ => None
  end.

(** Text is held as its UTF-8 bytes.  The white space and the line
    terminators that [trim] removes are the one-byte characters space,
    TAB, LF, VT, FF and CR, the two-byte U+00A0, and the three-byte
    U+1680, U+2000 to U+200A, U+2028, U+2029, U+202F, U+205F, U+3000 and
    U+FEFF. *)
Definition isSpace (c : ascii) : bool :=
  existsb (Ascii.eqb c) [" "; "009"; "010"; "011"; "012"; "013"]%char.

Definition isByte (c : ascii) (n : nat) : bool := Nat.eqb (nat_of_ascii c) n.

Definition isSpace2 (a b : ascii) : bool := isByte a 194 && isByte b 160.

Definition isSpace3 (a b c : ascii) : bool :=
  (isByte a 225 && isByte b 154 && isByte c 128)
  || (isByte a 226 && isByte b 128
      && ((Nat.leb 128 (nat_of_ascii c) && Nat.leb (nat_of_ascii c) 138)
          || isByte c 168 || isByte c 169 || isByte c 175))
  || (isByte a 226 && isByte b 129 && isByte c 159)
  || (isByte a 227 && isByte b 128 && isByte c 128)
  || (isByte a 239 && isByte b 187 && isByte c 191).

(** [s.trimStart()] *)
Fixpoint trimStart (s : string) : string :=
  match s with
  | EmptyString => ""
  | String a r1 =>
      if isSpace a then trimStart r1
      else
        match r1 with
        | String b r2 =>
            if isSpace2 a b then trimStart r2
            else
              match r2 with
              | String c r3 => if isSpace3 a b c then trimStart r3 else s
              | EmptyString => s
              end
        | EmptyString => s
        end
  end.

Fixpoint revOnto (s acc : string) : string :=
  match s with
  | EmptyString => acc
  | String c rest => revOnto rest (String c acc)
  end.

Definition reverse (s : string) : string := revOnto s "".

(** [trimStart] on a text read backwards. *)
Fixpoint trimStartReversed (s : string) : string :=
  match s with
  | EmptyString => ""
  | String c r1 =>
      if isSpace c then trimStartReversed r1
      else
        match r1 with
        | String b r2 =>
            if isSpace2 b c then trimStartReversed r2
            else
              match r2 with
              | String a r3 => if isSpace3 a b c then trimStartReversed r3 else s
              | EmptyString => s
              end
        | EmptyString => s
        end
  end.

(** [s.trimEnd()] *)
Definition trimEnd (s : string) : string := reverse (trimStartReversed (reverse s)).

(** [s.trim()] *)
Definition trim (s : string) : string := trimEnd (trimStart s).

(** [s || d] for a nullable string. *)
Definition opt_or (s : option string) (d : string) : string :=
  match s with
  | Some s => if String.eqb s "" then d else s
  | None => d
  end.

(** [if (s)] for a nullable string. *)
Definition present (s : option string) : bool :=
  match s with
  | Some s => negb (String.eqb s "")
  | None => false
  end.

Definition quote : string := String (ascii_of_nat 34) "".

(** What the collaborator answers during one call: whether the two
    look-ups return data, the outcome of the version procedure, the errors
    of the update and insert statements, and the generated values. *)
Record SaveEnv : Type := mkSaveEnv {
  existing_query_ok : bool;
  conflict_query_ok : bool;
  next_version : string + string;
  deactivate_error : option string;
  insert_error : option string;
  randomUUID : string;
  generated_id : string;
  now : string
}.

Record SaveArgs : Type := mkSaveArgs {
  a_name : string;
  a_nodes : list Node;
  a_edges : list Edge;
  a_userId : string;
  a_category : string;
  a_description : option string;
  a_tags : option (list string);
  a_executionConfig : JSON;
  a_providedVersion : option string;
  a_transformType : string
}.

(** The first look-up: the active mapping of that name, whose group and
    metadata a new version inherits.  Its error is not inspected. *)
Definition findExisting (env : SaveEnv) (db : Table) (userId name : string) : option Row :=
  if existing_query_ok env then
    maybeSingle (filter (fun r => String.eqb (user_id r) userId
                                  && String.eqb (MappingService.name r) name
                                  && is_active r) db)
  else None.

(** The result of a call: the thrown error message or the value, and the
    table afterwards.  A statement that reports an error changes nothing. *)
Definition saveMapping (env : SaveEnv) (db : Table) (a : SaveArgs)
  : (string + Row) * Table :=
  let userId := a_userId a in
  let name := a_name a in
  if String.eqb userId "" then
    (inl "User authentication is required to save mappings", db)
  else
    let existingMapping := findExisting env db userId name in
    let nameConflict :=
      match existingMapping with
      | Some _ => false
      | None =>
          conflict_query_ok env
          && existsb (fun r => String.eqb (user_id r) userId
                               && String.eqb (MappingService.name r) (trim name)) db
      end in
    if nameConflict then
      (inl ("A mapping with the name " ++ quote ++ trim name ++ quote
            ++ " already exists. Please choose a different name."), db)
    else
      let finalCategory :=
        if negb (String.eqb (a_category a) "General") then a_category a
        else opt_or (match existingMapping with Some e => category e | None => None end)
                    "General" in
      let finalDescription :=
        if present (a_description a) then a_description a
        else match existingMapping with Some e => description e | None => None end in
      let finalTags :=
        match a_tags a with
        | Some t => t
        | None =>
            match existingMapping with
            | Some e => match tags e with Some t => t | None => [] end
            | None => []
            end
        end in
      let finalTransformType :=
        if negb (String.eqb (a_transformType a) "JsonToJson") then a_transformType a
        else opt_or (match existingMapping with Some e => transform_type e | None => None end)
                    "JsonToJson" in
      let mappingGroupId :=
        opt_or (match existingMapping with Some e => mapping_group_id e | None => None end)
               (randomUUID env) in
      let versionOrError :=
        if present (a_providedVersion a) then inr (opt_or (a_providedVersion a) "")
        else next_version env in
      match versionOrError with
      | inl message => (inl ("Failed to get next version: " ++ message), db)
      | inr version =>
          let uiConfig :=
            mkUiConfig name version finalCategory finalDescription finalTags
                       (a_nodes a) (a_edges a)
                       (mkMetadata userId (now env) userId) in
          let deactivated :=
            match existingMapping with
            | Some _ =>
                match deactivate_error env with
                | Some message => inl message
                | None =>
                    inr (update_active false
                           (fun r => String.eqb (user_id r) userId
                                     && col_eq (mapping_group_id r) mappingGroupId) db)
                end
            | None => inr db
            end in
          match deactivated with
          | inl message =>
              (inl ("Failed to deactivate previous versions: " ++ message), db)
          | inr db1 =>
              match insert_error env with
              | Some message => (inl ("Failed to save mapping: " ++ message), db1)
              | None =>
                  let data :=
                    mkRow (generated_id env) userId name version (Some finalCategory)
                          finalDescription (Some finalTags) (Some finalTransformType)
                          (Some mappingGroupId) uiConfig (a_executionConfig a) true in
                  (inr data, (db1 ++ [data])%list)
              end
          end
      end.

(** What the collaborator answers during one [activateVersion] call. *)
Record ActivateEnv : Type := mkActivateEnv {
  act_deactivate_error : option string;
  act_activate_error : option string
}.

(** The category filter of the deactivation: [.eq('category', category)]
    for a truthy argument, [.is('category', null)] otherwise. *)
Definition categoryFilter (category : option string) (r : Row) : bool :=
  if present category then col_eq (MappingService.category r) (opt_or category "")
  else match MappingService.category r with None => true | Some _ => false end.

Definition activateVersion (env : ActivateEnv) (db : Table)
  (id userId name : string) (category : option string) : (string + unit) * Table :=
  if String.eqb userId "" then
    (inl "User authentication is required to update mappings", db)
  else
    match act_deactivate_error env with
    | Some message => (inl ("Failed to deactivate previous versions: " ++ message), db)
    | None =>
        let db1 :=
          update_active false
            (fun r => String.eqb (user_id r) userId
                      && String.eqb (MappingService.name r) name
                      && categoryFilter category r) db in
        match act_activate_error env with
        | Some message => (inl ("Failed to activate mapping version: " ++ message), db1)
        | None =>
            (inr tt,
             update_active true
               (fun r => String.eqb (MappingService.id r) id
                         && String.eqb (user_id r) userId) db1)
        end
    end.

(** The active records of a (user, mapping_group_id) partition. *)
Definition activeInGroup (userId groupId : string) (db : Table) : list Row :=
  filter (fun r => String.eqb (user_id r) userId
                   && col_eq (mapping_group_id r) groupId
                   && is_active r) db.

(** The stored category that the deactivation of [activateVersion] looks
    for: the argument itself when it is a non-empty string, NULL when it
    is absent or empty. *)
Definition sqlCategory (category : option string) : option string :=
  if present category then category else None.

(** The deactivation filter of [saveMapping]. *)
Definition inGroup (userId groupId : string) (r : Row) : bool :=
  String.eqb (user_id r) userId && col_eq (mapping_group_id r) groupId.

(** Sample records: two versions of one mapping saved with an empty
    category, the second one active. *)
Definition emptyUi (version : string) : SavedMappingConfig :=
  mkUiConfig "orders" version "" None [] [] [] (mkMetadata "u1" "" "u1").

Definition blankV1 : Row :=
  mkRow "id1" "u1" "orders" "v1.01" (Some "") None (Some []) (Some "JsonToJson")
        (Some "g1") (emptyUi "v1.01") JUndef true.

Definition blankV2 : Row :=
  mkRow "id2" "u1" "orders" "v1.02" (Some "") None (Some []) (Some "JsonToJson")
        (Some "g1") (emptyUi "v1.02") JUndef false.

Definition noFault : ActivateEnv := mkActivateEnv None None.

Definition saveEnv1 : SaveEnv :=
  mkSaveEnv true true (inr "v1.02") None None "g2" "id2" "2025-01-01T00:00:00.000Z".

Definition saveArgs1 : SaveArgs :=
  mkSaveArgs "orders" [] [] "u1" "General" None None JUndef None "JsonToJson".

Definition generalV1 : Row :=
  mkRow "id1" "u1" "orders" "v1.01" (Some "General") None (Some []) (Some "JsonToJson")
        (Some "g1") (emptyUi "v1.01") JUndef true.

Definition generalV2 : Row :=
  mkRow "id2" "u1" "orders" "v1.02" (Some "General") None (Some []) (Some "JsonToJson")
        (Some "g1") (emptyUi "v1.02") JUndef false.

End MappingService.

(** ** The AI suggestion adapter: what one entry adds *)

Module AiToCanvasFacts.
Import JS AiToCanvas.

(** The source fields that the arm of an entry passes to [addSource]. *)
Definition sourcesOf (m : MappingSuggestion) : list string :=
  let mt := mapping_type m in
  if String.eqb mt "direct" || String.eqb mt "table" || String.eqb mt "date_conversion"
     || String.eqb mt "split"
  then [source_field m]
  else if String.eqb mt "concat" then source_fields m
  else [].

(** The id of the transform node that the arm of an entry builds. *)
Definition transformIdOf (m : MappingSuggestion) : list string :=
  let mt := mapping_type m in
  if String.eqb mt "static" then ["static_" ++ target_field m]
  else if String.eqb mt "conditional" then ["if_" ++ target_field m]
  else if String.eqb mt "table" then ["convert_" ++ target_field m]
  else if String.eqb mt "date_conversion" then ["date_" ++ target_field m]
  else if String.eqb mt "concat" then ["concat_" ++ target_field m]
  else if String.eqb mt "split" then ["split_" ++ target_field m]
  else [].

(** The node ids that one iteration asks for, in the order of the pushes. *)
Definition sourceId (field : string) : string := "source_" ++ field.

Definition idsOf (m : MappingSuggestion) : list string :=
  ("target_" ++ target_field m) :: List.app (map sourceId (sourcesOf m)) (transformIdOf m).

(** The edges that one iteration pushes, in order. *)
Definition edgesOf (m : MappingSuggestion) : list CanvasEdge :=
  let targetId := "target_" ++ target_field m in
  if String.eqb (mapping_type m) "direct" then
    [CEdge "direct" ("source_" ++ source_field m) targetId]
  else
    flat_map (fun nodeId =>
                List.app (map (fun f => CEdge "edge" (sourceId f) nodeId) (sourcesOf m))
                         [CEdge "edge" nodeId targetId])
             (transformIdOf m).

Definition ids (st : State) : list string := map id (nodes st).

(** [addedNodeIds] holds exactly the ids of the nodes pushed so far, and no
    id was pushed twice. *)
Record tracked (st : State) : Prop := Tracked {
  tr_nodup : NoDup (ids st);
  tr_added : forall x, has (addedNodeIds st) x = true <-> In x (ids st)
}.

(** [st'] is tracked and extends [st] by the ids [new]. *)
Record grows (st st' : State) (new : list string) : Prop := Grows {
  gr_tracked : tracked st';
  gr_ids : forall x, In x (ids st') <-> In x (ids st) \/ In x new
}.

(** [st'] has the nodes and the id set of [st]. *)
Definition same_nodes (st st' : State) : Prop :=
  nodes st' = nodes st /\ addedNodeIds st' = addedNodeIds st.

End AiToCanvasFacts.

(** ** The layout pass: columns *)

Module LayoutFacts.
Import JS AiToCanvas AiFunction.

(** The column of a canvas node: sources left, targets right, every other
    node in the middle. *)
Definition column (n : CanvasNode) : Z :=
  if String.eqb (type n) "SourceNode" then 100%Z
  else if String.eqb (type n) "TargetNode" then 800%Z
  else 450%Z.

(** The nodes that share the column of [n], in list order. *)
Definition columnOf (n : CanvasNode) (nodes : list CanvasNode) : list CanvasNode :=
  filter (fun m => Z.eqb (column m) (column n)) nodes.

End LayoutFacts.

(** ** The expansion analysis: paths and the edges they come from *)

Module PipelineFacts.
Import JS Flow Pipeline.

(** [s.includes(c)] for one character. *)
Fixpoint hasChar (c : ascii) (s : string) : bool :=
  match s with
  | EmptyString => false
  | String x rest => Ascii.eqb x c || hasChar c rest
  end.

(** An edge with a sourceHandle that leaves node [k]. *)
Definition leaves (k : string) (e : Edge) : bool :=
  hasHandle e && String.eqb (source e) k.

(** The cleaned parent paths of all such edges, edge after edge. *)
Definition pathsFrom (k : string) (edges : list Edge) : list string :=
  flat_map (fun e =>
              if leaves k e then
                match sourceHandle e with
                | HStr fieldPath => parentPaths fieldPath
                | _ => []
                end
              else [])
           edges.

(** What the map holds after the analysis of [edges]. *)
Record analysed (edges : list Edge) (m : ExpandMap) : Prop := Analysed {
  an_keys : NoDup (map fst m);
  an_none : forall k, map_get m k = None <-> existsb (leaves k) edges = false;
  an_some : forall k s, map_get m k = Some s ->
                        NoDup s /\ forall p, In p s <-> In p (pathsFrom k edges)
}.

End PipelineFacts.

(** ** Facts about the node importers *)

Module NodeImporterFacts.
Import JS Flow NodeImporter.

(** The value that [reconstructSchemaFields] assigns to [groupBy], if it
    assigns one: read off the first configuration whose target is the
    name of the field. *)
Definition groupByFor (arrayConfigs : option (list JSON)) (field : JSON) : option JSON :=
  match arrayConfigs with
  | Some cfgs =>
      if is_str (get "type" field) "array" then
        if truthy (findArrayConfig cfgs field)
        then Some (jor (get "groupBy" (findArrayConfig cfgs field)) JUndef)
        else None
      else None
  | None => None
  end.

Definition assign (k : string) (v : option JSON) (kv : list (string * JSON))
  : list (string * JSON) :=
  match v with Some v => set_entry k v kv | None => kv end.

(** An array of three configurations, two of them for the items array. *)
Definition itemsField : JSON :=
  JObj [("id", JStr "f1"); ("name", JStr "items"); ("type", JStr "array");
        ("groupBy", JStr "stale");
        ("children", JArr [JObj [("id", JStr "f2"); ("name", JStr "orderId");
                                 ("type", JStr "string")]])].

Definition itemsConfigs : list JSON :=
  [JObj [("target", JStr "orders"); ("groupBy", JStr "customer")];
   JObj [("target", JStr "items"); ("groupBy", JStr "orderId")];
   JObj [("target", JStr "items"); ("groupBy", JStr "sku")]].

End NodeImporterFacts.

(** ** Facts about the execution export *)

Module ExecExporterFacts.
Import JS Flow ExecExporter.

(** The mapping type written for an origin node, arm by arm. *)
Definition kindOf (origin : Node) : string :=
  if type_is origin "source" then "direct"
  else if type_is origin "staticValue" then "static"
  else if type_is origin "ifThen" then "ifThen"
  else "map".

(** The enumeration order of own keys: an array index stands before every
    larger index and before every other key. *)
Definition precedes (k1 k2 : string) : bool :=
  match arrayIndex k1, arrayIndex k2 with
  | Some a, Some b => (a <? b)%Z
  | Some _, None => true
  | None, Some _ => false
  | None, None => true
  end.

Fixpoint ordered (keys : list string) : bool :=
  match keys with
  | [] => true
  | k :: rest => forallb (precedes k) rest && ordered rest
  end.

(** A value that the [__proto__] setter ignores: neither an object nor
    null. *)
Definition ignoredBySetter (v : JSON) : bool :=
  match v with
  | JNull | JObj _ | JArr _ => false
  | _ => true
  end.

(** A lookup table that names the key 10 before the key 9 and has an
    entry for [__proto__]. *)
Definition sampleTable : list JSON :=
  [JObj [("from", JStr "b"); ("to", JStr "1")];
   JObj [("from", JStr "10"); ("to", JStr "2")];
   JObj [("from", JStr "__proto__"); ("to", JStr "3")];
   JObj [("from", JStr "9"); ("to", JStr "4")];
   JObj [("from", JStr "b"); ("to", JStr "5")]].

End ExecExporterFacts.

(** ** MappingService: the remaining table operations *)

Module MappingServiceMore.
Import JS Flow MappingService.

(** [toggleMappingStatus]; [error] is what the update statement reports. *)
Definition toggleMappingStatus (error : option string) (db : Table)
  (id userId : string) (isActive : bool) : (string + unit) * Table :=
  if String.eqb userId "" then
    (inl "User authentication is required to update mappings", db)
  else
    match error with
    | Some message => (inl ("Failed to update mapping status: " ++ message), db)
    | None =>
        (inr tt,
         update_active isActive
           (fun r => String.eqb (MappingService.id r) id && String.eqb (user_id r) userId) db)
    end.

(** [deleteMapping]; [error] is what the delete statement reports. *)
Definition deleteMapping (error : option string) (db : Table) (id userId : string)
  : (string + unit) * Table :=
  if String.eqb userId "" then
    (inl "User authentication is required to delete mappings", db)
  else
    match error with
    | Some message => (inl ("Failed to delete mapping: " ++ message), db)
    | None =>
        (inr tt,
         filter (fun r => negb (String.eqb (MappingService.id r) id
                                && String.eqb (user_id r) userId)) db)
    end.

(** [Map<string, any>] keyed by the (nullable) group id, in insertion
    order; [set] on a key that is present keeps its place. *)
Definition GroupMap : Type := list (option string * Row).

Definition group_eqb (a b : option string) : bool :=
  match a, b with
  | Some x, Some y => String.eqb x y
  | None, None => true
  | _, _ => false
  end.

Definition gm_get (m : GroupMap) (g : option string) : option Row :=
  option_map snd (find (fun kv => group_eqb (fst kv) g) m).

Fixpoint gm_set (m : GroupMap) (g : option string) (item : Row) : GroupMap :=
  match m with
  | [] => [(g, item)]
  | (g', r) :: rest =>
      if group_eqb g' g then (g', item) :: rest else (g', r) :: gm_set rest g item
  end.

(** The body of [(data || []).forEach]. *)
Definition groupStep (groupMap : GroupMap) (item : Row) : GroupMap :=
  let groupId := mapping_group_id item in
  match gm_get groupMap groupId with
  | None => gm_set groupMap groupId item
  | Some existing =>
      if is_active item && negb (is_active existing)
      then gm_set groupMap groupId item
      else groupMap
  end.

(** [Array.from(groupMap.values())] after the loop. *)
Definition latestByGroup (data : list Row) : list Row :=
  map snd (fold_left groupStep data []).

(** The answer of a select statement: the rows, in the order the
    database returns them, and the error. *)
Record Select : Type := mkSelect {
  sel_data : option (list Row);
  sel_error : option string
}.

Definition getLatestMappings (answer : Select) (userId : string) : string + list Row :=
  if String.eqb userId "" then inl "User authentication is required to fetch mappings"
  else
    match sel_error answer with
    | Some message => inl ("Failed to fetch mappings: " ++ message)
    | None => inr (latestByGroup (match sel_data answer with Some d => d | None => [] end))
    end.

(** What the collaborator answers during one [copyMapping] call: whether
    the name look-up returns data, the error of the fetch statement, the
    message of [.single()] when the rows are not exactly one, the error of
    the insert, and the generated values. *)
Record CopyEnv : Type := mkCopyEnv {
  name_query_ok : bool;
  fetch_error : option string;
  single_error : string;
  copy_insert_error : option string;
  copy_randomUUID : string;
  copy_generated_id : string;
  copy_now : string
}.

(** [.single()] *)
Definition single (env : CopyEnv) (rows : list Row) : string + Row :=
  match fetch_error env with
  | Some message => inl message
  | None =>
      match rows with
      | [r] => inr r
      | _ => inl (single_error env)
      end
  end.

Definition nameTaken (db : Table) (userId name : string) : bool :=
  existsb (fun r => String.eqb (user_id r) userId
                    && String.eqb (MappingService.name r) name) db.

(** The record that [copyMapping] inserts. *)
Definition copyOf (env : CopyEnv) (originalMapping : Row)
  (userId newName : string) (transformType : option string) : Row :=
  let newMappingGroupId := copy_randomUUID env in
  let newVersion := "v1.01" in
  let originalUiConfig := ui_config originalMapping in
  let originalExecutionConfig := execution_config originalMapping in
  let copyConfig :=
    mkUiConfig (trim newName) newVersion (ui_category originalUiConfig)
      (ui_description originalUiConfig) (ui_tags originalUiConfig)
      (ui_nodes originalUiConfig) (ui_edges originalUiConfig)
      (mkMetadata (author (ui_metadata originalUiConfig)) (copy_now env) userId) in
  let copyExecutionConfig :=
    if truthy originalExecutionConfig then
      JObj (obj_entries (own_entries originalExecutionConfig)
              [("name", JStr (trim newName)); ("version", JStr newVersion)])
    else JUndef in
  mkRow (copy_generated_id env) userId (trim newName) newVersion
    (category originalMapping) (description originalMapping) (tags originalMapping)
    (Some (opt_or transformType (opt_or (transform_type originalMapping) "JsonToJson")))
    (Some newMappingGroupId) copyConfig copyExecutionConfig true.

Definition copyMapping (env : CopyEnv) (db : Table)
  (mappingId userId newName : string) (transformType : option string)
  : (string + Row) * Table :=
  if String.eqb userId "" then
    (inl "User authentication is required to copy mappings", db)
  else if name_query_ok env && nameTaken db userId (trim newName) then
    (inl ("A mapping with the name " ++ quote ++ trim newName ++ quote
          ++ " already exists. Please choose a different name."), db)
  else
    match single env (filter (fun r => String.eqb (MappingService.id r) mappingId
                                       && String.eqb (user_id r) userId) db) with
    | inl message =>
        (inl ("Failed to find original mapping: "
              ++ opt_or (Some message) "Mapping not found"), db)
    | inr originalMapping =>
        match copy_insert_error env with
        | Some message => (inl ("Failed to copy mapping: " ++ message), db)
        | None =>
            let newMapping := copyOf env originalMapping userId newName transformType in
            (inr newMapping, (db ++ [newMapping])%list)
        end
    end.

(** The representative of group [g] in [data]: the first active row of
    the group, or its first row when none is active. *)
Definition inGroupOf (g : option string) (r : Row) : bool :=
  group_eqb (mapping_group_id r) g.

Definition representative (g : option string) (data : list Row) : option Row :=
  match find (fun r => inGroupOf g r && is_active r) data with
  | Some r => Some r
  | None => find (inGroupOf g) data
  end.

(** A row of the table, up to its activity flag. *)
Definition content (r : Row) : Row := set_active false r.

(** Sample data: two groups, the first with its second version active. *)
Definition ordersV1 : Row :=
  mkRow "id1" "u1" "orders" "v1.01" (Some "General") None (Some []) (Some "JsonToJson")
        (Some "g1") (emptyUi "v1.01") JUndef false.

Definition ordersV2 : Row :=
  mkRow "id2" "u1" "orders" "v1.02" (Some "General") None (Some []) (Some "JsonToJson")
        (Some "g1") (emptyUi "v1.02") JUndef true.

Definition copyEnv1 : CopyEnv :=
  mkCopyEnv true None "no rows" None "g9" "id9" "2025-01-01T00:00:00.000Z".

(** What the group map holds after the rows [data]. *)
Record grouped (data : list Row) (m : GroupMap) : Prop := Grouped {
  gr_keys : NoDup (map fst m);
  gr_get : forall g, gm_get m g = representative g data;
  gr_entry : forall k r, In (k, r) m -> mapping_group_id r = k
}.

End MappingServiceMore.

(** ** Facts about the table operations *)

Module MappingServiceFacts.
Import JS Flow MappingService MappingServiceMore.

(** The version that [saveMapping] stores, or the error of the version
    procedure. *)
Definition versionOf (env : SaveEnv) (a : SaveArgs) : string + string :=
  if present (a_providedVersion a) then inr (opt_or (a_providedVersion a) "")
  else next_version env.

(** The active records of a user under a name: the look-up that opens
    [saveMapping]. *)
Definition activeNamed (userId name : string) (db : Table) : list Row :=
  filter (fun r => String.eqb (user_id r) userId
                   && String.eqb (MappingService.name r) name
                   && is_active r) db.

(** The records matched by the deactivation of [activateVersion]. *)
Definition inPartition (userId name : string) (category : option string) (r : Row) : bool :=
  String.eqb (user_id r) userId && String.eqb (MappingService.name r) name
  && categoryFilter category r.

(** The records matched by id and owner. *)
Definition isRecord (id userId : string) (r : Row) : bool :=
  String.eqb (MappingService.id r) id && String.eqb (user_id r) userId.

(** [db'] holds the records of [db] in their order, followed by at most
    one more; a record that differs from its original belongs to
    [userId] and differs in its activity flag only. *)
Definition keeps (userId : string) (db db' : Table) : Prop :=
  List.length db <= List.length db' <= S (List.length db)
  /\ Forall2 (fun r r' => r' = r \/ (user_id r = userId /\ content r' = content r))
             db (firstn (List.length db) db').

(** A collaborator whose insert statement fails. *)
Definition saveEnv2 : SaveEnv :=
  mkSaveEnv true true (inr "v1.02") None (Some "timeout") "g2" "id3"
            "2025-01-01T00:00:00.000Z".

Definition saveEnv3 : SaveEnv :=
  mkSaveEnv true true (inr "v1.03") None None "g3" "id3" "2025-01-02T00:00:00.000Z".

End MappingServiceFacts.

(** ** The field editor of the target node *)

Module TargetNode.

(** [SchemaField]; the optional properties are options. *)
Unset Elimination Schemes.
Inductive SchemaField : Type := mkField {
  id : string;
  name : string;
  type : string;
  children : option (list SchemaField);
  parent : option string;
  groupBy : option string
}.
Set Elimination Schemes.

(** [Partial<SchemaField>]: a property is absent or carries a value; the
    callers pass [groupBy: undefined], so an optional property that is
    present may carry [undefined]. *)
Record Updates : Type := mkUpdates {
  u_id : option string;
  u_name : option string;
  u_type : option string;
  u_children : option (option (list SchemaField));
  u_parent : option (option string);
  u_groupBy : option (option string)
}.

(** [if (s)] for an optional string. *)
Definition given (s : option string) : bool :=
  match s with
  | Some s => negb (String.eqb s "")
  | None => false
  end.

Definition or_else {A} (u : option A) (d : A) : A :=
  match u with Some v => v | None => d end.

(** [updates.type === 'object' || updates.type === 'array'] *)
Definition isContainer (t : option string) : bool :=
  match t with
  | Some t => String.eqb t "object" || String.eqb t "array"
  | None => false
  end.

(** The matching arm of [updateFieldRecursive]. *)
Definition applyUpdates (field : SchemaField) (updates : Updates) : SchemaField :=
  let updatedField :=
    mkField (or_else (u_id updates) (id field)) (or_else (u_name updates) (name field))
            (or_else (u_type updates) (type field))
            (or_else (u_children updates) (children field))
            (or_else (u_parent updates) (parent field))
            (or_else (u_groupBy updates) (groupBy field)) in
  let updatedField :=
    if isContainer (u_type updates)
       && match children updatedField with Some _ => false | None => true end
    then mkField (id updatedField) (name updatedField) (type updatedField) (Some [])
                 (parent updatedField) (groupBy updatedField)
    else updatedField in
  if given (u_type updates) && negb (isContainer (u_type updates))
  then mkField (id updatedField) (name updatedField) (type updatedField) None
               (parent updatedField) None
  else updatedField.

(** The callback of [fieldsArray.map] in [updateFieldRecursive]. *)
Fixpoint updateFieldIn (fieldId : string) (updates : Updates) (field : SchemaField)
  {struct field} : SchemaField :=
  if String.eqb (id field) fieldId then applyUpdates field updates
  else
    match field with
    | mkField i n t (Some cs) p g =>
        mkField i n t (Some (map (updateFieldIn fieldId updates) cs)) p g
    | _ => field
    end.

Definition updateFieldRecursive (fieldId : string) (updates : Updates)
  (fieldsArray : list SchemaField) : list SchemaField :=
  map (updateFieldIn fieldId updates) fieldsArray.

(** [updateField]: the new value of the [fields] state. *)
Definition updateField (fields : list SchemaField) (fieldId : string) (updates : Updates)
  : list SchemaField :=
  updateFieldRecursive fieldId updates fields.

(** A field that the filter of [deleteFieldRecursive] keeps, with its
    children filtered in turn. *)
Fixpoint pruneField (fieldId : string) (field : SchemaField) {struct field} : SchemaField :=
  match field with
  | mkField i n t (Some cs) p g =>
      mkField i n t
        (Some ((fix deleteFieldRecursive (l : list SchemaField) : list SchemaField :=
                  match l with
                  | [] => []
                  | c :: rest =>
                      if String.eqb (id c) fieldId then deleteFieldRecursive rest
                      else pruneField fieldId c :: deleteFieldRecursive rest
                  end) cs))
        p g
  | _ => field
  end.

Fixpoint deleteFieldRecursive (fieldId : string) (fieldsArray : list SchemaField)
  : list SchemaField :=
  match fieldsArray with
  | [] => []
  | field :: rest =>
      if String.eqb (id field) fieldId then deleteFieldRecursive fieldId rest
      else pruneField fieldId field :: deleteFieldRecursive fieldId rest
  end.

(** [deleteField]: the new value of the [fields] state. *)
Definition deleteField (fields : list SchemaField) (fieldId : string) : list SchemaField :=
  deleteFieldRecursive fieldId fields.

(** [addField]; [now] is the text of [Date.now()]. *)
Definition addField (now : string) (fields : list SchemaField) (parentId : option string)
  : list SchemaField :=
  let newField := mkField ("field-" ++ now) "New Field" "string" None parentId None in
  if given parentId then
    map (fun field =>
           if String.eqb (id field) (or_else parentId "") then
             mkField (id field) (name field) (type field)
                     (Some (or_else (children field) [] ++ [newField])%list)
                     (parent field) (groupBy field)
           else field)
        fields
  else (fields ++ [newField])%list.

(** [handleFieldExpansionToggle] on a [Set<string>] in insertion order. *)
Definition handleFieldExpansionToggle (expandedFields : list string) (fieldId : string)
  : list string :=
  if existsb (String.eqb fieldId) expandedFields
  then filter (fun x => negb (String.eqb x fieldId)) expandedFields
  else (expandedFields ++ [fieldId])%list.

(** Every field of a tree, parents before children. *)
Fixpoint fieldsOf (field : SchemaField) : list SchemaField :=
  field :: match field with
           | mkField _ _ _ (Some cs) _ _ => flat_map fieldsOf cs
           | _ => []
           end.

Definition allFields (fields : list SchemaField) : list SchemaField :=
  flat_map fieldsOf fields.

Definition allIds (fields : list SchemaField) : list string := map id (allFields fields).

(** An order with a nested address object. *)
Definition cityField : SchemaField := mkField "f3" "city" "string" None (Some "f2") None.

Definition addressField : SchemaField :=
  mkField "f2" "address" "object" (Some [cityField]) (Some "f1") None.

Definition orderField : SchemaField :=
  mkField "f1" "order" "array" (Some [addressField]) None (Some "city").

Definition typeOnly (t : string) : Updates := mkUpdates None None (Some t) None None None.

(** What the filter of [deleteFieldRecursive] does to a kept field. *)
Definition pruned (fieldId : string) (f : SchemaField) : Prop :=
  id f <> fieldId ->
  ~ In fieldId (map id (fieldsOf (pruneField fieldId f)))
  /\ incl (map id (fieldsOf (pruneField fieldId f))) (map id (fieldsOf f))
  /\ (~ In fieldId (map id (fieldsOf f)) -> pruneField fieldId f = f).

End TargetNode.

(* ================================================================== *)
(** * Part II: properties *)
(* ================================================================== *)

(** ** Objects as association lists *)

Section ObjectLemmas.
Import JS.

Lemma assoc_set_same k v kv : assoc k (set_entry k v kv) = v.
Proof.
  induction kv as [|[k' v'] rest IH]; cbn [set_entry assoc].
  - now rewrite String.eqb_refl.
  - destruct (String.eqb k k') eqn:E; cbn [assoc]; rewrite ?E, ?String.eqb_refl; auto.
Qed.

Lemma assoc_set_other k k' v kv :
  k <> k' -> assoc k (set_entry k' v kv) = assoc k kv.
Proof.
  intros NE. induction kv as [|[k2 v2] rest IH]; cbn [set_entry assoc].
  - destruct (String.eqb_spec k k'); [contradiction|reflexivity].
  - destruct (String.eqb_spec k' k2) as [->|NE2]; cbn [assoc].
    + destruct (String.eqb_spec k k2); [contradiction|reflexivity].
    + now rewrite IH.
Qed.

Lemma get_set_same k v kv : get k (JObj (set_entry k v kv)) = v.
Proof. apply assoc_set_same. Qed.

Lemma get_set_other k k' v kv :
  k <> k' -> get k (JObj (set_entry k' v kv)) = get k (JObj kv).
Proof. apply assoc_set_other. Qed.

End ObjectLemmas.

(** ** reconstructSchemaFields *)

Section SchemaProps.
Import JS Flow NodeImporter.

(** The callback of [fields.map], written with [field.children]. *)
Lemma reconstructSchemaField_eq arrayConfigs field :
  reconstructSchemaField arrayConfigs field =
  match get "children" field with
  | JArr cs =>
      JObj (set_entry "children" (JArr (reconstructSchemaFields cs arrayConfigs))
              (withGroupBy arrayConfigs field))
  | _ => JObj (withGroupBy arrayConfigs field)
  end.
Proof.
  destruct field as [| | | | | |kv]; try reflexivity.
  cbn [reconstructSchemaField get].
  generalize (withGroupBy arrayConfigs (JObj kv)) as r. intros r.
  induction kv as [|[k v] rest IH]; cbn [assoc]; [reflexivity|].
  destruct (String.eqb "children" k); [|exact IH].
  destruct v; reflexivity.
Qed.





End SchemaProps.

(** ** exportExecutionMapping *)

Section ExecExporterProps.
Import JS Flow ExecExporter.

Lemma Forall_flat_map {A B} (P : B -> Prop) (f : A -> list B) (l : list A) :
  (forall x, In x l -> Forall P (f x)) -> Forall P (flat_map f l).
Proof.
  intros H. induction l as [|x l IH]; cbn [flat_map]; [constructor|].
  apply Forall_app. split; [apply H; now left|apply IH; intros y Hy; apply H; now right].
Qed.

Lemma processEdge_logs nodes edges targetField edge :
  Forall (fun e => level e = LLog) (snd (processEdge nodes edges targetField edge)).
Proof.
  unfold processEdge. destruct (find_node nodes (source edge)) as [n|]; [|constructor].
  repeat match goal with
         | |- context [if ?b then _ else _] => destruct b
         | |- context [let '(_, _) := ?p in _] => destruct p
         end; cbn [snd]; repeat constructor.
Qed.

Lemma export_logs nodes edges name :
  Forall (fun e => level e = LLog) (snd (exportExecutionMapping nodes edges name)).
Proof.
  unfold exportExecutionMapping. cbn [snd].
  repeat (apply Forall_cons; [reflexivity|]).
  apply Forall_app. split; [|repeat constructor].
  apply Forall_flat_map. intros r Hr. apply in_map_iff in Hr as (tn & <- & _).
  unfold processTarget. cbn [snd]. apply Forall_cons; [reflexivity|].
  apply Forall_flat_map. intros r Hr. apply in_map_iff in Hr as (tf & <- & _).
  unfold processField. cbn [snd]. apply Forall_cons; [reflexivity|].
  apply Forall_flat_map. intros r Hr. apply in_map_iff in Hr as (e & <- & _).
  apply processEdge_logs.
Qed.

(** Whatever an incoming edge of a target field resolves to is part of the
    exported mappings. *)
Lemma mapping_emitted nodes edges name tn tf e m :
  In tn nodes -> type_is tn "target" = true ->
  In tf (array_or_empty (jor (get "fields" (data tn)) (JArr []))) ->
  In e (incomingEdges edges tn tf) ->
  fst (processEdge nodes edges tf e) = Some m ->
  In m (mappings (fst (exportExecutionMapping nodes edges name))).
Proof.
  intros Htn Hty Htf He Hm. unfold exportExecutionMapping. cbn [fst mappings].
  apply in_flat_map. exists (processTarget nodes edges tn). split.
  - apply in_map, filter_In. now split.
  - unfold processTarget. cbn [fst]. apply in_flat_map.
    exists (processField nodes edges tn tf). split; [now apply in_map|].
    unfold processField. cbn [fst]. apply in_flat_map.
    exists (processEdge nodes edges tf e). split; [now apply in_map|].
    rewrite Hm. now left.
Qed.

Lemma processEdge_unresolvable nodes edges targetField edge sourceNode :
  find_node nodes (source edge) = Some sourceNode ->
  resolvable sourceNode = false ->
  processEdge nodes edges targetField edge = (None, [log "Processing edge from"]).
Proof.
  intros Hf Hr. unfold processEdge. rewrite Hf.
  unfold resolvable in Hr.
  repeat (apply orb_false_elim in Hr; destruct Hr as [Hr ?]).
  repeat match goal with E : type_is _ _ = false |- _ => rewrite E; clear E end.
  reflexivity.
Qed.

(** C7, as stated, fails on "a warning is recorded": an edge from a
    coalesce transform node into a target field is dropped and the console
    receives ordinary log lines only. *)
Lemma C7_no_warning_recorded :
  option_map resolvable (find_node orphanNodes "c1") = Some false
  /\ mappings (fst (exportExecutionMapping orphanNodes orphanEdges "m")) = []
  /\ existsb is_warning (snd (exportExecutionMapping orphanNodes orphanEdges "m")) = false
  /\ map message (snd (exportExecutionMapping orphanNodes orphanEdges "m"))
     = ["=== GENERATING EXECUTION MAPPINGS ==="; "Processing nodes:"; "Target nodes:";
        "Processing target node:"; "Target field has incoming edges";
        "Processing edge from"; "=== FINAL EXECUTION CONFIG ==="; ""].
Proof. repeat split. Qed.

(** C7 (amended): an edge into a target field whose origin node is of none
    of the types source, staticValue, ifThen, conversionMapping emits no
    mapping and writes one ordinary log line; the export records no
    warning at all, always returns a configuration, and every mapping that
    any incoming edge of any target field resolves to is in the result. *)
Theorem C7_unresolvable_origin_dropped
  (nodes : list Node) (edges : list Edge) (name : string)
  (targetField : JSON) (edge : Edge) (sourceNode : Node) :
  find_node nodes (source edge) = Some sourceNode ->
  resolvable sourceNode = false ->
  processEdge nodes edges targetField edge = (None, [log "Processing edge from"])
  /\ Forall (fun e => is_warning e = false) (snd (exportExecutionMapping nodes edges name))
  /\ (forall tn tf e m,
        In tn nodes -> type_is tn "target" = true ->
        In tf (array_or_empty (jor (get "fields" (data tn)) (JArr []))) ->
        In e (incomingEdges edges tn tf) ->
        fst (processEdge nodes edges tf e) = Some m ->
        In m (mappings (fst (exportExecutionMapping nodes edges name)))).
Proof.
  intros Hf Hr. split; [now apply processEdge_unresolvable with sourceNode|]. split.
  - eapply Forall_impl; [|apply export_logs].
    intros e He. unfold is_warning. now rewrite He.
  - intros tn tf e m. apply mapping_emitted.
Qed.

Lemma C7_unresolvable_origin_dropped_witness :
  processEdge orphanNodes orphanEdges (JObj [("id", JStr "f1"); ("name", JStr "total")])
    (mkEdge "e1" "c1" "t1" (HStr "output") (HStr "f1"))
  = (None, [log "Processing edge from"]).
Proof.
  refine (proj1 (C7_unresolvable_origin_dropped orphanNodes orphanEdges "m" _ _
                   (mkNode "c1" (Some "transform") JUndef
                      (JObj [("label", JStr "Coalesce"); ("transformType", JStr "coalesce")]))
                   _ _)); reflexivity.
Defined.

(** C10: an edge from a source-type node whose sourceHandle matches no
    field id of that node is resolved to a mapping of type direct whose
    from is the raw handle, or the empty string when the handle is absent;
    the mapping is part of the export and only ordinary log lines are
    written for the edge. *)
Theorem C10_direct_fallback_to_handle
  (nodes : list Node) (edges : list Edge) (name : string)
  (targetNode : Node) (targetField : JSON) (edge : Edge) (sourceNode : Node) :
  In targetNode nodes -> type_is targetNode "target" = true ->
  In targetField (array_or_empty (jor (get "fields" (data targetNode)) (JArr []))) ->
  In edge edges -> target edge = id targetNode ->
  strict_eq (hjson (targetHandle edge)) (get "id" targetField) = true ->
  find_node nodes (source edge) = Some sourceNode ->
  type_is sourceNode "source" = true ->
  (forall fs f, get "fields" (data sourceNode) = JArr fs -> In f fs ->
                strict_eq (get "id" f) (hjson (sourceHandle edge)) = false) ->
  let mapping := JObj [("from", JStr (handle_or (sourceHandle edge) ""));
                       ("to", get "name" targetField);
                       ("type", JStr "direct")] in
  processEdge nodes edges targetField edge
  = (Some mapping, [log "Processing edge from"; log "Generated mapping:"])
  /\ In mapping (mappings (fst (exportExecutionMapping nodes edges name))).
Proof.
  intros Htn Hty Htf He Het Heh Hf Hs Hno mapping.
  assert (Hp : processEdge nodes edges targetField edge
               = (Some mapping, [log "Processing edge from"; log "Generated mapping:"])).
  { unfold processEdge. rewrite Hf, Hs.
    assert (Hn : get "name" (find_field (get "fields" (data sourceNode)) (sourceHandle edge))
                 = JUndef).
    { unfold find_field. destruct (get "fields" (data sourceNode)) as [| | | | |fs|] eqn:E;
        try reflexivity.
      unfold find_or_undef. destruct (find _ fs) as [f|] eqn:F; [|reflexivity].
      apply find_some in F as [Hin Hid]. now rewrite (Hno fs f eq_refl Hin) in Hid. }
    rewrite Hn. unfold mapping. repeat f_equal.
    destruct (sourceHandle edge) as [| |h]; try reflexivity.
    unfold jor, handle_or. cbn [hjson truthy].
    now destruct (String.eqb h ""). }
  split; [exact Hp|].
  apply mapping_emitted with targetNode targetField edge; try assumption.
  - apply filter_In. split; [assumption|]. now rewrite Het, String.eqb_refl, Heh.
  - now rewrite Hp.
Qed.

Lemma C10_direct_fallback_to_handle_witness :
  In (JObj [("from", JStr "orders.amount"); ("to", JStr "total"); ("type", JStr "direct")])
     (mappings (fst (exportExecutionMapping [danglingSource; danglingTarget]
                                            [danglingEdge] "m"))).
Proof.
  refine (proj2 (C10_direct_fallback_to_handle
                   [danglingSource; danglingTarget] [danglingEdge] "m"
                   danglingTarget
                   (JObj [("id", JStr "f1"); ("name", JStr "total"); ("type", JStr "string")])
                   danglingEdge danglingSource _ _ _ _ _ _ _ _ _)).
  - right; left; reflexivity.
  - reflexivity.
  - left; reflexivity.
  - left; reflexivity.
  - reflexivity.
  - reflexivity.
  - reflexivity.
  - reflexivity.
  - intros fs f H. injection H as <-. intros [<-|[]]. reflexivity.
Defined.

End ExecExporterProps.

(** ** convertMappingsToCanvas *)

Section AiToCanvasProps.
Import JS AiToCanvas.

(** C6: the concat example of the prompt yields four nodes (the target
    node comes first, as the loop adds it before dispatching on the mapping
    type) and the three edges source_Roepnaam -> concat_fullname,
    source_Achternaam -> concat_fullname, concat_fullname -> target_fullname. *)
Theorem C6_concat_example :
  let '(ns, es) := convertMappingsToCanvas [exampleConcat] in
  List.length ns = 4%nat
  /\ map id ns = ["target_fullname"; "source_Roepnaam"; "source_Achternaam"; "concat_fullname"]
  /\ Permutation (map id ns)
       ["source_Roepnaam"; "source_Achternaam"; "concat_fullname"; "target_fullname"]
  /\ map (fun e => (from e, to e)) es =
       [("source_Roepnaam", "concat_fullname");
        ("source_Achternaam", "concat_fullname");
        ("concat_fullname", "target_fullname")].
Proof.
  cbv. repeat split.
  apply (Permutation_cons_append [_; _; _]).
Qed.

(** C5, as stated, fails: a lone skip entry (or a lone entry of an unknown
    type) still produces one node, the target node of its target_field. *)
Lemma C5_skip_adds_target_node :
  skipped skipX = true /\ skipped unknownX = true
  /\ convertMappingsToCanvas [] = ([], [])
  /\ convertMappingsToCanvas [skipX] = ([targetNode "x"], [])
  /\ convertMappingsToCanvas [unknownX] = ([targetNode "x"], []).
Proof. repeat split. Qed.

Lemma has_app s x y : has (s ++ [y])%list x = has s x || String.eqb x y.
Proof. unfold has. rewrite existsb_app. simpl. now rewrite orb_false_r. Qed.

Lemma has_add s x y : has (add s y) x = has s x || String.eqb x y.
Proof.
  unfold add. destruct (has s y) eqn:E.
  - destruct (String.eqb_spec x y) as [->|]; now rewrite ?E, ?orb_false_r.
  - apply has_app.
Qed.

Lemma others_app t a b : others t (a ++ b)%list = (others t a ++ others t b)%list.
Proof. apply filter_app. Qed.

Lemma sim_push_node t n st st' :
  sim t st st' -> sim t (push_node n st) (push_node n st').
Proof.
  intros [He Hn Ha Ht]. unfold push_node.
  destruct (String.eqb_spec (id n) t) as [E|NE].
  - rewrite E, Ht.
    destruct (has (addedNodeIds st) t) eqn:Hs; constructor; simpl; auto.
    + rewrite others_app. simpl. rewrite E, String.eqb_refl. simpl.
      now rewrite app_nil_r.
    + intros x Hx. rewrite has_add, Ha by assumption.
      destruct (String.eqb_spec x t); [contradiction|now rewrite orb_false_r].
  - rewrite (Ha _ NE).
    destruct (has (addedNodeIds st) (id n)) eqn:Hs; constructor; simpl; auto.
    + rewrite !others_app. now rewrite Hn.
    + intros x Hx. rewrite !has_add. now rewrite Ha.
    + rewrite has_add, Ht. reflexivity.
Qed.

Lemma sim_push_edge t e st st' :
  sim t st st' -> sim t (push_edge e st) (push_edge e st').
Proof. intros [He Hn Ha Ht]. constructor; simpl; auto. now rewrite He. Qed.

Lemma sim_warn_l t msg st st' : sim t st st' -> sim t (warn msg st) st'.
Proof. intros [He Hn Ha Ht]. constructor; simpl; auto. Qed.

Lemma sim_warn_r t msg st st' : sim t st st' -> sim t st (warn msg st').
Proof. intros [He Hn Ha Ht]. constructor; simpl; auto. Qed.

Lemma sim_concat_loop t nodeId fields : forall st st',
  sim t st st' ->
  sim t
    (fold_left (fun st field =>
                  let '(from, st) := addSource field st in
                  push_edge (CEdge "edge" from nodeId) st) fields st)
    (fold_left (fun st field =>
                  let '(from, st) := addSource field st in
                  push_edge (CEdge "edge" from nodeId) st) fields st').
Proof.
  induction fields as [|f fs IH]; intros st st' H; simpl; [assumption|].
  apply IH. now apply sim_push_edge, sim_push_node.
Qed.

Lemma sim_step t m st st' : sim t st st' -> sim t (step st m) (step st' m).
Proof.
  intros H. unfold step, finish, addSource.
  repeat match goal with
         | |- context [String.eqb (mapping_type m) ?s] =>
             destruct (String.eqb (mapping_type m) s)
         end;
    repeat first [ apply sim_push_edge | apply sim_push_node
                 | apply sim_concat_loop | apply sim_warn_l, sim_warn_r ];
    assumption.
Qed.

Lemma sim_fold t ms : forall st st',
  sim t st st' -> sim t (fold_left step ms st) (fold_left step ms st').
Proof.
  induction ms as [|m ms IH]; intros st st' H; simpl; [assumption|].
  now apply IH, sim_step.
Qed.

(** A skipped entry only runs the target-node prologue of the loop body. *)
Lemma step_skipped st m :
  skipped m = true ->
  nodes (step st m) = nodes (push_node (targetNode (target_field m)) st)
  /\ edges (step st m) = edges st
  /\ addedNodeIds (step st m) = addedNodeIds (push_node (targetNode (target_field m)) st).
Proof.
  unfold skipped. rewrite negb_true_iff. simpl. intros H.
  repeat (apply orb_false_elim in H; destruct H as [? H]).
  unfold step.
  repeat match goal with
         | E : String.eqb _ _ = false |- _ => rewrite E; clear E
         end.
  destruct (String.eqb (mapping_type m) "skip"); simpl;
    (split; [|split]); try reflexivity;
    unfold push_node; destruct (has _ _); reflexivity.
Qed.

Lemma sim_skipped st m :
  skipped m = true -> sim ("target_" ++ target_field m) st (step st m).
Proof.
  intros Hs. destruct (step_skipped st m Hs) as (Hn & He & Ha).
  set (t := "target_" ++ target_field m) in *.
  unfold push_node in Hn, Ha.
  change (id (targetNode (target_field m))) with t in Hn, Ha.
  destruct (has (addedNodeIds st) t) eqn:E; cbn [nodes addedNodeIds] in Hn, Ha;
    constructor; rewrite ?Hn, ?He, ?Ha; auto.
  - rewrite others_app. cbn [others filter]. change (id (targetNode (target_field m))) with t.
    rewrite String.eqb_refl. cbn [negb]. now rewrite app_nil_r.
  - intros x Hx. rewrite has_add.
    destruct (String.eqb_spec x t); [contradiction|apply orb_false_r].
  - rewrite has_add, String.eqb_refl. apply orb_true_r.
Qed.

Lemma inv_push_node n st :
  (forall x, id n = "target_" ++ x -> n = targetNode x) ->
  target_inv st -> target_inv (push_node n st).
Proof.
  intros Hn Hinv x. unfold push_node.
  destruct (has (addedNodeIds st) (id n)) eqn:E; [apply Hinv|].
  cbn [nodes addedNodeIds]. rewrite has_add. intros H.
  apply in_or_app. apply orb_true_iff in H as [H|H].
  - left. now apply Hinv.
  - right. apply String.eqb_eq in H. left. symmetry in H. now apply Hn.
Qed.

Lemma inv_push_edge e st : target_inv st -> target_inv (push_edge e st).
Proof. exact (fun H => H). Qed.

Lemma inv_warn msg st : target_inv st -> target_inv (warn msg st).
Proof. exact (fun H => H). Qed.

Lemma inv_concat_loop nodeId fields : forall st,
  target_inv st ->
  target_inv
    (fold_left (fun st field =>
                  let '(from, st) := addSource field st in
                  push_edge (CEdge "edge" from nodeId) st) fields st).
Proof.
  induction fields as [|f fs IH]; intros st H; cbn [fold_left]; [assumption|].
  apply IH. unfold addSource. apply inv_push_edge, inv_push_node; [|assumption].
  intros x Hx. discriminate Hx.
Qed.

Lemma inv_step st m : target_inv st -> target_inv (step st m).
Proof.
  intros H. unfold step, finish, addSource.
  repeat match goal with
         | |- context [String.eqb (mapping_type m) ?s] =>
             destruct (String.eqb (mapping_type m) s)
         end;
    repeat first [ apply inv_push_edge | apply inv_warn | apply inv_concat_loop
                 | apply inv_push_node;
                   [ intros x Hx; first [discriminate Hx | cbn in Hx; congruence] | ] ];
    try assumption.
Qed.

Lemma inv_fold ms : forall st, target_inv st -> target_inv (fold_left step ms st).
Proof.
  induction ms as [|m ms IH]; intros st H; cbn [fold_left]; [assumption|].
  now apply IH, inv_step.
Qed.

Lemma inv_run ms : target_inv (run ms).
Proof. apply inv_fold. intros x H. discriminate H. Qed.

Lemma sim_run l1 m l2 :
  skipped m = true ->
  sim ("target_" ++ target_field m) (run (l1 ++ l2)) (run (l1 ++ m :: l2)).
Proof.
  intros Hs. unfold run. rewrite !fold_left_app. cbn [fold_left].
  apply sim_fold, sim_skipped, Hs.
Qed.

(** C5 (amended): an entry whose mapping_type is "skip" or unrecognized
    contributes no edge and no node other than the target node of its own
    target_field, which the loop adds for every entry; all other nodes and
    all edges are those produced without the entry, in the same order. *)
Theorem C5_skipped_entry (l1 l2 : list MappingSuggestion) (m : MappingSuggestion) :
  skipped m = true ->
  let t := "target_" ++ target_field m in
  snd (convertMappingsToCanvas (l1 ++ m :: l2)) = snd (convertMappingsToCanvas (l1 ++ l2))
  /\ others t (fst (convertMappingsToCanvas (l1 ++ m :: l2)))
     = others t (fst (convertMappingsToCanvas (l1 ++ l2)))
  /\ In (targetNode (target_field m)) (fst (convertMappingsToCanvas (l1 ++ m :: l2))).
Proof.
  intros Hs t. destruct (sim_run l1 m l2 Hs) as [He Hn _ Ht].
  unfold convertMappingsToCanvas. cbn [fst snd]. repeat split; try assumption.
  apply inv_run. exact Ht.
Qed.

Lemma C5_skipped_entry_witness :
  skipped skipX = true
  /\ snd (convertMappingsToCanvas ([exampleConcat] ++ skipX :: [exampleConcat]))
     = snd (convertMappingsToCanvas ([exampleConcat] ++ [exampleConcat]))
  /\ others "target_x" (fst (convertMappingsToCanvas ([exampleConcat] ++ skipX :: [exampleConcat])))
     = others "target_x" (fst (convertMappingsToCanvas ([exampleConcat] ++ [exampleConcat])))
  /\ In (targetNode "x") (fst (convertMappingsToCanvas ([exampleConcat] ++ skipX :: [exampleConcat]))).
Proof.
  split; [reflexivity|].
  exact (C5_skipped_entry [exampleConcat] [exampleConcat] skipX eq_refl).
Defined.

End AiToCanvasProps.

(** ** handleImportMapping: auto-expansion *)

Section PipelineProps.
Import JS Flow Pipeline.

Lemma analyseEdge_no_handle st edge :
  hasHandle edge = false ->
  analyseEdge st edge
  = (fst st, (snd st ++ [Console LLog "Edge";
                         Console LLog "Edge has no sourceHandle - skipping"])%list).
Proof.
  destruct st as [m c]. unfold hasHandle, analyseEdge. cbn [fst snd].
  destruct (sourceHandle edge) as [| |h]; intros H;
    try (now rewrite <- app_assoc).
  apply negb_false_iff in H. rewrite H. now rewrite <- app_assoc.
Qed.

(** C9: for the handle items[2].address.city the cleaned parent paths are
    exactly items and items.address; they are recorded under the edge's
    source node and handed to that source node as its initial expansion.
    An edge without a sourceHandle leaves the expansion map as it is and
    adds a log line; the remaining edges are analysed as usual. *)
Theorem C9_expansion_of_indexed_path :
  parentPaths "items[2].address.city" = ["items"; "items.address"]
  /\ fst (sourceFieldsToExpand [cityEdge]) = [("orders", ["items"; "items.address"])]
  /\ map (fun n => get "initialExpandedFields" (data n)) (enhancedNodes [ordersNode] [cityEdge])
     = [JArr [JStr "items"; JStr "items.address"]]
  /\ (forall st edge,
        hasHandle edge = false ->
        fst (analyseEdge st edge) = fst st
        /\ snd (analyseEdge st edge)
           = (snd st ++ [Console LLog "Edge";
                         Console LLog "Edge has no sourceHandle - skipping"])%list)
  /\ (forall before edge after,
        hasHandle edge = false ->
        fst (sourceFieldsToExpand (before ++ edge :: after))
        = fst (sourceFieldsToExpand (before ++ after))).
Proof.
  split; [reflexivity|]. split; [reflexivity|]. split; [reflexivity|]. split.
  - intros st edge H. now rewrite analyseEdge_no_handle.
  - intros before edge after H. unfold sourceFieldsToExpand.
    rewrite !fold_left_app. cbn [fold_left]. rewrite (analyseEdge_no_handle _ _ H).
    generalize (fold_left analyseEdge before ([], [])). intros [m c]. cbn [fst snd].
    generalize (c ++ [Console LLog "Edge";
                      Console LLog "Edge has no sourceHandle - skipping"])%list.
    revert m c. induction after as [|e es IH]; intros m c c'; [reflexivity|].
    cbn [fold_left].
    assert (E : fst (analyseEdge (m, c') e) = fst (analyseEdge (m, c) e)).
    { unfold analyseEdge. destruct (sourceHandle e) as [| |h]; try reflexivity.
      destruct (String.eqb h ""); reflexivity. }
    destruct (analyseEdge (m, c') e) as [m1 c1], (analyseEdge (m, c) e) as [m2 c2].
    cbn [fst] in E. subst m2. apply IH.
Qed.

End PipelineProps.

(** ** The edge function: extraction of the mapping list *)

Section AiFunctionProps.
Import JS AiToCanvas AiFunction.
Local Open Scope Z_scope.

Lemma get_lt n : forall s c, String.get n s = Some c -> (n < String.length s)%nat.
Proof.
  induction n as [|n IH]; intros [|x s] c H; cbn in *; try discriminate; try lia.
  apply IH in H. lia.
Qed.

Lemma indexOfFrom_spec c : forall s o,
  (indexOfFrom c s o = -1 /\ forall n, String.get n s <> Some c)
  \/ (exists n, indexOfFrom c s o = o + Z.of_nat n
                /\ String.get n s = Some c
                /\ forall m, (m < n)%nat -> String.get m s <> Some c).
Proof.
  induction s as [|x s IH]; intros o; cbn [indexOfFrom].
  - left. split; [reflexivity|]. intros n. destruct n; discriminate.
  - destruct (Ascii.eqb_spec x c) as [->|NE].
    + right. exists 0%nat. split; [lia|]. split; [reflexivity|]. intros m Hm. lia.
    + destruct (IH (o + 1)) as [[E H]|(n & E & Hn & Hm)].
      * left. split; [exact E|]. intros [|n]; cbn; [congruence|apply H].
      * right. exists (S n). split; [lia|]. split; [exact Hn|].
        intros [|m] Hlt; cbn; [congruence|apply Hm; lia].
Qed.

Lemma lastIndexOfFrom_spec c : forall s o found,
  (lastIndexOfFrom c s o found = found /\ forall n, String.get n s <> Some c)
  \/ (exists n, lastIndexOfFrom c s o found = o + Z.of_nat n
                /\ String.get n s = Some c
                /\ forall m, (n < m)%nat -> String.get m s <> Some c).
Proof.
  induction s as [|x s IH]; intros o found; cbn [lastIndexOfFrom].
  - left. split; [reflexivity|]. intros n. destruct n; discriminate.
  - destruct (IH (o + 1) (if Ascii.eqb x c then o else found))
      as [[E H]|(n & E & Hn & Hm)].
    + destruct (Ascii.eqb_spec x c) as [->|NE].
      * right. exists 0%nat. split; [lia|]. split; [reflexivity|].
        intros [|m] Hlt; [lia|]. cbn. apply H.
      * left. split; [exact E|]. intros [|n]; cbn; [congruence|apply H].
    + right. exists (S n). split; [lia|]. split; [exact Hn|].
      intros [|m] Hlt; [lia|]. cbn. apply Hm. lia.
Qed.

Lemma substring_one n : forall s c,
  String.get n s = Some c -> substring n 1 s = String c "".
Proof.
  induction n as [|n IH]; intros [|x s] c H; cbn in *; try discriminate.
  - injection H as ->. now destruct s.
  - now apply IH.
Qed.

Lemma jsonString_bracketed raw i j :
  indexOf "[" raw = i -> lastIndexOf "]" raw = j -> 0 <= i <= j ->
  jsonString raw = substring (Z.to_nat i) (Z.to_nat (j - i + 1)) raw
  /\ String.get (Z.to_nat i) raw = Some "["%char
  /\ String.get (Z.to_nat j) raw = Some "]"%char
  /\ (forall m, (m < Z.to_nat i)%nat -> String.get m raw <> Some "["%char)
  /\ (forall m, (Z.to_nat j < m)%nat -> String.get m raw <> Some "]"%char).
Proof.
  intros Hi Hj Hij. unfold indexOf in Hi. unfold lastIndexOf in Hj.
  destruct (indexOfFrom_spec "[" raw 0) as [[E _]|(n & E & Hn & Hbefore)]; [lia|].
  destruct (lastIndexOfFrom_spec "]" raw 0 (-1)) as [[E' _]|(k & E' & Hk & Hafter)]; [lia|].
  assert (Hi' : Z.to_nat i = n) by lia. assert (Hj' : Z.to_nat j = k) by lia.
  rewrite Hi', Hj'. repeat split; try assumption.
  pose proof (get_lt _ _ _ Hk) as Hlen.
  unfold jsonString, indexOf, lastIndexOf, slice. rewrite E, E'. cbv beta zeta.
  replace (0 + Z.of_nat n <? 0) with false by (symmetry; apply Z.ltb_ge; lia).
  replace (0 + Z.of_nat k + 1 <? 0) with false by (symmetry; apply Z.ltb_ge; lia).
  rewrite !Z.min_l by lia.
  replace (0 + Z.of_nat n <? 0 + Z.of_nat k + 1) with true by (symmetry; apply Z.ltb_lt; lia).
  f_equal; lia.
Qed.

Lemma slice_to_zero s start : slice s start 0 = "".
Proof.
  unfold slice. pose proof (Nat2Z.is_nonneg (String.length s)) as Hlen.
  cbv beta zeta. change (0 <? 0) with false. cbv iota.
  rewrite (Z.min_l 0) by lia.
  match goal with
  | |- (if ?c then _ else _) = _ => replace c with false; [reflexivity|]
  end.
  symmetry. apply Z.ltb_ge. destruct (Z.ltb_spec start 0); lia.
Qed.

Lemma jsonString_unbracketed raw :
  indexOf "[" raw = -1 \/ lastIndexOf "]" raw = -1 ->
  jsonString raw = "" \/ jsonString raw = "]".
Proof.
  intros H. unfold jsonString.
  destruct (Z.eq_dec (lastIndexOf "]" raw) (-1)) as [Hl|Hl].
  - left. rewrite Hl. apply slice_to_zero.
  - destruct H as [Hf|Hc]; [|contradiction]. rewrite Hf.
    unfold lastIndexOf in *.
    destruct (lastIndexOfFrom_spec "]" raw 0 (-1)) as [[E' _]|(k & E' & Hk & Hafter)];
      [contradiction|].
    pose proof (get_lt _ _ _ Hk) as Hlen. rewrite E'. unfold slice.
    cbv beta zeta. change (-1 <? 0) with true. cbv iota.
    replace (0 + Z.of_nat k + 1 <? 0) with false by (symmetry; apply Z.ltb_ge; lia).
    rewrite (Z.min_l (0 + Z.of_nat k + 1)) by lia. rewrite Z.max_l by lia.
    destruct (Z.of_nat (String.length raw) + -1 <? 0 + Z.of_nat k + 1) eqn:Hlt; [|now left].
    right. apply Z.ltb_lt in Hlt.
    replace (Z.to_nat (Z.of_nat (String.length raw) + -1)) with k by lia.
    replace (Z.to_nat (0 + Z.of_nat k + 1 - (Z.of_nat (String.length raw) + -1)))
      with 1%nat by lia.
    now apply substring_one.
Qed.

Lemma indexOfFrom_first c pre rest : forall o,
  occurs c pre = false ->
  indexOfFrom c (pre ++ String c rest) o = o + Z.of_nat (String.length pre).
Proof.
  induction pre as [|x pre IH]; intros o H; cbn [append indexOfFrom String.length].
  - rewrite Ascii.eqb_refl. lia.
  - cbn [occurs] in H. apply orb_false_elim in H as [Hx H]. rewrite Hx, IH by assumption. lia.
Qed.

Lemma lastIndexOfFrom_none c s : forall o found,
  occurs c s = false -> lastIndexOfFrom c s o found = found.
Proof.
  induction s as [|x s IH]; intros o found H; cbn [lastIndexOfFrom]; [reflexivity|].
  cbn [occurs] in H. apply orb_false_elim in H as [Hx H]. now rewrite Hx, IH.
Qed.

Lemma lastIndexOfFrom_last c x post : forall o found,
  occurs c post = false ->
  lastIndexOfFrom c (x ++ String c post) o found = o + Z.of_nat (String.length x).
Proof.
  induction x as [|y x IH]; intros o found H; cbn [append lastIndexOfFrom String.length].
  - rewrite Ascii.eqb_refl, lastIndexOfFrom_none by assumption. lia.
  - rewrite IH by assumption. lia.
Qed.

Lemma occurs_append c a b : occurs c (a ++ b) = occurs c a || occurs c b.
Proof.
  induction a as [|x a IH]; [reflexivity|]. cbn [append occurs]. now rewrite IH, orb_assoc.
Qed.

Lemma length_append' a b : String.length (a ++ b) = (String.length a + String.length b)%nat.
Proof. induction a as [|x a IH]; [reflexivity|]. cbn [append String.length]. now rewrite IH. Qed.

Lemma substring_middle pre mid post :
  substring (String.length pre) (String.length mid) (pre ++ mid ++ post) = mid.
Proof.
  induction pre as [|x pre IH]; cbn [String.length append].
  - induction mid as [|y mid IHm]; cbn [String.length append].
    + now destruct post.
    + cbn [substring]. now rewrite IHm.
  - cbn [substring]. exact IH.
Qed.

Lemma append_assoc' a b c : (a ++ b) ++ c = a ++ b ++ c.
Proof. induction a as [|x a IH]; [reflexivity|]. cbn [append]. now rewrite IH. Qed.

(** The text between the first opening and the last closing bracket. *)
Lemma jsonString_extract pre body post :
  occurs "[" pre = false -> occurs "]" post = false ->
  jsonString (pre ++ "[" ++ body ++ "]" ++ post) = "[" ++ body ++ "]".
Proof.
  intros Hpre Hpost.
  set (mid := "[" ++ body ++ "]").
  assert (Eraw : pre ++ "[" ++ body ++ "]" ++ post = pre ++ mid ++ post).
  { unfold mid. now rewrite !append_assoc'. }
  assert (Hi : indexOf "[" (pre ++ mid ++ post) = Z.of_nat (String.length pre)).
  { unfold indexOf, mid. cbn [append]. now rewrite indexOfFrom_first. }
  assert (Hj : lastIndexOf "]" (pre ++ mid ++ post)
               = Z.of_nat (String.length pre + S (String.length body))).
  { unfold lastIndexOf.
    replace (pre ++ mid ++ post) with ((pre ++ "[" ++ body) ++ String "]" post).
    - rewrite lastIndexOfFrom_last by assumption. rewrite length_append'.
      cbn [append String.length]. reflexivity.
    - unfold mid. now rewrite !append_assoc'. }
  assert (Hmid : String.length mid = S (S (String.length body))).
  { unfold mid. cbn [append String.length]. rewrite length_append'. cbn [String.length]. lia. }
  assert (Hlen : String.length (pre ++ mid ++ post)
                 = (String.length pre + (String.length mid + String.length post))%nat)
    by now rewrite !length_append'.
  rewrite Eraw. unfold jsonString, slice. rewrite Hi, Hj. cbv beta zeta.
  replace (Z.of_nat (String.length pre) <? 0) with false by (symmetry; apply Z.ltb_ge; lia).
  replace (Z.of_nat (String.length pre + S (String.length body)) + 1 <? 0) with false
    by (symmetry; apply Z.ltb_ge; lia).
  rewrite !Z.min_l by lia.
  replace (Z.of_nat (String.length pre)
           <? Z.of_nat (String.length pre + S (String.length body)) + 1)
    with true by (symmetry; apply Z.ltb_lt; lia).
  replace (Z.to_nat (Z.of_nat (String.length pre))) with (String.length pre) by lia.
  replace (Z.to_nat (Z.of_nat (String.length pre + S (String.length body)) + 1
                     - Z.of_nat (String.length pre)))
    with (String.length mid) by lia.
  apply substring_middle.
Qed.

Lemma first_occurrence c s :
  occurs c s = true -> exists pre rest, s = pre ++ String c rest /\ occurs c pre = false.
Proof.
  induction s as [|x s IH]; cbn [occurs]; [discriminate|].
  destruct (Ascii.eqb_spec x c) as [->|NE]; cbn [orb].
  - intros _. now exists "", s.
  - intros H. destruct (IH H) as (pre & rest & -> & Hpre).
    exists (String x pre), rest. split; [reflexivity|]. cbn [occurs].
    apply Ascii.eqb_neq in NE. now rewrite NE.
Qed.

Lemma last_occurrence c s :
  occurs c s = true -> exists x post, s = x ++ String c post /\ occurs c post = false.
Proof.
  induction s as [|y s IH]; cbn [occurs]; [discriminate|].
  destruct (occurs c s) eqn:Hs.
  - intros _. destruct (IH eq_refl) as (x & post & -> & Hpost).
    now exists (String y x), post.
  - rewrite orb_false_r. intros H. apply Ascii.eqb_eq in H. subst y. now exists "", s.
Qed.

(** Every answer has its first opening bracket before its last closing
    bracket, or all its closing brackets before all its opening ones. *)
Lemma answer_shapes raw :
  (exists pre body post,
      raw = pre ++ "[" ++ body ++ "]" ++ post
      /\ occurs "[" pre = false /\ occurs "]" post = false)
  \/ (exists a b, raw = a ++ b /\ occurs "[" a = false /\ occurs "]" b = false).
Proof.
  destruct (occurs "[" raw) eqn:Ho.
  - destruct (first_occurrence _ _ Ho) as (pre & rest & -> & Hpre).
    destruct (occurs "]" rest) eqn:Hc.
    + left. destruct (last_occurrence _ _ Hc) as (body & post & -> & Hpost).
      now exists pre, body, post.
    + right. exists pre, (String "[" rest). repeat split; [assumption|].
      cbn [occurs]. now rewrite Hc.
  - right. exists raw, "". repeat split; [|assumption].
    clear. induction raw as [|x raw IH]; [reflexivity|]. cbn [append]. now rewrite <- IH.
Qed.

Lemma indexOfFrom_none c s : forall o, occurs c s = false -> indexOfFrom c s o = -1.
Proof.
  induction s as [|x s IH]; intros o H; cbn [indexOfFrom]; [reflexivity|].
  cbn [occurs] in H. apply orb_false_elim in H as [Hx H]. now rewrite Hx, IH.
Qed.

Lemma slice_empty s start stop : 0 <= stop <= start -> slice s start stop = "".
Proof.
  intros H. unfold slice. cbv beta zeta.
  replace (start <? 0) with false by (symmetry; apply Z.ltb_ge; lia).
  replace (stop <? 0) with false by (symmetry; apply Z.ltb_ge; lia).
  match goal with
  | |- (if ?c then _ else _) = _ => replace c with false; [reflexivity|]
  end.
  symmetry. apply Z.ltb_ge. lia.
Qed.

(** Without an opening bracket before a closing one there is nothing to
    parse but the empty text or a lone closing bracket. *)
Lemma jsonString_missing a b :
  occurs "[" a = false -> occurs "]" b = false ->
  jsonString (a ++ b) = "" \/ jsonString (a ++ b) = "]".
Proof.
  intros Ha Hb.
  destruct (occurs "[" (a ++ b)) eqn:Ho.
  2:{ apply jsonString_unbracketed. left. unfold indexOf. now apply indexOfFrom_none. }
  destruct (occurs "]" (a ++ b)) eqn:Hc.
  2:{ apply jsonString_unbracketed. right. unfold lastIndexOf.
      now apply lastIndexOfFrom_none. }
  left. rewrite occurs_append, Ha in Ho. rewrite occurs_append, Hb, orb_false_r in Hc.
  cbn [orb] in Ho.
  destruct (first_occurrence _ _ Ho) as (p & r & -> & Hp).
  destruct (last_occurrence _ _ Hc) as (x & q & -> & Hq).
  assert (Hi : indexOf "[" ((x ++ String "]" q) ++ p ++ String "[" r)
               = Z.of_nat (String.length ((x ++ String "]" q) ++ p))).
  { unfold indexOf. rewrite <- append_assoc'.
    rewrite indexOfFrom_first; [lia|]. now rewrite occurs_append, Ha, Hp. }
  assert (Hj : lastIndexOf "]" ((x ++ String "]" q) ++ p ++ String "[" r)
               = Z.of_nat (String.length x)).
  { unfold lastIndexOf. rewrite append_assoc'. cbn [append].
    rewrite lastIndexOfFrom_last; [lia|]. now rewrite occurs_append, Hq, Hb. }
  unfold jsonString. rewrite Hi, Hj. apply slice_empty.
  rewrite !length_append'. cbn [String.length]. lia.
Qed.

Lemma joinText_strings sep fields :
  joinText sep (map JStr fields) = inr (String.concat sep fields).
Proof.
  induction fields as [|f fields IH]; [reflexivity|].
  cbn [map joinText text toStr bind String.concat].
  destruct fields as [|g fields]; [reflexivity|].
  cbn [map] in *. rewrite IH. reflexivity.
Qed.

Lemma sources_of_strings nodeId fields : forall st,
  fold_left (fun acc field =>
               bind acc (fun st =>
               bind (addSourceOf field st) (fun fs =>
               inr (push_edge (CEdge "edge" (fst fs) nodeId) (snd fs)))))
            (map JStr fields) (inr st)
  = inr (fold_left (fun st field =>
                      let '(from, st) := addSource field st in
                      push_edge (CEdge "edge" from nodeId) st)
                   fields st).
Proof.
  induction fields as [|f fields IH]; intros st; [reflexivity|].
  cbn [map fold_left]. cbn [bind addSourceOf text toStr fst snd]. apply IH.
Qed.

(** On a well-typed suggestion the iteration on the parsed value is the
    iteration of [convertMappingsToCanvas]. *)
Lemma stepParsed_encode st m : stepParsed st (encode m) = inr (step st m).
Proof.
  destruct m as [tf mt sf v cs tb fmt sfs sep dl ix].
  unfold stepParsed, step, encode, addSource, targetNode, sourceNode.
  cbn [target_field mapping_type source_field value conditions table format
       source_fields separator delimiter index].
  cbn [get assoc String.eqb Ascii.eqb Bool.eqb is_str text toStr bind addSourceOf fst snd].
  destruct (String.eqb mt "direct"); [reflexivity|].
  destruct (String.eqb mt "static"); [reflexivity|].
  destruct (String.eqb mt "conditional"); [reflexivity|].
  destruct (String.eqb mt "table"); [reflexivity|].
  destruct (String.eqb mt "date_conversion"); [reflexivity|].
  destruct (String.eqb mt "concat").
  - rewrite joinText_strings. cbn [bind].
    rewrite sources_of_strings. cbn [bind]. now destruct sep.
  - destruct (String.eqb mt "split"); [reflexivity|].
    destruct (String.eqb mt "skip"); reflexivity.
Qed.

Lemma convertParsed_encode ms :
  convertParsed (JArr (map encode ms)) = inr (convertMappingsToCanvas ms).
Proof.
  unfold convertParsed, convertMappingsToCanvas, run, iterate. cbn [bind].
  assert (F : forall st,
            fold_left (fun acc m => bind acc (fun st => stepParsed st m))
                      (map encode ms) (inr st)
            = inr (fold_left step ms st)).
  { induction ms as [|m ms IH]; intros st; [reflexivity|].
    cbn [map fold_left bind]. rewrite stepParsed_encode. apply IH. }
  now rewrite F.
Qed.

Lemma thrown_stays {A} (f : State -> A -> Failure + State) l e :
  fold_left (fun acc m => bind acc (fun st => f st m)) l (inl e) = inl e.
Proof. induction l as [|x l IH]; [reflexivity|]. cbn [fold_left bind]. exact IH. Qed.

(** A null among the elements makes the conversion throw. *)
Lemma convertParsed_null l :
  In JNull l -> exists failure, convertParsed (JArr l) = inl failure.
Proof.
  intros H. unfold convertParsed, iterate. cbn [bind].
  assert (F : forall acc, exists failure,
            fold_left (fun acc m => bind acc (fun st => stepParsed st m)) l acc
            = inl failure).
  { induction l as [|x l IH]; [destruct H|]. intros acc. cbn [fold_left].
    destruct H as [->|H]; [|now apply IH].
    destruct acc as [e|st]; cbn [bind stepParsed]; eexists; apply thrown_stays. }
  destruct (F (inr init)) as [failure ->]. now exists failure.
Qed.

(** C8: the text handed to JSON.parse is the part of the answer from its
    first opening bracket to its last closing bracket, brackets included.
    When JSON.parse throws on that text, the request ends in the single
    error response that carries the message, and no mapping list.  An
    answer in which no opening bracket stands before a closing one (none
    of either kind, or all closing brackets first) leaves only the empty
    text or a lone closing bracket, which JSON.parse rejects, so it ends
    the same way; every answer is of one of the two shapes.  When
    JSON.parse returns a well-typed suggestion list, the response carries
    that list and the laid-out canvas of convertMappingsToCanvas; a parsed
    array with a null element makes the conversion throw, which is
    answered with the error response as well. *)
Theorem C8_oracle_answer
  (parse : string -> string + JSON) (message : Failure -> string) :
  (forall s, s = "" \/ s = "]" -> exists thrown, parse s = inl thrown) ->
  (forall pre body post,
      occurs "[" pre = false -> occurs "]" post = false ->
      let raw := pre ++ "[" ++ body ++ "]" ++ post in
      jsonString raw = "[" ++ body ++ "]"
      /\ (forall thrown, parse ("[" ++ body ++ "]") = inl thrown ->
                         respond parse message raw = Error500 thrown)
      /\ (forall ms, parse ("[" ++ body ++ "]") = inr (JArr (map encode ms)) ->
                     respond parse message raw
                     = Ok200 (JArr (map encode ms))
                             (applyTemplate (convertMappingsToCanvas ms)))
      /\ (forall l, parse ("[" ++ body ++ "]") = inr (JArr l) -> In JNull l ->
                    exists failure, respond parse message raw = Error500 (message failure)))
  /\ (forall a b,
        occurs "[" a = false -> occurs "]" b = false ->
        (jsonString (a ++ b) = "" \/ jsonString (a ++ b) = "]")
        /\ exists thrown, respond parse message (a ++ b) = Error500 thrown)
  /\ (forall raw,
        (exists pre body post,
            raw = pre ++ "[" ++ body ++ "]" ++ post
            /\ occurs "[" pre = false /\ occurs "]" post = false)
        \/ (exists a b, raw = a ++ b /\ occurs "[" a = false /\ occurs "]" b = false)).
Proof.
  intros Hparse. split; [|split; [|exact answer_shapes]].
  - intros pre body post Hpre Hpost raw.
    pose proof (jsonString_extract pre body post Hpre Hpost) as E. fold raw in E.
    split; [exact E|]. unfold respond. rewrite E. repeat split.
    + intros thrown ->. reflexivity.
    + intros ms ->. now rewrite convertParsed_encode.
    + intros l -> Hnull. destruct (convertParsed_null l Hnull) as [failure ->].
      now exists failure.
  - intros a b Ha Hb. pose proof (jsonString_missing a b Ha Hb) as E.
    split; [exact E|]. destruct (Hparse _ E) as [thrown P].
    exists thrown. unfold respond. now rewrite P.
Qed.

Lemma C8_oracle_answer_witness :
  jsonString "Here is the mapping: [] Let me know." = "[]"
  /\ respond parseSample messageSample "Here is the mapping: [] Let me know."
     = Ok200 (JArr []) ([], [])
  /\ (exists failure,
        respond parseSample messageSample "Sure: [null]" = Error500 (messageSample failure))
  /\ respond parseSample messageSample "See [the list, attached"
     = Error500 "Unexpected token"
  /\ exists thrown,
       respond parseSample messageSample "I could not find ] a mapping [." = Error500 thrown.
Proof.
  assert (H : forall s, s = "" \/ s = "]" -> exists thrown, parseSample s = inl thrown)
    by (intros s [->| ->]; eexists; reflexivity).
  destruct (C8_oracle_answer parseSample messageSample H) as (Hin & Hout & _).
  destruct (Hin "Here is the mapping: " "" " Let me know." eq_refl eq_refl)
    as (E1 & _ & Hok & _).
  destruct (Hin "Sure: " "null" "" eq_refl eq_refl) as (_ & _ & _ & Hnull).
  split; [exact E1|]. split; [exact (Hok [] eq_refl)|].
  split; [apply (Hnull [JNull] eq_refl); now left|].
  split; [reflexivity|].
  exact (proj2 (Hout "I could not find ] a mapping " "[." eq_refl eq_refl)).
Defined.

End AiFunctionProps.

(** ** The versioning store *)

Section MappingServiceProps.
Import JS Flow MappingService.

Lemma update_active_id b p db :
  (forall r, In r db -> p r = false) -> update_active b p db = db.
Proof.
  intros H. unfold update_active. induction db as [|r db IH]; [reflexivity|].
  cbn [map]. rewrite (H r) by now left. f_equal. apply IH. intros r' Hr'. apply H. now right.
Qed.

Lemma activeInGroup_deactivated u g db :
  activeInGroup u g (update_active false (inGroup u g) db) = [].
Proof.
  unfold activeInGroup, update_active, inGroup.
  induction db as [|r db IH]; [reflexivity|]. cbn [map filter].
  destruct (String.eqb (user_id r) u && col_eq (mapping_group_id r) g) eqn:E.
  - cbn [set_active user_id mapping_group_id is_active]. rewrite E. exact IH.
  - rewrite E. exact IH.
Qed.

Lemma fresh_not_inGroup u g db :
  (forall r, In r db -> mapping_group_id r <> Some g) ->
  forall r, In r db -> inGroup u g r = false.
Proof.
  intros H r Hr. unfold inGroup, col_eq. specialize (H r Hr).
  destruct (mapping_group_id r) as [x|]; [|apply andb_false_r].
  destruct (String.eqb_spec x g) as [->|]; [congruence|apply andb_false_r].
Qed.

Lemma activeInGroup_after_insert u g db data :
  user_id data = u -> mapping_group_id data = Some g -> is_active data = true ->
  activeInGroup u g (update_active false (inGroup u g) db ++ [data])%list = [data].
Proof.
  intros Hu Hg Ha. unfold activeInGroup. rewrite filter_app.
  fold (activeInGroup u g (update_active false (inGroup u g) db)).
  rewrite activeInGroup_deactivated. cbn [filter app].
  now rewrite Hu, Hg, Ha, String.eqb_refl; cbn [col_eq]; rewrite String.eqb_refl.
Qed.

Lemma findExisting_in env db u n e :
  findExisting env db u n = Some e ->
  In e db /\ user_id e = u /\ MappingService.name e = n /\ is_active e = true.
Proof.
  unfold findExisting. destruct (existing_query_ok env); [|discriminate].
  destruct (filter _ db) as [|x [|y rest]] eqn:F; try discriminate. intros [= ->].
  assert (H : In e (filter (fun r => String.eqb (user_id r) u
                                     && String.eqb (MappingService.name r) n
                                     && is_active r) db)) by (rewrite F; now left).
  apply filter_In in H as [Hin Hp]. apply andb_true_iff in Hp as [Hp Ha].
  apply andb_true_iff in Hp as [Hu Hn]. apply String.eqb_eq in Hu, Hn. now repeat split.
Qed.

Lemma deactivated_in u g db r :
  In r db -> user_id r = u -> mapping_group_id r = Some g ->
  In (set_active false r) (update_active false (inGroup u g) db).
Proof.
  intros Hin Hu Hg. unfold update_active. apply in_map_iff. exists r. split; [|assumption].
  unfold inGroup. rewrite Hu, Hg. cbn [col_eq]. now rewrite !String.eqb_refl.
Qed.

(** C2: when saveMapping succeeds, the table is the old one with every
    record of the caller's (user, mapping_group_id) partition deactivated,
    followed by the new record, which is the only active record of that
    partition.  The partition is the group of the active mapping that the
    call found under the name (the generated id when it found none, or
    one without a group id): the record found, which was active, and
    every other record of its group are in the table with is_active =
    false.  When the deactivation statement reports an error the call
    throws and the table is left as it was: nothing is inserted.
    [randomUUID] is assumed to return an id that no record carries. *)
Theorem C2_save_leaves_one_active (env : SaveEnv) (db : Table) (a : SaveArgs) :
  (forall r, In r db -> mapping_group_id r <> Some (randomUUID env)) ->
  (forall saved db',
      saveMapping env db a = (inr saved, db') ->
      exists g,
        mapping_group_id saved = Some g
        /\ user_id saved = a_userId a
        /\ is_active saved = true
        /\ db' = (update_active false (inGroup (a_userId a) g) db ++ [saved])%list
        /\ activeInGroup (a_userId a) g db' = [saved]
        /\ g = match findExisting env db (a_userId a) (a_name a) with
               | Some e => opt_or (mapping_group_id e) (randomUUID env)
               | None => randomUUID env
               end
        /\ (forall e g0,
              findExisting env db (a_userId a) (a_name a) = Some e ->
              mapping_group_id e = Some g0 -> g0 <> "" ->
              g = g0
              /\ In e db /\ is_active e = true
              /\ In (set_active false e) db'
              /\ forall r, In r db -> user_id r = a_userId a ->
                           mapping_group_id r = Some g0 ->
                           In (set_active false r) db'))
  /\ (forall e message,
        a_userId a <> "" ->
        findExisting env db (a_userId a) (a_name a) = Some e ->
        deactivate_error env = Some message ->
        exists err, saveMapping env db a = (inl err, db)).
Proof.
  intros Hfresh. split.
  - intros saved db' H. unfold saveMapping in H.
    destruct (String.eqb (a_userId a) ""); [discriminate|].
    destruct (findExisting env db (a_userId a) (a_name a)) as [e|] eqn:Ex.
    + cbv iota in H.
      destruct (if present (a_providedVersion a) then _ else _) as [m|v]; [discriminate|].
      destruct (deactivate_error env); [discriminate|].
      destruct (insert_error env); [discriminate|].
      injection H as <- <-.
      exists (opt_or (mapping_group_id e) (randomUUID env)).
      cbn [mapping_group_id user_id is_active].
      split; [reflexivity|]. split; [reflexivity|]. split; [reflexivity|].
      split; [reflexivity|]. split; [now apply activeInGroup_after_insert|].
      split; [reflexivity|].
      intros e' g0 [= <-] Hg Hne.
      assert (G : opt_or (mapping_group_id e) (randomUUID env) = g0).
      { rewrite Hg. cbn [opt_or]. apply String.eqb_neq in Hne. now rewrite Hne. }
      rewrite G. destruct (findExisting_in _ _ _ _ _ Ex) as (Hin & Hu & _ & Ha).
      split; [reflexivity|]. split; [assumption|]. split; [assumption|]. split.
      * apply in_or_app. left. now apply deactivated_in.
      * intros r Hr Hru Hrg. apply in_or_app. left. now apply deactivated_in.
    + destruct (conflict_query_ok env && _); [discriminate|].
      destruct (if present (a_providedVersion a) then _ else _) as [m|v]; [discriminate|].
      destruct (insert_error env); [discriminate|].
      injection H as <- <-.
      exists (randomUUID env).
      cbn [mapping_group_id user_id is_active opt_or].
      split; [reflexivity|]. split; [reflexivity|]. split; [reflexivity|]. split.
      * now rewrite (update_active_id false _ db (fresh_not_inGroup _ _ db Hfresh)).
      * split.
        -- rewrite <- (update_active_id false _ db
                         (fresh_not_inGroup (a_userId a) _ db Hfresh)) at 1.
           now apply activeInGroup_after_insert.
        -- split; [reflexivity|]. intros e g0 [=].
  - intros e message Hu Ex Hd. unfold saveMapping.
    apply String.eqb_neq in Hu. rewrite Hu, Ex, Hd. cbv iota.
    destruct (if present (a_providedVersion a) then _ else _) as [m|v]; eexists; reflexivity.
Qed.

Lemma C2_save_leaves_one_active_witness :
  exists saved db',
    saveMapping saveEnv1 [generalV1] saveArgs1 = (inr saved, db')
    /\ mapping_group_id saved = mapping_group_id generalV1
    /\ In (set_active false generalV1) db'
    /\ activeInGroup "u1" "g1" db' = [saved].
Proof.
  eexists. eexists. split; [reflexivity|].
  destruct (proj1 (C2_save_leaves_one_active saveEnv1 [generalV1] saveArgs1
                     ltac:(intros r [<-|[]]; discriminate)) _ _ eq_refl)
    as (g & Hg & _ & _ & _ & Hone & _ & Hex).
  destruct (Hex generalV1 "g1" eq_refl eq_refl ltac:(discriminate)) as (-> & _ & _ & Hoff & _).
  split; [exact Hg|]. split; [exact Hoff|exact Hone].
Defined.

Lemma categoryFilter_sql category r :
  categoryFilter category r = true <-> MappingService.category r = sqlCategory category.
Proof.
  unfold categoryFilter, sqlCategory.
  destruct category as [c|]; cbn [present opt_or].
  - destruct (String.eqb_spec c "") as [->|NE]; cbn [negb].
    + destruct (MappingService.category r); split; congruence.
    + unfold col_eq. destruct (MappingService.category r) as [x|]; [|split; congruence].
      destruct (String.eqb_spec x c); split; congruence.
  - destruct (MappingService.category r); split; congruence.
Qed.

(** C3: the code at the failing input.  saveMapping stores the empty
    string as category when it is passed one; for a group stored that
    way, with v1 active, activateVersion on v2 with the group's name and
    category '' takes the branch for an absent category, compares with
    NULL, deactivates nothing, and leaves v1 and v2 both active. *)
Lemma C3_empty_category_stays_active :
  option_map MappingService.category
    (match fst (saveMapping saveEnv1 []
                  (mkSaveArgs "orders" [] [] "u1" "" None None JUndef None "JsonToJson")) with
     | inr saved => Some saved
     | inl _ => None
     end) = Some (Some "")
  /\ is_active blankV1 = true /\ is_active blankV2 = false
  /\ activateVersion noFault [blankV1; blankV2] "id2" "u1" "orders" (Some "")
     = (inr tt, [blankV1; set_active true blankV2])
  /\ activeInGroup "u1" "g1"
       (snd (activateVersion noFault [blankV1; blankV2] "id2" "u1" "orders" (Some "")))
     = [blankV1; set_active true blankV2].
Proof. repeat split. Qed.

(** For a group whose records all carry the given name and whose stored
    category is the one that the deactivation looks for, activateVersion
    succeeds and leaves active exactly the records of the group with the
    targeted id: a version v1 with another id ends with is_active =
    false, the targeted version v2 with is_active = true. *)
Lemma activateVersion_switches
  (db : Table) (id u name g : string) (category : option string) :
  u <> "" ->
  (forall r, In r db -> user_id r = u -> mapping_group_id r = Some g ->
             MappingService.name r = name
             /\ MappingService.category r = sqlCategory category) ->
  activateVersion noFault db id u name category
  = (inr tt,
     update_active true
       (fun r => String.eqb (MappingService.id r) id && String.eqb (user_id r) u)
       (update_active false
          (fun r => String.eqb (user_id r) u && String.eqb (MappingService.name r) name
                    && categoryFilter category r) db))
  /\ (forall r, categoryFilter category r = true
                <-> MappingService.category r = sqlCategory category)
  /\ (forall r', In r' (snd (activateVersion noFault db id u name category)) ->
                 user_id r' = u -> mapping_group_id r' = Some g ->
                 (is_active r' = true <-> MappingService.id r' = id))
  /\ (forall v1 v2, In v1 db -> In v2 db ->
                    user_id v1 = u -> mapping_group_id v1 = Some g ->
                    user_id v2 = u -> mapping_group_id v2 = Some g ->
                    MappingService.id v2 = id -> MappingService.id v1 <> id ->
                    In (set_active false v1) (snd (activateVersion noFault db id u name category))
                    /\ In (set_active true v2) (snd (activateVersion noFault db id u name category))).
Proof.
  intros Hu Hgroup.
  assert (Hrun : activateVersion noFault db id u name category
                 = (inr tt,
                    update_active true
                      (fun r => String.eqb (MappingService.id r) id && String.eqb (user_id r) u)
                      (update_active false
                         (fun r => String.eqb (user_id r) u
                                   && String.eqb (MappingService.name r) name
                                   && categoryFilter category r) db))).
  { unfold activateVersion. apply String.eqb_neq in Hu. now rewrite Hu. }
  assert (Hstep : forall r, In r db -> user_id r = u -> mapping_group_id r = Some g ->
            (if String.eqb (MappingService.id (set_active false r)) id
                && String.eqb (user_id (set_active false r)) u
             then set_active true (set_active false r) else set_active false r)
            = set_active (String.eqb (MappingService.id r) id) r).
  { intros r Hr Hru Hrg. cbn [set_active MappingService.id user_id].
    rewrite Hru, String.eqb_refl, andb_true_r.
    destruct (String.eqb (MappingService.id r) id); reflexivity. }
  assert (Hrow : forall r, In r db -> user_id r = u -> mapping_group_id r = Some g ->
            In (set_active (String.eqb (MappingService.id r) id) r)
               (snd (activateVersion noFault db id u name category))).
  { intros r Hr Hru Hrg. rewrite Hrun. cbn [snd]. unfold update_active. rewrite map_map.
    apply in_map_iff. exists r. split; [|assumption].
    destruct (Hgroup r Hr Hru Hrg) as [Hn Hc].
    apply categoryFilter_sql in Hc.
    rewrite Hru, Hn, Hc, !String.eqb_refl. cbn [andb]. now apply Hstep. }
  split; [exact Hrun|]. split; [apply categoryFilter_sql|]. split.
  - intros r' Hin Hru Hrg. rewrite Hrun in Hin. cbn [snd] in Hin.
    unfold update_active in Hin. rewrite map_map in Hin.
    apply in_map_iff in Hin as (r & <- & Hr).
    assert (Hr_u : user_id r = u).
    { revert Hru.
      repeat match goal with |- context [if ?b then _ else _] => destruct b end;
        exact (fun H => H). }
    assert (Hr_g : mapping_group_id r = Some g).
    { revert Hrg.
      repeat match goal with |- context [if ?b then _ else _] => destruct b end;
        exact (fun H => H). }
    destruct (Hgroup r Hr Hr_u Hr_g) as [Hn Hc]. apply categoryFilter_sql in Hc.
    rewrite Hr_u, Hn, Hc, !String.eqb_refl. cbn [andb].
    rewrite (Hstep r Hr Hr_u Hr_g).
    cbn [set_active is_active MappingService.id].
    destruct (String.eqb_spec (MappingService.id r) id) as [E|E]; split; intros H;
      first [assumption | reflexivity | discriminate | contradiction].
  - intros v1 v2 H1 H2 Hu1 Hg1 Hu2 Hg2 Hid2 Hid1. split.
    + apply String.eqb_neq in Hid1. rewrite <- Hid1. now apply Hrow.
    + apply String.eqb_eq in Hid2. rewrite <- Hid2. now apply Hrow.
Qed.

Lemma activateVersion_switches_example :
  In (set_active false generalV1)
     (snd (activateVersion noFault [generalV1; generalV2] "id2" "u1" "orders" (Some "General")))
  /\ In (set_active true generalV2)
        (snd (activateVersion noFault [generalV1; generalV2] "id2" "u1" "orders" (Some "General"))).
Proof.
  refine (proj2 (proj2 (proj2
            (activateVersion_switches [generalV1; generalV2] "id2" "u1" "orders" "g1"
               (Some "General") _ _)))
            generalV1 generalV2 _ _ _ _ _ _ _ _);
    try reflexivity; try discriminate.
  - intros r [<-|[<-|[]]] _ _; split; reflexivity.
  - left; reflexivity.
  - right; left; reflexivity.
Defined.

End MappingServiceProps.

(** ** Export followed by import *)

Section RoundTripProps.
Import JS Flow UIExporter NodeImporter ConfigImporter RoundTrip.

(** Induction on values, with the hypothesis available for the elements of
    an array and for the values of an object. *)
Lemma JSON_nested_ind (P : JSON -> Prop) :
  P JUndef -> P JNull -> (forall b, P (JBool b)) -> (forall z, P (JNum z)) ->
  (forall s, P (JStr s)) ->
  (forall l, Forall P l -> P (JArr l)) ->
  (forall kv, Forall (fun e => P (snd e)) kv -> P (JObj kv)) ->
  forall v, P v.
Proof.
  intros Hu Hn Hb Hz Hs Ha Ho.
  refine (fix go (v : JSON) : P v := _).
  destruct v as [| |b|z|s|l|kv];
    [exact Hu|exact Hn|apply Hb|apply Hz|apply Hs| | ].
  - apply Ha. induction l as [|x l IH]; constructor; [apply go|exact IH].
  - apply Ho. induction kv as [|[k x] kv IH]; constructor; [apply go|exact IH].
Qed.

Lemma set_entry_present k v kv :
  assoc k kv = v -> v <> JUndef -> set_entry k v kv = kv.
Proof.
  induction kv as [|[k' v'] rest IH]; cbn [assoc set_entry]; intros H NE.
  - symmetry in H. contradiction.
  - destruct (String.eqb_spec k k') as [->|NEk]; [now subst|].
    f_equal. now apply IH.
Qed.

Lemma assoc_in k kv : In k (map fst kv) -> In (k, assoc k kv) kv.
Proof.
  induction kv as [|[k' v'] rest IH]; cbn [map fst assoc In]; [tauto|].
  destruct (String.eqb_spec k k') as [->|NE]; [now left|].
  intros [E|H]; [symmetry in E; contradiction|right; now apply IH].
Qed.

Lemma assoc_obj_entries_notin k ents : forall base,
  ~ In k (map fst ents) -> assoc k (obj_entries base ents) = assoc k base.
Proof.
  unfold obj_entries.
  induction ents as [|[k' v'] rest IH]; intros base H; cbn [fold_left fst snd]; [reflexivity|].
  cbn [map fst In] in H. rewrite IH by tauto.
  apply assoc_set_other. intros ->. tauto.
Qed.

Lemma assoc_obj_entries_in k v ents : forall base,
  NoDup (map fst ents) -> In (k, v) ents -> assoc k (obj_entries base ents) = v.
Proof.
  unfold obj_entries.
  induction ents as [|[k' v'] rest IH]; intros base ND H; [destruct H|].
  cbn [fold_left fst snd]. cbn [map fst] in ND. inversion ND as [|? ? Hnotin ND']; subst.
  destruct H as [E|H].
  - injection E as -> ->.
    change (fold_left _ rest ?b) with (obj_entries b rest).
    rewrite assoc_obj_entries_notin by assumption. apply assoc_set_same.
  - now apply IH.
Qed.

(** With the first [children] entry an array, a well-formed object has
    well-formed children. *)
Lemma wf_children kv cs :
  wf_field (JObj kv) = true -> assoc "children" kv = JArr cs -> forallb wf_field cs = true.
Proof.
  cbn [wf_field]. induction kv as [|[k v] rest IH]; cbn [assoc]; [discriminate|].
  intros Hwf Hc. apply andb_true_iff in Hwf as [Hhead Hrest].
  destruct (String.eqb "children" k); [|now apply IH].
  subst v. exact Hhead.
Qed.

Lemma reconstruct_without_configs :
  forall f,
    (wf_field f = true -> reconstructSchemaField None f = f)
    /\ (forall cs, f = JArr cs -> forallb wf_field cs = true ->
                   reconstructSchemaFields cs None = cs).
Proof.
  induction f as [| |b|z|s|l IH|kv IH] using JSON_nested_ind;
    (split; [try discriminate|try discriminate]).
  - intros cs E Hwf. injection E as <-. unfold reconstructSchemaFields.
    induction l as [|x l IHl]; [reflexivity|].
    cbn [forallb] in Hwf. apply andb_true_iff in Hwf as [Hx Hl].
    inversion IH as [|? ? [Px _] IH']; subst. cbn [map]. f_equal; [now apply Px|now apply IHl].
  - intros Hwf. rewrite reconstructSchemaField_eq. cbn [withGroupBy own_entries get].
    destruct (assoc "children" kv) as [| | | | |cs|] eqn:Hc; try reflexivity.
    assert (Hin : In ("children", JArr cs) kv).
    { rewrite <- Hc. apply assoc_in.
      clear -Hc. induction kv as [|[k v] rest IHk]; cbn [assoc] in Hc; [discriminate|].
      cbn [map fst In]. destruct (String.eqb_spec "children" k); [now left|right; now apply IHk]. }
    rewrite Forall_forall in IH. destruct (IH _ Hin) as [_ Pcs]. cbn [snd] in Pcs.
    rewrite (Pcs cs eq_refl (wf_children kv cs Hwf Hc)).
    f_equal. apply set_entry_present; [assumption|discriminate].
Qed.

Lemma reconstructSchemaFields_wf fields :
  forallb wf_field fields = true -> reconstructSchemaFields fields None = fields.
Proof. intros H. exact (proj2 (reconstruct_without_configs (JArr fields)) fields eq_refl H). Qed.

Lemma type_is_eq n s : type_is n s = true -> type n = Some s.
Proof.
  unfold type_is. destruct (type n) as [t|]; [|discriminate].
  intros H. apply String.eqb_eq in H. now subst.
Qed.

(** Discharges a premise about the kind of [n] that contradicts what is
    known of its type. *)
Ltac wrong_kind :=
  let H := fresh in
  intros H; exfalso;
  repeat match goal with
         | E : type _ = Some _ |- _ =>
             unfold isGeneric in *; unfold isBasicNode, isCoalesce in *;
             unfold type_is in *; rewrite E in *; clear E
         end;
  cbn in *; first [discriminate | congruence].

Lemma restored_source n :
  type_is n "source" = true -> restored n (importSourceNode (exportSource n)).
Proof.
  intros Hs. apply type_is_eq in Hs.
  constructor; cbn [importSourceNode exportSource Flow.id position type data
                    SourceNodeConfig.id SourceNodeConfig.position
                    SourceNodeConfig.schema_fields];
    try reflexivity; try wrong_kind.
  intros _. now rewrite Hs.
Qed.

Lemma restored_target n :
  type_is n "target" = true -> restored n (importTargetNode (exportTarget n) None).
Proof.
  intros Hs. apply type_is_eq in Hs.
  constructor; cbn [importTargetNode exportTarget Flow.id position type data
                    TargetNodeConfig.id TargetNodeConfig.position
                    TargetNodeConfig.schema_fields];
    try reflexivity; try wrong_kind.
  intros _. rewrite Hs. repeat split.
  intros Hwf. cbn [get assoc String.eqb Ascii.eqb Bool.eqb].
  now rewrite reconstructSchemaFields_wf.
Qed.

Lemma restored_mapping n :
  type_is n "conversionMapping" = true -> restored n (importMappingNode (exportMapping n)).
Proof.
  intros Hs. apply type_is_eq in Hs.
  constructor; cbn [importMappingNode exportMapping Flow.id position type data
                    MappingNodeConfig.id MappingNodeConfig.position
                    MappingNodeConfig.mappings];
    try reflexivity; try wrong_kind.
Qed.

Lemma coalesce_arm n :
  isCoalesce n = true ->
  type_is n "ifThen" = false /\ type_is n "staticValue" = false
  /\ type_is n "splitterTransform" = false.
Proof.
  unfold isCoalesce, type_is. destruct (type n) as [t|]; [|discriminate].
  destruct (String.eqb_spec t "coalesceTransform") as [->|_]; [now repeat split|].
  destruct (String.eqb_spec t "transform") as [->|_]; [now repeat split|discriminate].
Qed.

Lemma jor_default_twice v d : jor (jor v d) d = jor v d.
Proof. unfold jor. destruct (truthy v) eqn:E; [now rewrite E|now destruct (truthy d)]. Qed.

Lemma jor_fallbacks v d : jor (jor v d) (jor (jor v d) (jor JUndef d)) = jor v d.
Proof.
  change (jor JUndef d) with d. unfold jor.
  destruct (truthy v) eqn:E; rewrite ?E; [reflexivity|].
  destruct (truthy d) eqn:E'; rewrite ?E'; reflexivity.
Qed.

Lemma restored_transform n :
  isBasicNode n = false -> restored n (importTransformNode (exportTransform n)).
Proof.
  intros Hb.
  assert (Hns : type_is n "source" = false /\ type_is n "target" = false
                /\ type_is n "conversionMapping" = false).
  { unfold isBasicNode in Hb. apply orb_false_elim in Hb as [Hb Hc].
    apply orb_false_elim in Hb as [Hs Ht]. now repeat split. }
  destruct Hns as (Hs & Ht & Hc).
  unfold importTransformNode, exportTransform.
  cbn [TransformNodeConfig.id TransformNodeConfig.type TransformNodeConfig.position
       TransformNodeConfig.transformType TransformNodeConfig.config
       TransformNodeConfig.nodeData TransformNodeConfig.label].
  destruct (String.eqb (exportedTransformType n) "coalesce") eqn:Ett.
  - constructor; cbn [Flow.id position type data]; try reflexivity;
      try (intros H; rewrite H in *; discriminate).
    + intros _. now rewrite Ett.
    + intros _ [Hne|Hco] k d Hin; [apply String.eqb_eq in Ett; contradiction|].
      destruct (coalesce_arm n Hco) as (E1 & E2 & E3).
      unfold parameterDefaults in Hin. unfold transformPayload.
      rewrite E1, E2, E3, Hco in *. cbn [fst snd app].
      cbn [In] in Hin.
      destruct Hin as [E|[E|[E|[E|[]]]]]; injection E as <- <-;
        cbn [get assoc String.eqb Ascii.eqb Bool.eqb];
        rewrite ?jor_fallbacks, ?jor_default_twice; reflexivity.
    + intros _ Hne. apply String.eqb_eq in Ett. contradiction.
  - constructor; cbn [Flow.id position type data]; try reflexivity;
      try (intros H; rewrite H in *; discriminate).
    + intros _. now rewrite Ett.
    + intros _ _ k d Hin. unfold parameterDefaults in Hin. unfold transformPayload.
      destruct (type_is n "ifThen");
        [|destruct (type_is n "staticValue");
          [|destruct (type_is n "splitterTransform");
            [|destruct (isCoalesce n); [|destruct Hin]]]];
        cbn [In] in Hin;
        repeat (destruct Hin as [Hin|Hin]; [injection Hin as <- <-; reflexivity|]);
        destruct Hin.
    + intros Hg _ kv Hd ND k Hk. unfold isGeneric in Hg. apply negb_true_iff in Hg.
      repeat (apply orb_false_elim in Hg; destruct Hg as [Hg ?]).
      unfold transformPayload.
      repeat match goal with E : _ = false |- _ => rewrite E; clear E end.
      rewrite Hd. cbn [snd truthy own_entries get].
      apply assoc_obj_entries_in; [assumption|now apply assoc_in].
Qed.

Lemma Forall2_filter_map {A B} (R : A -> B -> Prop) (p : A -> bool) (f : A -> B) l :
  (forall x, p x = true -> R x (f x)) -> Forall2 R (filter p l) (map f (filter p l)).
Proof.
  intros H. induction l as [|x l IH]; cbn [filter]; [constructor|].
  destruct (p x) eqn:E; [|exact IH]. cbn [map]. constructor; [now apply H|exact IH].
Qed.

Lemma Forall2_witness {A B} (R : A -> B -> Prop) l l' x :
  Forall2 R l l' -> In x l -> exists y, In y l' /\ R x y.
Proof.
  induction 1 as [|a b l l' Hab _ IH]; intros Hin; [destruct Hin|].
  destruct Hin as [<-|Hin]; [exists b; split; [now left|assumption]|].
  destruct (IH Hin) as (y & Hy & Hr). exists y. split; [now right|assumption].
Qed.

Lemma byCategory_permutation nodes : Permutation nodes (byCategory nodes).
Proof.
  unfold byCategory. induction nodes as [|n nodes IH]; [constructor|].
  cbn [filter]. unfold isBasicNode at 1.
  destruct (type_is n "source") eqn:Es, (type_is n "target") eqn:Et,
           (type_is n "conversionMapping") eqn:Ec;
    try (apply type_is_eq in Es); try (apply type_is_eq in Et);
    try (apply type_is_eq in Ec); try congruence;
    cbn [orb negb].
  - cbn [app]. now apply perm_skip.
  - now apply Permutation_cons_app.
  - rewrite !app_assoc. apply Permutation_cons_app. now rewrite <- !app_assoc.
  - rewrite app_assoc. apply Permutation_cons_app. now rewrite <- app_assoc.
Qed.

(** C1, as stated, fails.  By the normalisation of the exporter: a
    splitter with the empty delimiter comes back with the default comma.
    And apart from that: a conversionMapping node comes back with type
    mapping, so that the execution export of the imported graph no longer
    contains the lookup it contained before; and a node that is no
    coalesce node but carries the transformType coalesce comes back as a
    coalesce transform, without its own parameters. *)
Lemma C1_roundtrip_not_isomorphic :
  ~ graph_iso emptyDelimiterGraph (roundTrip "0" "" noSteps emptyDelimiterGraph)
  /\ ~ graph_iso lookupGraph (roundTrip "0" "" noSteps lookupGraph)
  /\ map (fun n => get "delimiter" (data n)) (fst emptyDelimiterGraph) = [JStr ""]
  /\ map (fun n => get "delimiter" (data n))
         (fst (roundTrip "0" "" noSteps emptyDelimiterGraph)) = [JStr ","]
  /\ map type (fst lookupGraph)
     = [Some "source"; Some "conversionMapping"; Some "target"]
  /\ map type (fst (roundTrip "0" "" noSteps lookupGraph))
     = [Some "source"; Some "target"; Some "mapping"]
  /\ map (get "type")
         (ExecExporter.mappings
            (fst (ExecExporter.exportExecutionMapping
                    (fst lookupGraph) (snd lookupGraph) "m"))) = [JStr "map"]
  /\ ExecExporter.mappings
       (fst (ExecExporter.exportExecutionMapping
               (fst (roundTrip "0" "" noSteps lookupGraph))
               (snd (roundTrip "0" "" noSteps lookupGraph)) "m")) = []
  /\ map (fun n => (type n, get "operator" (data n), get "compareValue" (data n)))
         (fst relabelledGraph) = [(Some "ifThen", JStr ">", JStr "10")]
  /\ map (fun n => (type n, get "operator" (data n), get "compareValue" (data n)))
         (fst (roundTrip "0" "" noSteps relabelledGraph))
     = [(Some "transform", JUndef, JUndef)].
Proof.
  split; [|split; [|repeat split]].
  - intros (rn & re & ns & es & Hn & _ & Hf & _).
    apply Permutation_length_1_inv in Hn. subst ns.
    inversion Hf as [|? ? ? ? [_ [_ Hk]] _]; subst.
    specialize (Hk "delimiter" (or_introl eq_refl)). discriminate Hk.
  - intros (rn & re & ns & es & Hn & _ & Hf & _).
    destruct (Forall2_witness _ _ _ (nth 1 (fst lookupGraph) (mkNode "" None JUndef JUndef))
                Hf (or_intror (or_introl eq_refl))) as (n' & Hin & _ & Hty & _).
    apply (Permutation_in _ (Permutation_sym Hn)) in Hin.
    destruct Hin as [<-|[<-|[<-|[]]]]; discriminate Hty.
Qed.

(** C1 (amended): importing the exported configuration, with no array
    configuration supplied, rebuilds one node per node of the graph, in
    the order sources, targets, transforms, conversion mappings, and
    replays every edge with its id, source and target, a missing handle
    becoming the empty string.  A rebuilt node has the id and position of
    the original.  Source and target nodes keep their type and their
    field tree (a fields value that is no array becomes the empty list;
    the fields of a target pass through reconstructSchemaFields, which
    leaves a tree of field objects as it is); conversion mappings keep
    their table (a value that is no array becomes the empty list); a
    transform keeps
    its type unless its exported transformType (data.transformType, else
    the node type) is coalesce, which is rebuilt as type transform.
    Provided the exported transformType is not coalesce, or the node is a
    coalesce node, the parameters of ifThen, staticValue,
    splitterTransform and coalesce nodes come back as exported, a falsy
    value replaced by its default; provided the exported transformType is
    not coalesce, a node exported through the generic arm keeps every key
    of its data.  Nothing is stated about the parameters of a node that
    is no coalesce node and is exported with the transformType coalesce,
    nor about the type of a conversion mapping. *)
Theorem C1_roundtrip_restores
  (nowMs nowIso : string) (buildExecutionSteps : list Node -> list Edge -> JSON)
  (nodes : list Node) (edges : list Edge) :
  Permutation nodes (byCategory nodes)
  /\ Forall2 restored (byCategory nodes)
       (fst (roundTrip nowMs nowIso buildExecutionSteps (nodes, edges)))
  /\ snd (roundTrip nowMs nowIso buildExecutionSteps (nodes, edges)) = map replayed edges.
Proof.
  split; [apply byCategory_permutation|]. split.
  - unfold roundTrip, importConfiguration, exportUIMappingConfiguration, byCategory.
    cbn [fst snd sources targets transforms mappings]. rewrite !map_map.
    repeat apply Forall2_app; apply Forall2_filter_map.
    + exact restored_source.
    + exact restored_target.
    + intros n Hn. apply restored_transform. now apply negb_true_iff.
    + exact restored_mapping.
  - unfold roundTrip, importConfiguration, exportUIMappingConfiguration.
    cbn [fst snd connections]. rewrite map_map. reflexivity.
Qed.

End RoundTripProps.

(** ** convertMappingsToCanvas: ids, edges and order of the entries *)

Section AiToCanvasMore.
Import JS AiToCanvas AiToCanvasFacts.

Lemma has_in s x : has s x = true <-> In x s.
Proof.
  unfold has. rewrite existsb_exists. split.
  - intros (y & Hy & E). apply String.eqb_eq in E. now subst.
  - intros H. exists x. split; [assumption|apply String.eqb_refl].
Qed.

Lemma has_add_iff s x y : has (add s y) x = true <-> has s x = true \/ x = y.
Proof.
  unfold add. destruct (has s y) eqn:E.
  - split; [now left|]. intros [H| ->]; assumption.
  - rewrite !has_in, in_app_iff. cbn [In]. intuition (subst; auto).
Qed.

Lemma grows_refl st : tracked st -> grows st st [].
Proof. intros H. split; [assumption|]. intros x. cbn [In]. tauto. Qed.

Lemma grows_trans st st' st'' a b :
  grows st st' a -> grows st' st'' b -> grows st st'' (a ++ b)%list.
Proof.
  intros [_ H1] [T H2]. split; [assumption|].
  intros x. rewrite H2, H1, in_app_iff. tauto.
Qed.

Lemma grows_push_node n st : tracked st -> grows st (push_node n st) [id n].
Proof.
  intros [ND HA]. unfold push_node.
  destruct (has (addedNodeIds st) (id n)) eqn:E.
  - split; [now split|]. intros x. cbn [In]. split; [now left|].
    intros [H|[<-|[]]]; [assumption|]. now apply HA.
  - assert (Hid : ids (St (nodes st ++ [n]) (edges st) (add (addedNodeIds st) (id n))
                          (console st)) = (ids st ++ [id n])%list).
    { unfold ids. cbn [nodes]. now rewrite map_app. }
    split; [split|].
    + rewrite Hid. apply NoDup_app; [assumption|repeat constructor; intros []|].
      intros x Hx [<-|[]]. apply HA in Hx. congruence.
    + intros x. rewrite Hid. cbn [addedNodeIds]. rewrite has_add_iff, HA, in_app_iff.
      cbn [In]. intuition (subst; auto).
    + intros x. rewrite Hid, in_app_iff. reflexivity.
Qed.

Lemma grows_push_edge e st : tracked st -> grows st (push_edge e st) [].
Proof. intros [ND HA]. split; [now split|]. intros x. cbn [In]. unfold ids. cbn. tauto. Qed.

Lemma grows_warn msg st : tracked st -> grows st (warn msg st) [].
Proof. intros [ND HA]. split; [now split|]. intros x. cbn [In]. unfold ids. cbn. tauto. Qed.

(** Sequencing of the primitive moves of the loop body. *)
Lemma grows_then st st' st'' a b c :
  grows st st' a -> (tracked st' -> grows st' st'' b) -> c = (a ++ b)%list ->
  grows st st'' c.
Proof.
  intros H1 H2 ->. apply grows_trans with st'; [assumption|]. apply H2. now destruct H1.
Qed.

Lemma grows_concat_loop nodeId fields : forall st,
  tracked st ->
  grows st
    (fold_left (fun st field =>
                  let '(from, st) := addSource field st in
                  push_edge (CEdge "edge" from nodeId) st) fields st)
    (map sourceId fields).
Proof.
  induction fields as [|f fs IH]; intros st T; cbn [fold_left map]; [now apply grows_refl|].
  unfold addSource at 2.
  apply grows_trans with (st' := push_edge (CEdge "edge" ("source_" ++ f) nodeId)
                                   (push_node (sourceNode f) st))
                         (a := [sourceId f]).
  - apply grows_then with (st' := push_node (sourceNode f) st) (a := [sourceId f]) (b := []);
      [apply (grows_push_node (sourceNode f)), T| |reflexivity].
    intros T1. now apply grows_push_edge.
  - apply IH. apply grows_push_edge. apply (grows_push_node (sourceNode f)), T.
Qed.

End AiToCanvasMore.

(** Case analysis on the discriminant, arm by arm as the [switch] does. *)
Ltac by_mapping_type m :=
  let E := fresh "E" in
  destruct (String.eqb_spec (AiToCanvas.mapping_type m) "direct") as [E|_]; [rewrite ?E|
  destruct (String.eqb_spec (AiToCanvas.mapping_type m) "static") as [E|_]; [rewrite ?E|
  destruct (String.eqb_spec (AiToCanvas.mapping_type m) "conditional") as [E|_]; [rewrite ?E|
  destruct (String.eqb_spec (AiToCanvas.mapping_type m) "table") as [E|_]; [rewrite ?E|
  destruct (String.eqb_spec (AiToCanvas.mapping_type m) "date_conversion") as [E|_]; [rewrite ?E|
  destruct (String.eqb_spec (AiToCanvas.mapping_type m) "concat") as [E|_]; [rewrite ?E|
  destruct (String.eqb_spec (AiToCanvas.mapping_type m) "split") as [E|_]; [rewrite ?E|
  destruct (String.eqb_spec (AiToCanvas.mapping_type m) "skip") as [E|_]; [rewrite ?E|]]]]]]]];
  cbn [String.eqb Ascii.eqb Bool.eqb orb andb negb].

Section AiToCanvasSteps.
Import JS AiToCanvas AiToCanvasFacts.

Lemma grows_after_node n st X a :
  grows st X a -> grows st (push_node n X) (a ++ [id n])%list.
Proof.
  intros H. apply grows_trans with X; [assumption|].
  apply grows_push_node. now destruct H.
Qed.

Lemma grows_after_edge e st X a : grows st X a -> grows st (push_edge e X) a.
Proof.
  intros H. rewrite <- (app_nil_r a). apply grows_trans with X; [assumption|].
  apply grows_push_edge. now destruct H.
Qed.

Lemma grows_after_warn msg st X a : grows st X a -> grows st (warn msg X) a.
Proof.
  intros H. rewrite <- (app_nil_r a). apply grows_trans with X; [assumption|].
  apply grows_warn. now destruct H.
Qed.

Lemma grows_after_loop nodeId fields st X a :
  grows st X a ->
  grows st
    (fold_left (fun st field =>
                  let '(from, st) := addSource field st in
                  push_edge (CEdge "edge" from nodeId) st) fields X)
    (a ++ map sourceId fields)%list.
Proof.
  intros H. apply grows_trans with X; [assumption|].
  apply grows_concat_loop. now destruct H.
Qed.

Lemma grows_equiv st st' a b :
  grows st st' a -> (forall x, In x a <-> In x b) -> grows st st' b.
Proof.
  intros [T H] E. split; [assumption|]. intros x. rewrite H, E. reflexivity.
Qed.

Lemma step_grows st m : tracked st -> grows st (step st m) (idsOf m).
Proof.
  intros T. unfold step, idsOf, sourcesOf, transformIdOf, finish, addSource.
  by_mapping_type m;
    (eapply grows_equiv;
     [ repeat first [ eapply grows_after_edge | eapply grows_after_node
                    | eapply grows_after_loop | eapply grows_after_warn ];
       apply grows_refl, T
     | intros x; cbn [id targetNode sourceNode map app]; rewrite ?in_app_iff;
       cbn [In map app]; unfold sourceId; rewrite ?in_app_iff; cbn [In]; tauto ]).
Qed.

Lemma edges_push_node n st : edges (push_node n st) = edges st.
Proof. unfold push_node. now destruct (has _ _). Qed.

Lemma edges_concat_loop nodeId fields : forall st,
  edges (fold_left (fun st field =>
                      let '(from, st) := addSource field st in
                      push_edge (CEdge "edge" from nodeId) st) fields st)
  = (edges st ++ map (fun f => CEdge "edge" (sourceId f) nodeId) fields)%list.
Proof.
  induction fields as [|f fs IH]; intros st; cbn [fold_left map]; [now rewrite app_nil_r|].
  rewrite IH. unfold addSource. cbn [push_edge edges]. rewrite edges_push_node.
  now rewrite <- app_assoc.
Qed.

Lemma step_edges st m : edges (step st m) = (edges st ++ edgesOf m)%list.
Proof.
  unfold step, edgesOf, sourcesOf, transformIdOf, finish.
  by_mapping_type m;
    cbn [push_edge edges warn flat_map map app];
    rewrite ?edges_push_node, ?edges_concat_loop; unfold addSource, sourceId;
    repeat (progress (cbn [push_edge edges id]; rewrite ?edges_push_node));
    rewrite ?app_nil_r, <- ?app_assoc; reflexivity.
Qed.

Lemma fold_step_edges ms : forall st,
  edges (fold_left step ms st) = (edges st ++ flat_map edgesOf ms)%list.
Proof.
  induction ms as [|m ms IH]; intros st; cbn [fold_left flat_map]; [now rewrite app_nil_r|].
  now rewrite IH, step_edges, <- app_assoc.
Qed.

Lemma fold_step_grows ms : forall st,
  tracked st -> grows st (fold_left step ms st) (flat_map idsOf ms).
Proof.
  induction ms as [|m ms IH]; intros st T; cbn [fold_left flat_map]; [now apply grows_refl|].
  apply grows_trans with (step st m); [now apply step_grows|].
  apply IH. now destruct (step_grows st m T).
Qed.

Lemma tracked_init : tracked init.
Proof. split; [constructor|]. intros x. split; [discriminate|intros []]. Qed.

Lemma edgesOf_closed m e :
  In e (edgesOf m) -> In (from e) (idsOf m) /\ In (to e) (idsOf m).
Proof.
  unfold edgesOf, idsOf.
  destruct (String.eqb (mapping_type m) "direct") eqn:E.
  - intros [<-|[]]. cbn [from to]. split; [|now left].
    right. apply in_or_app. left. unfold sourcesOf. rewrite E. now left.
  - intros H. apply in_flat_map in H as (nodeId & Hn & H).
    apply in_app_or in H as [H|[<-|[]]].
    + apply in_map_iff in H as (f & <- & Hf). cbn [from to]. split; right; apply in_or_app.
      * left. now apply in_map.
      * now right.
    + cbn [from to]. split; [|now left]. right. apply in_or_app. now right.
Qed.

End AiToCanvasSteps.

Section AiToCanvasExtras.
Import JS AiToCanvas AiToCanvasFacts.

Lemma run_ids ms x :
  In x (map id (nodes (run ms))) <-> exists m, In m ms /\ In x (idsOf m).
Proof.
  destruct (fold_step_grows ms init tracked_init) as [_ H].
  unfold run. fold (ids (fold_left step ms init)). rewrite H. cbn [ids init nodes map In].
  rewrite in_flat_map. tauto.
Qed.

(** X1: the nodes that convertMappingsToCanvas returns have pairwise
    distinct ids, whatever the suggestions repeat. *)
Theorem X1_canvas_node_ids_distinct (mappings : list MappingSuggestion) :
  NoDup (map id (fst (convertMappingsToCanvas mappings))).
Proof.
  unfold convertMappingsToCanvas. cbn [fst].
  now destruct (fold_step_grows mappings init tracked_init) as [[ND _] _].
Qed.

(** X2: every edge that convertMappingsToCanvas returns starts and ends at
    a node that it returns. *)
Theorem X2_canvas_edges_closed (mappings : list MappingSuggestion) (e : CanvasEdge) :
  In e (snd (convertMappingsToCanvas mappings)) ->
  In (from e) (map id (fst (convertMappingsToCanvas mappings)))
  /\ In (to e) (map id (fst (convertMappingsToCanvas mappings))).
Proof.
  unfold convertMappingsToCanvas. cbn [fst snd]. unfold run at 1.
  rewrite fold_step_edges. cbn [init edges app]. intros H.
  apply in_flat_map in H as (m & Hm & He).
  destruct (edgesOf_closed m e He) as [Hf Ht].
  split; apply run_ids; exists m; split; assumption.
Qed.

Lemma X2_canvas_edges_closed_witness :
  In "source_Roepnaam" (map id (fst (convertMappingsToCanvas [exampleConcat])))
  /\ In "concat_fullname" (map id (fst (convertMappingsToCanvas [exampleConcat]))).
Proof.
  refine (X2_canvas_edges_closed [exampleConcat]
            (CEdge "edge" "source_Roepnaam" "concat_fullname") _).
  left. reflexivity.
Defined.

(** X3: reordering the suggestions changes neither the set of node ids nor
    the edges, which are only reordered. *)
Theorem X3_canvas_order_independent (mappings mappings' : list MappingSuggestion) :
  Permutation mappings mappings' ->
  (forall x, In x (map id (fst (convertMappingsToCanvas mappings)))
             <-> In x (map id (fst (convertMappingsToCanvas mappings'))))
  /\ Permutation (snd (convertMappingsToCanvas mappings))
                 (snd (convertMappingsToCanvas mappings')).
Proof.
  intros P. unfold convertMappingsToCanvas. cbn [fst snd]. split.
  - intros x. rewrite !run_ids. split; intros (m & Hm & Hx); exists m; split; try assumption.
    + now apply (Permutation_in _ P).
    + now apply (Permutation_in _ (Permutation_sym P)).
  - unfold run. rewrite !fold_step_edges. cbn [init edges app].
    now apply Permutation_flat_map.
Qed.

Lemma X3_canvas_order_independent_witness :
  (forall x, In x (map id (fst (convertMappingsToCanvas [exampleConcat; skipX])))
             <-> In x (map id (fst (convertMappingsToCanvas [skipX; exampleConcat]))))
  /\ Permutation (snd (convertMappingsToCanvas [exampleConcat; skipX]))
                 (snd (convertMappingsToCanvas [skipX; exampleConcat])).
Proof.
  apply (X3_canvas_order_independent [exampleConcat; skipX] [skipX; exampleConcat]).
  apply perm_swap.
Defined.

(** X4: converting a concatenation of two lists gives the edges of the
    first followed by the edges of the second (edges are never merged), and
    the node ids of either. *)
Theorem X4_canvas_of_append (l1 l2 : list MappingSuggestion) :
  snd (convertMappingsToCanvas (l1 ++ l2))
  = (snd (convertMappingsToCanvas l1) ++ snd (convertMappingsToCanvas l2))%list
  /\ forall x, In x (map id (fst (convertMappingsToCanvas (l1 ++ l2))))
               <-> In x (map id (fst (convertMappingsToCanvas l1)))
                   \/ In x (map id (fst (convertMappingsToCanvas l2))).
Proof.
  unfold convertMappingsToCanvas. cbn [fst snd]. split.
  - unfold run. rewrite !fold_step_edges. cbn [init edges app]. apply flat_map_app.
  - intros x. rewrite !run_ids. split.
    + intros (m & Hm & Hx). apply in_app_or in Hm as [Hm|Hm]; [left|right]; now exists m.
    + intros [(m & Hm & Hx)|(m & Hm & Hx)]; exists m; split; try assumption;
        apply in_or_app; [now left|now right].
Qed.

End AiToCanvasExtras.

Section AiToCanvasKnown.
Import JS AiToCanvas AiToCanvasFacts.

Lemma same_after_node n st X :
  same_nodes st X -> has (addedNodeIds st) (id n) = true -> same_nodes st (push_node n X).
Proof.
  intros [Hn Ha] H. unfold push_node. rewrite Ha, H. now split.
Qed.

Lemma same_after_edge e st X : same_nodes st X -> same_nodes st (push_edge e X).
Proof. intros [Hn Ha]. now split. Qed.

Lemma same_after_warn msg st X : same_nodes st X -> same_nodes st (warn msg X).
Proof. intros [Hn Ha]. now split. Qed.

Lemma same_after_loop nodeId fields st : forall X,
  same_nodes st X ->
  (forall f, In f fields -> has (addedNodeIds st) (sourceId f) = true) ->
  same_nodes st
    (fold_left (fun st field =>
                  let '(from, st) := addSource field st in
                  push_edge (CEdge "edge" from nodeId) st) fields X).
Proof.
  induction fields as [|f fs IH]; intros X H Hk; cbn [fold_left]; [assumption|].
  apply IH; [|intros g Hg; apply Hk; now right].
  unfold addSource. apply same_after_edge, same_after_node; [assumption|].
  apply Hk. now left.
Qed.

Lemma step_known st m :
  (forall x, In x (idsOf m) -> has (addedNodeIds st) x = true) ->
  same_nodes st (step st m).
Proof.
  unfold idsOf, sourcesOf, transformIdOf, step, finish, addSource.
  by_mapping_type m; intros Hk;
    repeat first [ apply same_after_edge | apply same_after_warn
                 | apply same_after_loop
                 | apply same_after_node ];
    try (now split);
    try (intros f Hf); apply Hk; cbn [id targetNode sourceNode map app In];
    rewrite ?in_app_iff; cbn [In]; unfold sourceId; auto.
  right. left. now apply in_map.
Qed.

Lemma fold_known ms : forall st,
  (forall m x, In m ms -> In x (idsOf m) -> has (addedNodeIds st) x = true) ->
  nodes (fold_left step ms st) = nodes st.
Proof.
  induction ms as [|m ms IH]; intros st Hk; cbn [fold_left]; [reflexivity|].
  destruct (step_known st m (fun x Hx => Hk m x (or_introl eq_refl) Hx)) as [Hn Ha].
  rewrite IH, Hn; [reflexivity|].
  intros m' x Hm Hx. rewrite Ha. apply (Hk m' x); [now right|assumption].
Qed.

(** X5: suggestions whose target, source and transform ids were all
    produced by the suggestions before them add no node. *)
Theorem X5_canvas_known_fields_add_no_node (l1 l2 : list MappingSuggestion) :
  (forall m x, In m l2 -> In x (idsOf m) ->
               In x (map id (fst (convertMappingsToCanvas l1)))) ->
  fst (convertMappingsToCanvas (l1 ++ l2)) = fst (convertMappingsToCanvas l1).
Proof.
  intros Hk. unfold convertMappingsToCanvas, run in *. cbn [fst] in *.
  rewrite fold_left_app. apply fold_known. intros m x Hm Hx.
  destruct (fold_step_grows l1 init tracked_init) as [[_ HA] _].
  apply HA. now apply (Hk m).
Qed.

Lemma X5_canvas_known_fields_add_no_node_witness :
  fst (convertMappingsToCanvas ([exampleConcat] ++ [exampleConcat]))
  = fst (convertMappingsToCanvas [exampleConcat]).
Proof.
  apply X5_canvas_known_fields_add_no_node.
  intros m x [<-|[]] Hx. cbn in Hx. cbn.
  repeat (destruct Hx as [Hx|Hx]; [subst x; auto 6|]). destruct Hx.
Defined.

End AiToCanvasKnown.

(** ** calculateLayout and applyTemplate *)

Section LayoutProps.
Import JS AiToCanvas AiToCanvasFacts AiFunction LayoutFacts.
Local Open Scope Z_scope.

Lemma lookup_place x L i n k :
  lookupLayout (place x L (i, n)) k
  = if String.eqb k (id n) then (x, 100 + Z.of_nat i * 120) else lookupLayout L k.
Proof.
  unfold place, lookupLayout.
  induction L as [|[k0 p0] rest IH]; cbn [find fst snd].
  - rewrite (String.eqb_sym (id n) k). now destruct (String.eqb k (id n)).
  - destruct (String.eqb_spec k0 (id n)) as [E0|N0]; cbn [find fst snd].
    + destruct (String.eqb_spec k0 k) as [E|N].
      * subst. now rewrite String.eqb_refl.
      * destruct (String.eqb_spec k (id n)); [congruence|reflexivity].
    + destruct (String.eqb_spec k0 k) as [E|N]; [|exact IH].
      destruct (String.eqb_spec k (id n)); [congruence|reflexivity].
Qed.

Lemma lookup_fold_other x l : forall k0 L k,
  ~ In k (map id l) ->
  lookupLayout (fold_left (place x) (combine (seq k0 (List.length l)) l) L) k
  = lookupLayout L k.
Proof.
  induction l as [|a l IH]; intros k0 L k H; [reflexivity|].
  cbn [List.length seq combine fold_left]. cbn [map In] in H.
  rewrite IH by tauto. rewrite lookup_place.
  destruct (String.eqb_spec k (id a)); [subst; tauto|reflexivity].
Qed.

Lemma lookup_fold_nth x l : forall k0 L j n,
  NoDup (map id l) -> nth_error l j = Some n ->
  lookupLayout (fold_left (place x) (combine (seq k0 (List.length l)) l) L) (id n)
  = (x, 100 + Z.of_nat (k0 + j) * 120).
Proof.
  induction l as [|a l IH]; intros k0 L j n ND Hj; [now destruct j|].
  cbn [List.length seq combine fold_left]. cbn [map] in ND.
  inversion ND as [|? ? Hnotin ND']; subst.
  destruct j as [|j]; cbn [nth_error] in Hj.
  - injection Hj as ->. rewrite lookup_fold_other by assumption.
    rewrite lookup_place, String.eqb_refl. now rewrite Nat.add_0_r.
  - rewrite (IH (S k0) _ j n ND' Hj). do 3 f_equal. lia.
Qed.

Lemma same_id_same_node (l : list CanvasNode) a b :
  NoDup (map id l) -> In a l -> In b l -> id a = id b -> a = b.
Proof.
  induction l as [|c l IH]; intros ND Ha Hb E; [destruct Ha|].
  cbn [map] in ND. inversion ND as [|? ? Hnotin ND']; subst.
  destruct Ha as [<-|Ha], Hb as [<-|Hb]; try reflexivity.
  - exfalso. apply Hnotin. rewrite E. now apply in_map.
  - exfalso. apply Hnotin. rewrite <- E. now apply in_map.
  - now apply IH.
Qed.

Lemma NoDup_ids_filter p (l : list CanvasNode) :
  NoDup (map id l) -> NoDup (map id (filter p l)).
Proof.
  induction l as [|a l IH]; intros ND; [constructor|].
  cbn [map] in ND. inversion ND as [|? ? Hnotin ND']; subst. cbn [filter].
  destruct (p a); [|now apply IH]. cbn [map]. constructor; [|now apply IH].
  intros H. apply Hnotin. apply in_map_iff in H as (b & E & Hb).
  apply filter_In in Hb as [Hb _]. rewrite <- E. now apply in_map.
Qed.

(** The three filters of calculateLayout are the three columns. *)
Lemma layout_by_column nodes :
  calculateLayout nodes
  = fold_left (place 800) (enumerate (filter (fun m => column m =? 800) nodes))
      (fold_left (place 450) (enumerate (filter (fun m => column m =? 450) nodes))
         (fold_left (place 100) (enumerate (filter (fun m => column m =? 100) nodes)) [])).
Proof.
  unfold calculateLayout.
  assert (E : forall p q, (forall m : CanvasNode, p m = q m) -> filter p nodes = filter q nodes)
    by (intros p q H; now apply filter_ext).
  rewrite (E (fun n => String.eqb (type n) "SourceNode") (fun m => column m =? 100)),
          (E (fun n => String.eqb (type n) "TargetNode") (fun m => column m =? 800)),
          (E (fun n => negb (String.eqb (type n) "TargetNode"
                             || String.eqb (type n) "SourceNode"))
             (fun m => column m =? 450));
    try reflexivity;
    intros m; unfold column;
    destruct (String.eqb_spec (type m) "SourceNode") as [Es|Ns];
    destruct (String.eqb_spec (type m) "TargetNode") as [Et|Nt]; try reflexivity;
    congruence.
Qed.

Lemma column_values n : column n = 100 \/ column n = 450 \/ column n = 800.
Proof.
  unfold column. destruct (String.eqb _ "SourceNode"); [now left|].
  destruct (String.eqb _ "TargetNode"); [now right; right|now right; left].
Qed.

(** The position of a node: its column, and its rank among the nodes of
    that column. *)
Lemma layout_position nodes n :
  NoDup (map id nodes) -> In n nodes ->
  exists j, nth_error (columnOf n nodes) j = Some n
            /\ lookupLayout (calculateLayout nodes) (id n)
               = (column n, 100 + Z.of_nat j * 120).
Proof.
  intros ND Hn.
  assert (Hin : In n (columnOf n nodes)) by (apply filter_In; split; [assumption|apply Z.eqb_refl]).
  destruct (In_nth_error _ _ Hin) as [j Hj]. exists j. split; [assumption|].
  assert (Hout : forall c, column n <> c ->
                           ~ In (id n) (map id (filter (fun m => column m =? c) nodes))).
  { intros c Hc H. apply in_map_iff in H as (m & E & Hm). apply filter_In in Hm as [Hm Hcm].
    apply Z.eqb_eq in Hcm. rewrite (same_id_same_node nodes m n ND Hm Hn E) in Hcm.
    congruence. }
  rewrite layout_by_column. unfold enumerate, columnOf in *.
  destruct (column_values n) as [E|[E|E]]; rewrite E in *.
  - rewrite !lookup_fold_other by (apply Hout; lia).
    now rewrite (lookup_fold_nth 100 _ 0 [] j n (NoDup_ids_filter _ _ ND) Hj).
  - rewrite lookup_fold_other by (apply Hout; lia).
    now rewrite (lookup_fold_nth 450 _ 0 _ j n (NoDup_ids_filter _ _ ND) Hj).
  - now rewrite (lookup_fold_nth 800 _ 0 _ j n (NoDup_ids_filter _ _ ND) Hj).
Qed.

Lemma layout_injective nodes a b :
  NoDup (map id nodes) -> In a nodes -> In b nodes ->
  lookupLayout (calculateLayout nodes) (id a) = lookupLayout (calculateLayout nodes) (id b) ->
  a = b.
Proof.
  intros ND Ha Hb E.
  destruct (layout_position nodes a ND Ha) as (i & Hi & Pa).
  destruct (layout_position nodes b ND Hb) as (j & Hj & Pb).
  rewrite Pa, Pb in E.
  pose proof (f_equal fst E) as Ec. pose proof (f_equal snd E) as Ey. cbn [fst snd] in Ec, Ey.
  assert (i = j) by lia. subst j.
  unfold columnOf in *. rewrite Ec in Hi. congruence.
Qed.

Lemma NoDup_map_on {A B} (f : A -> B) (l : list A) :
  NoDup l -> (forall a b, In a l -> In b l -> f a = f b -> a = b) -> NoDup (map f l).
Proof.
  induction l as [|x l IH]; intros ND Hinj; [constructor|].
  inversion ND as [|? ? Hnotin ND']; subst. cbn [map]. constructor.
  - intros H. apply in_map_iff in H as (y & E & Hy).
    rewrite (Hinj y x (or_intror Hy) (or_introl eq_refl) E) in Hy. contradiction.
  - apply IH; [assumption|]. intros a b Ha Hb. apply Hinj; now right.
Qed.

(** X6: in the canvas that applyTemplate lays out for a suggestion list no
    two nodes share a position; a node stands in the column of its type
    (sources at x = 100, targets at x = 800, all others at x = 450) at
    y = 100 + 120 * its rank in that column. *)
Theorem X6_layout_without_ties (mappings : list MappingSuggestion) :
  let canvas := convertMappingsToCanvas mappings in
  NoDup (map fposition (fst (applyTemplate canvas)))
  /\ map fid (fst (applyTemplate canvas)) = map id (fst canvas)
  /\ forall n, In n (fst canvas) ->
       exists j, nth_error (columnOf n (fst canvas)) j = Some n
                 /\ In (id n, (column n, 100 + Z.of_nat j * 120))
                       (map (fun f => (fid f, fposition f)) (fst (applyTemplate canvas))).
Proof.
  intros canvas.
  assert (ND : NoDup (map id (fst canvas))).
  { unfold canvas, convertMappingsToCanvas. cbn [fst].
    now destruct (fold_step_grows mappings init tracked_init) as [[ND _] _]. }
  unfold applyTemplate. cbn [fst]. rewrite !map_map. cbn [fposition fid]. repeat split.
  - apply NoDup_map_on; [now apply NoDup_map_inv in ND|].
    intros a b. now apply layout_injective.
  - intros n Hn. destruct (layout_position (fst canvas) n ND Hn) as (j & Hj & P).
    exists j. split; [assumption|]. apply in_map_iff. exists n. split; [|assumption].
    now rewrite P.
Qed.

End LayoutProps.

(** ** split, join and the parent paths of a handle *)

Section PathProps.
Import JS Flow Pipeline PipelineFacts.

Lemma split_nonempty c s : split c s <> [].
Proof.
  destruct s as [|x rest]; cbn [split]; [discriminate|].
  destruct (Ascii.eqb x c); [discriminate|]. now destruct (split c rest).
Qed.

Lemma concat_cons sep p ps :
  ps <> [] -> String.concat sep (p :: ps) = p ++ sep ++ String.concat sep ps.
Proof. destruct ps; [congruence|reflexivity]. Qed.

(** Joining the parts of a split gives the string back. *)
Lemma join_of_split (c : ascii) (s : string) :
  String.concat (String c "") (split c s) = s.
Proof.
  induction s as [|x rest IH]; [reflexivity|]. cbn [split].
  destruct (Ascii.eqb_spec x c) as [->|NE].
  - rewrite concat_cons by apply split_nonempty. cbn. now rewrite IH.
  - pose proof (split_nonempty c rest) as Hne.
    destruct (split c rest) as [|p ps]; [congruence|].
    destruct ps as [|q qs].
    + cbn in *. now rewrite IH.
    + change (String.concat (String c "") (String x p :: q :: qs))
        with (String x (p ++ String c "" ++ String.concat (String c "") (q :: qs))).
      f_equal. exact IH.
Qed.

Lemma split_append_sep c p : forall s,
  hasChar c p = false ->
  split c (p ++ String c s) = p :: split c s.
Proof.
  induction p as [|x p IH]; intros s H; cbn [append split].
  - now rewrite Ascii.eqb_refl.
  - cbn [hasChar] in H. apply orb_false_elim in H as [Hx Hp].
    rewrite Hx, (IH s Hp). reflexivity.
Qed.

Lemma split_without_sep c p : hasChar c p = false -> split c p = [p].
Proof.
  induction p as [|x p IH]; intros H; [reflexivity|]. cbn [split hasChar] in *.
  apply orb_false_elim in H as [Hx Hp]. now rewrite Hx, (IH Hp).
Qed.

Lemma split_concat c parts :
  parts <> [] ->
  (forall p, In p parts -> hasChar c p = false) ->
  split c (String.concat (String c "") parts) = parts.
Proof.
  induction parts as [|p ps IH]; intros Hne Hc; [congruence|].
  destruct ps as [|q qs].
  - cbn [String.concat]. apply split_without_sep, Hc. now left.
  - rewrite concat_cons by discriminate. cbn [append].
    rewrite split_append_sep by (apply Hc; now left).
    f_equal. apply IH; [discriminate|]. intros r Hr. apply Hc. now right.
Qed.

Lemma stripFrom_clean s : hasChar "[" s = false -> stripFrom 0 s = s.
Proof.
  induction s as [|x s IH]; intros H; [reflexivity|]. cbn [stripFrom hasChar] in *.
  apply orb_false_elim in H as [Hx Hs]. now rewrite Hx, (IH Hs).
Qed.

Lemma hasChar_append c a b : hasChar c (a ++ b) = hasChar c a || hasChar c b.
Proof.
  induction a as [|x a IH]; [reflexivity|]. cbn [append hasChar]. now rewrite IH, orb_assoc.
Qed.

Lemma hasChar_concat c sep parts :
  hasChar c sep = false -> (forall p, In p parts -> hasChar c p = false) ->
  hasChar c (String.concat sep parts) = false.
Proof.
  intros Hs. induction parts as [|p ps IH]; intros H; [reflexivity|].
  destruct ps as [|q qs]; [apply H; now left|].
  rewrite concat_cons by discriminate. rewrite !hasChar_append, Hs, (H p (or_introl eq_refl)).
  cbn [orb]. apply IH. intros r Hr. apply H. now right.
Qed.

Lemma concat_starts sep p ps : p <> "" -> String.concat sep (p :: ps) <> "".
Proof.
  intros Hp. destruct ps; [exact Hp|]. rewrite concat_cons by discriminate.
  destruct p; [congruence|discriminate].
Qed.

Lemma in_firstn {A} (x : A) n : forall l, In x (firstn n l) -> In x l.
Proof.
  induction n as [|n IH]; intros [|a l] H; cbn [firstn] in H; try destruct H.
  - now left.
  - right. now apply IH.
Qed.

(** X7: for a handle made of plain segments (no dot, no bracket, the first
    one not empty) the parent paths are the proper prefixes of the path,
    shortest first, unchanged. *)
Theorem X7_parent_paths_of_plain_path (parts : list string) :
  parts <> [] -> hd "" parts <> "" ->
  (forall p, In p parts -> hasChar "." p = false /\ hasChar "[" p = false) ->
  parentPaths (String.concat "." parts)
  = map (fun i => String.concat "." (firstn (S i) parts)) (seq 0 (List.length parts - 1)).
Proof.
  intros Hne Hhd Hc. unfold parentPaths.
  rewrite (split_concat "." parts Hne (fun p Hp => proj1 (Hc p Hp))).
  generalize (seq 0 (List.length parts - 1)). intros l.
  induction l as [|i l IH]; [reflexivity|]. cbn [flat_map map]. rewrite IH.
  unfold stripIndices. rewrite stripFrom_clean.
  - destruct parts as [|p ps]; [congruence|]. cbn [firstn hd] in *.
    destruct (String.eqb_spec (String.concat "." (p :: firstn i ps)) "") as [E|_];
      [now apply concat_starts in E|reflexivity].
  - apply hasChar_concat; [reflexivity|]. intros p Hp. apply Hc.
    now apply (in_firstn p (S i) parts).
Qed.

Lemma X7_parent_paths_of_plain_path_witness :
  parentPaths (String.concat "." ["order"; "customer"; "name"])
  = map (fun i => String.concat "." (firstn (S i) ["order"; "customer"; "name"]))
        (seq 0 (List.length ["order"; "customer"; "name"] - 1)).
Proof.
  apply X7_parent_paths_of_plain_path; [discriminate|discriminate|].
  intros p [<-|[<-|[<-|[]]]]; split; reflexivity.
Defined.

End PathProps.

(** ** The expansion map *)

Section ExpandMapProps.
Import JS Flow Pipeline PipelineFacts.

Lemma map_has_get (m : ExpandMap) k : map_has m k = false <-> map_get m k = None.
Proof.
  unfold map_has, map_get.
  induction m as [|[k' s] rest IH]; cbn [existsb find fst]; [tauto|].
  destruct (String.eqb k' k); cbn [orb option_map]; [split; discriminate|exact IH].
Qed.

Lemma map_get_snoc (m : ExpandMap) k k' :
  map_get (m ++ [(k, [])])%list k'
  = match map_get m k' with
    | Some s => Some s
    | None => if String.eqb k k' then Some [] else None
    end.
Proof.
  unfold map_get. induction m as [|[k0 s] rest IH]; cbn [app find fst].
  - now destruct (String.eqb k k').
  - destruct (String.eqb k0 k'); [reflexivity|exact IH].
Qed.

Lemma map_get_add (m : ExpandMap) k x k' :
  map_get (map_add m k x) k'
  = if String.eqb k k' then option_map (fun s => set_add s x) (map_get m k')
    else map_get m k'.
Proof.
  unfold map_get. induction m as [|[k0 s] rest IH]; cbn [map_add find fst].
  - now destruct (String.eqb k k').
  - destruct (String.eqb_spec k0 k) as [->|N]; cbn [find fst].
    + destruct (String.eqb k k'); reflexivity.
    + destruct (String.eqb_spec k0 k') as [->|N'].
      * destruct (String.eqb_spec k k'); [congruence|reflexivity].
      * exact IH.
Qed.

Lemma keys_add (m : ExpandMap) k x : map fst (map_add m k x) = map fst m.
Proof.
  induction m as [|[k0 s] rest IH]; [reflexivity|]. cbn [map_add].
  destruct (String.eqb k0 k); cbn [map fst]; [reflexivity|now rewrite IH].
Qed.

Lemma keys_add_all k ps : forall m : ExpandMap,
  map fst (fold_left (fun m p => map_add m k p) ps m) = map fst m.
Proof.
  induction ps as [|p ps IH]; intros m; cbn [fold_left]; [reflexivity|].
  now rewrite IH, keys_add.
Qed.

Lemma map_get_add_all k ps k' : forall m : ExpandMap,
  map_get (fold_left (fun m p => map_add m k p) ps m) k'
  = if String.eqb k k' then option_map (fun s => fold_left set_add ps s) (map_get m k')
    else map_get m k'.
Proof.
  induction ps as [|p ps IH]; intros m; cbn [fold_left].
  - destruct (String.eqb k k'); [|reflexivity]. now destruct (map_get m k').
  - rewrite IH, map_get_add. destruct (String.eqb k k'); [|reflexivity].
    now destruct (map_get m k').
Qed.

Lemma set_add_spec s x :
  NoDup s -> NoDup (set_add s x) /\ forall p, In p (set_add s x) <-> In p s \/ p = x.
Proof.
  intros ND. unfold set_add. destruct (existsb (String.eqb x) s) eqn:E.
  - split; [assumption|]. intros p. split; [now left|]. intros [H| ->]; [assumption|].
    apply existsb_exists in E as (y & Hy & Ey). apply String.eqb_eq in Ey. now subst.
  - split.
    + apply NoDup_app; [assumption|repeat constructor; intros []|].
      intros y Hy [Ey|[]]. subst y.
      assert (existsb (String.eqb x) s = true)
        by (apply existsb_exists; exists x; split; [assumption|apply String.eqb_refl]).
      congruence.
    + intros p. rewrite in_app_iff. cbn [In]. intuition (subst; auto).
Qed.

Lemma set_add_all_spec ps : forall s,
  NoDup s ->
  NoDup (fold_left set_add ps s)
  /\ forall p, In p (fold_left set_add ps s) <-> In p s \/ In p ps.
Proof.
  induction ps as [|x ps IH]; intros s ND; cbn [fold_left].
  - split; [assumption|]. intros p. cbn [In]. tauto.
  - destruct (set_add_spec s x ND) as [ND' H'].
    destruct (IH _ ND') as [ND'' H'']. split; [assumption|].
    intros p. rewrite H'', H'. cbn [In]. intuition (subst; auto).
Qed.

Lemma pathsFrom_snoc k edges e :
  pathsFrom k (edges ++ [e])
  = (pathsFrom k edges
     ++ (if leaves k e then
           match sourceHandle e with HStr fieldPath => parentPaths fieldPath | _ => [] end
         else []))%list.
Proof. unfold pathsFrom. rewrite flat_map_app. cbn [flat_map]. now rewrite app_nil_r. Qed.

Lemma analysed_step edges st e :
  analysed edges (fst st) -> analysed (edges ++ [e]) (fst (analyseEdge st e)).
Proof.
  destruct st as [m c]. cbn [fst]. intros [HK HN HS].
  assert (Hskip : hasHandle e = false -> analysed (edges ++ [e]) m).
  { intros Hh. split; [assumption| |].
    - intros k. rewrite existsb_app. cbn [existsb]. unfold leaves at 2. rewrite Hh.
      cbn [andb orb]. rewrite orb_false_r. apply HN.
    - intros k s Hs. rewrite pathsFrom_snoc. unfold leaves. rewrite Hh. cbn [andb].
      rewrite app_nil_r. now apply HS. }
  unfold analyseEdge. destruct (sourceHandle e) as [| |h] eqn:Eh;
    try (cbn [fst]; apply Hskip; unfold hasHandle; now rewrite Eh).
  destruct (String.eqb h "") eqn:Ee;
    [cbn [fst]; apply Hskip; unfold hasHandle; now rewrite Eh, Ee|].
  cbn [fst].
  assert (Hh : hasHandle e = true) by (unfold hasHandle; now rewrite Eh, Ee).
  set (m1 := if map_has m (source e) then m else (m ++ [(source e, [])])%list).
  assert (Hget1 : forall k, map_get m1 k
                            = match map_get m k with
                              | Some s => Some s
                              | None => if String.eqb (source e) k then Some [] else None
                              end).
  { intros k. unfold m1. destruct (map_has m (source e)) eqn:Em; [|apply map_get_snoc].
    destruct (map_get m k) eqn:Ek; [reflexivity|].
    destruct (String.eqb_spec (source e) k) as [<-|]; [|reflexivity].
    apply map_has_get in Ek. congruence. }
  assert (Hkeys1 : NoDup (map fst m1)).
  { unfold m1. destruct (map_has m (source e)) eqn:Em; [assumption|].
    rewrite map_app. apply NoDup_app; [assumption|repeat constructor; intros []|].
    intros k Hk [<-|[]]. apply map_has_get in Em. unfold map_get in Em.
    apply in_map_iff in Hk as ([k' s] & Ek & Hin). cbn [fst] in Ek. subst k'.
    destruct (find _ m) eqn:F; [discriminate|].
    apply (find_none _ _ F) in Hin. cbn [fst] in Hin. now rewrite String.eqb_refl in Hin. }
  split.
  - now rewrite keys_add_all.
  - intros k. rewrite map_get_add_all, Hget1, existsb_app. cbn [existsb].
    unfold leaves at 2. rewrite Hh, orb_false_r. cbn [andb].
    destruct (String.eqb (source e) k) eqn:Ek.
    + destruct (map_get m k); cbn [option_map]; rewrite orb_true_r; split; discriminate.
    + rewrite orb_false_r, <- HN. destruct (map_get m k); tauto.
  - intros k s. rewrite map_get_add_all, Hget1, pathsFrom_snoc. unfold leaves.
    rewrite Hh, Eh. cbn [andb].
    destruct (String.eqb (source e) k) eqn:Ek.
    + destruct (map_get m k) as [s0|] eqn:Em; cbn [option_map]; intros H;
        injection H as <-.
      * destruct (HS k s0 Em) as [ND0 H0].
        destruct (set_add_all_spec (parentPaths h) s0 ND0) as [ND1 H1].
        split; [assumption|]. intros p. now rewrite H1, in_app_iff, H0.
      * destruct (set_add_all_spec (parentPaths h) [] (NoDup_nil _)) as [ND1 H1].
        split; [assumption|]. intros p. rewrite H1, in_app_iff.
        assert (Hnone : pathsFrom k edges = []).
        { apply HN in Em. unfold pathsFrom. clear -Em.
          induction edges as [|a l IH]; [reflexivity|]. cbn [existsb flat_map] in *.
          apply orb_false_elim in Em as [Ea El]. now rewrite Ea, (IH El). }
        rewrite Hnone. reflexivity.
    + rewrite app_nil_r. intros H. apply HS. now destruct (map_get m k).
Qed.

Lemma analysed_all edges : analysed edges (fst (sourceFieldsToExpand edges)).
Proof.
  unfold sourceFieldsToExpand.
  induction edges as [|e edges IH] using rev_ind.
  - split; [constructor| |]; cbn; [tauto|discriminate].
  - rewrite fold_left_app. cbn [fold_left]. now apply analysed_step.
Qed.

(** X8: after the analysis of the imported edges every source id is a key
    at most once; a node id is a key exactly when an edge with a
    sourceHandle leaves that node; its set has no duplicates and holds
    exactly the cleaned parent paths of the handles of those edges. *)
Theorem X8_expansion_map (importedEdges : list Edge) :
  let m := fst (sourceFieldsToExpand importedEdges) in
  NoDup (map fst m)
  /\ (forall k, map_get m k = None <-> existsb (leaves k) importedEdges = false)
  /\ (forall k s, map_get m k = Some s ->
                  NoDup s /\ forall p, In p s <-> In p (pathsFrom k importedEdges)).
Proof.
  intros m. destruct (analysed_all importedEdges) as [H1 H2 H3].
  exact (conj H1 (conj H2 H3)).
Qed.

Lemma X8_expansion_map_witness :
  map_get (fst (sourceFieldsToExpand [cityEdge])) "orders" = Some ["items"; "items.address"]
  /\ NoDup ["items"; "items.address"]
  /\ forall p, In p ["items"; "items.address"] <-> In p (pathsFrom "orders" [cityEdge]).
Proof.
  split; [reflexivity|].
  exact (proj2 (proj2 (X8_expansion_map [cityEdge])) "orders" _ eq_refl).
Defined.

(** X9: a node that is not of type source, or that no edge with a
    sourceHandle leaves, is handed over unchanged; the enhanced nodes have
    the ids, types and positions of the imported nodes, in order. *)
Theorem X9_enhanced_nodes (importedNodes : list Node) (importedEdges : list Edge) :
  map (fun n => (id n, type n, position n)) (enhancedNodes importedNodes importedEdges)
  = map (fun n => (id n, type n, position n)) importedNodes
  /\ forall i n, nth_error importedNodes i = Some n ->
       type_is n "source" = false \/ existsb (leaves (id n)) importedEdges = false ->
       nth_error (enhancedNodes importedNodes importedEdges) i = Some n.
Proof.
  unfold enhancedNodes. split.
  - rewrite map_map. apply map_ext. intros n. unfold enhanceNode.
    destruct (type_is n "source"); [|reflexivity]. now destruct (map_get _ _).
  - intros i n Hi H. rewrite (map_nth_error _ _ _ Hi). f_equal. unfold enhanceNode.
    destruct H as [->|H]; [reflexivity|].
    destruct (type_is n "source"); [|reflexivity].
    apply (an_none _ _ (analysed_all importedEdges)) in H. now rewrite H.
Qed.

Lemma X9_enhanced_nodes_witness :
  nth_error (enhancedNodes [ordersNode] [mkEdge "e0" "orders" "t1" HUndef (HStr "city")]) 0
  = Some ordersNode.
Proof.
  apply (proj2 (X9_enhanced_nodes [ordersNode]
                  [mkEdge "e0" "orders" "t1" HUndef (HStr "city")]) 0 ordersNode).
  - reflexivity.
  - right. reflexivity.
Defined.

End ExpandMapProps.

(** ** More on reconstructSchemaFields *)

Section SchemaMore.
Import JS Flow NodeImporter NodeImporterFacts RoundTrip.

Lemma withGroupBy_assign arrayConfigs field :
  withGroupBy arrayConfigs field
  = assign "groupBy" (groupByFor arrayConfigs field) (own_entries field).
Proof.
  unfold withGroupBy, groupByFor, assign. destruct arrayConfigs as [cfgs|]; [|reflexivity].
  destruct (is_str _ _); [|reflexivity]. now destruct (truthy _).
Qed.

Lemma groupByFor_ext arrayConfigs f f' :
  get "type" f = get "type" f' -> get "name" f = get "name" f' ->
  groupByFor arrayConfigs f = groupByFor arrayConfigs f'.
Proof.
  intros Ht Hn. unfold groupByFor, findArrayConfig. now rewrite Ht, Hn.
Qed.

Lemma set_entry_key k v kv : In k (map fst (set_entry k v kv)).
Proof.
  induction kv as [|[k' v'] rest IH]; cbn [set_entry]; [now left|].
  destruct (String.eqb k k'); [now left|now right].
Qed.

Lemma set_entry_keeps k k' v kv : In k' (map fst kv) -> In k' (map fst (set_entry k v kv)).
Proof.
  induction kv as [|[k0 v0] rest IH]; cbn [set_entry map fst In]; [tauto|].
  destruct (String.eqb_spec k k0) as [->|NE]; cbn [map fst In]; [tauto|].
  intros [H|H]; [now left|right; now apply IH].
Qed.

Lemma set_entry_fixed k v kv :
  In k (map fst kv) -> assoc k kv = v -> set_entry k v kv = kv.
Proof.
  induction kv as [|[k' v'] rest IH]; cbn [map fst In assoc set_entry]; [tauto|].
  destruct (String.eqb_spec k k') as [->|NE]; [now intros _ ->|].
  intros [E|H] Hv; [symmetry in E; contradiction|]. f_equal. now apply IH.
Qed.

Lemma set_entry_twice k v kv : set_entry k v (set_entry k v kv) = set_entry k v kv.
Proof. apply set_entry_fixed; [apply set_entry_key|apply assoc_set_same]. Qed.

Lemma assign_get_other k k' v kv :
  k' <> k -> get k' (JObj (assign k v kv)) = get k' (JObj kv).
Proof. intros NE. destruct v as [v|]; [now apply get_set_other|reflexivity]. Qed.

(** The callback of [fields.map] as two assignments on the copy. *)
Lemma reconstructSchemaField_assign arrayConfigs kv :
  reconstructSchemaField arrayConfigs (JObj kv)
  = JObj (assign "children"
            (match assoc "children" kv with
             | JArr cs => Some (JArr (reconstructSchemaFields cs arrayConfigs))
             | _ => None
             end)
            (assign "groupBy" (groupByFor arrayConfigs (JObj kv)) kv)).
Proof.
  rewrite reconstructSchemaField_eq, withGroupBy_assign. cbn [get own_entries].
  now destruct (assoc "children" kv).
Qed.

(** X10: for a field of type array and the first configuration whose
    target is the name of the field, the reconstructed field has the
    groupBy of that configuration, or undefined when that is empty or
    missing; every property other than groupBy and children is the one
    of the field. *)
Theorem X10_groupBy_of_first_config
  (before after : list JSON) (c : JSON) (kv : list (string * JSON)) :
  is_str (assoc "type" kv) "array" = true ->
  (forall c', In c' before -> strict_eq (get "target" c') (assoc "name" kv) = false) ->
  strict_eq (get "target" c) (assoc "name" kv) = true ->
  truthy c = true ->
  let r := reconstructSchemaField (Some (before ++ c :: after)%list) (JObj kv) in
  get "groupBy" r = jor (get "groupBy" c) JUndef
  /\ forall k, k <> "groupBy" -> k <> "children" -> get k r = assoc k kv.
Proof.
  intros Ht Hb Hc Htr r.
  assert (G : groupByFor (Some (before ++ c :: after)%list) (JObj kv)
              = Some (jor (get "groupBy" c) JUndef)).
  { unfold groupByFor. cbn [get]. rewrite Ht.
    assert (F : findArrayConfig (before ++ c :: after)%list (JObj kv) = c).
    { unfold findArrayConfig, find_or_undef. cbn [get].
      induction before as [|b before IH]; cbn [app find].
      - now rewrite Hc.
      - rewrite (Hb b (or_introl eq_refl)). apply IH.
        intros c' H. apply Hb. now right. }
    now rewrite F, Htr. }
  unfold r. rewrite reconstructSchemaField_assign, G. split.
  - rewrite assign_get_other by discriminate. apply get_set_same.
  - intros k Hg Hch. rewrite assign_get_other by assumption.
    cbn [assign]. now rewrite get_set_other.
Qed.

Lemma X10_groupBy_of_first_config_witness :
  get "groupBy" (reconstructSchemaField (Some itemsConfigs) itemsField) = JStr "orderId".
Proof.
  refine (proj1 (X10_groupBy_of_first_config
                   [JObj [("target", JStr "orders"); ("groupBy", JStr "customer")]]
                   [JObj [("target", JStr "items"); ("groupBy", JStr "sku")]]
                   (JObj [("target", JStr "items"); ("groupBy", JStr "orderId")])
                   _ _ _ _ _)).
  - reflexivity.
  - intros c' [<-|[]]. reflexivity.
  - reflexivity.
  - reflexivity.
Defined.

Lemma reconstruct_twice arrayConfigs :
  forall f,
    (wf_field f = true ->
     reconstructSchemaField arrayConfigs (reconstructSchemaField arrayConfigs f)
     = reconstructSchemaField arrayConfigs f)
    /\ (forall cs, f = JArr cs -> forallb wf_field cs = true ->
          reconstructSchemaFields (reconstructSchemaFields cs arrayConfigs) arrayConfigs
          = reconstructSchemaFields cs arrayConfigs).
Proof.
  induction f as [| |b|z|s|l IH|kv IH] using JSON_nested_ind;
    (split; [try discriminate|try discriminate]).
  - intros cs E Hwf. injection E as <-. unfold reconstructSchemaFields.
    induction l as [|x l IHl]; [reflexivity|].
    cbn [forallb] in Hwf. apply andb_true_iff in Hwf as [Hx Hl].
    inversion IH as [|? ? [Px _] IH']; subst. cbn [map].
    f_equal; [now apply Px|now apply IHl].
  - intros Hwf. rewrite (reconstructSchemaField_assign arrayConfigs kv).
    set (g := groupByFor arrayConfigs (JObj kv)).
    set (c := match assoc "children" kv with
              | JArr cs => Some (JArr (reconstructSchemaFields cs arrayConfigs))
              | _ => None
              end).
    rewrite reconstructSchemaField_assign.
    assert (Hg : groupByFor arrayConfigs (JObj (assign "children" c (assign "groupBy" g kv)))
                 = g).
    { apply groupByFor_ext; now rewrite !assign_get_other by discriminate. }
    rewrite Hg. f_equal.
    assert (Eg : assign "groupBy" g (assign "children" c (assign "groupBy" g kv))
                 = assign "children" c (assign "groupBy" g kv)).
    { destruct g as [v|]; [|reflexivity]. cbn [assign].
      apply set_entry_fixed.
      - destruct c; cbn [assign]; [apply set_entry_keeps|]; apply set_entry_key.
      - change (get "groupBy" (JObj (assign "children" c (set_entry "groupBy" v kv))) = v).
        rewrite assign_get_other by discriminate. apply get_set_same. }
    rewrite Eg.
    destruct (assoc "children" kv) as [| | | | |cs|] eqn:Hc; subst c; cbn [assign];
      try (change (assoc "children" (assign "groupBy" g kv))
             with (get "children" (JObj (assign "groupBy" g kv)));
           rewrite assign_get_other by discriminate; cbn [get]; rewrite Hc; reflexivity).
    rewrite assoc_set_same.
    assert (Hin : In ("children", JArr cs) kv).
    { rewrite <- Hc. apply assoc_in.
      clear -Hc. induction kv as [|[k v] rest IHk]; cbn [assoc] in Hc; [discriminate|].
      cbn [map fst In].
      destruct (String.eqb_spec "children" k); [now left|right; now apply IHk]. }
    rewrite Forall_forall in IH. destruct (IH _ Hin) as [_ Pcs]. cbn [snd] in Pcs.
    rewrite (Pcs cs eq_refl (wf_children kv cs Hwf Hc)). cbn [assign].
    apply set_entry_twice.
Qed.

(** X11: on a tree of field objects a second reconstruction with the same
    array configurations changes nothing. *)
Theorem X11_reconstruction_idempotent (fields : list JSON) (arrayConfigs : option (list JSON)) :
  forallb wf_field fields = true ->
  reconstructSchemaFields (reconstructSchemaFields fields arrayConfigs) arrayConfigs
  = reconstructSchemaFields fields arrayConfigs.
Proof.
  intros H. exact (proj2 (reconstruct_twice arrayConfigs (JArr fields)) fields eq_refl H).
Qed.

Lemma X11_reconstruction_idempotent_witness :
  reconstructSchemaFields (reconstructSchemaFields [itemsField] (Some itemsConfigs))
    (Some itemsConfigs)
  = reconstructSchemaFields [itemsField] (Some itemsConfigs).
Proof. apply X11_reconstruction_idempotent. reflexivity. Defined.

End SchemaMore.

(** ** More on exportUIMappingConfiguration *)

Section UIExporterMore.
Import JS Flow UIExporter ExecExporter.

Lemma exported_source_ids l : map SourceNodeConfig.id (map exportSource l) = map Flow.id l.
Proof. rewrite map_map. reflexivity. Qed.

Lemma exported_target_ids l : map TargetNodeConfig.id (map exportTarget l) = map Flow.id l.
Proof. rewrite map_map. reflexivity. Qed.

Lemma exported_transform_ids l :
  map TransformNodeConfig.id (map exportTransform l) = map Flow.id l.
Proof. rewrite map_map. reflexivity. Qed.

Lemma exported_mapping_ids l : map MappingNodeConfig.id (map exportMapping l) = map Flow.id l.
Proof. rewrite map_map. reflexivity. Qed.

(** The four filters of the exporter pick every node exactly once. *)
Lemma one_list_per_node (n : Node) :
  match type_is n "source", type_is n "target",
        negb (isBasicNode n), type_is n "conversionMapping" with
  | true, false, false, false
  | false, true, false, false
  | false, false, true, false
  | false, false, false, true => True
  | _, _, _, _ => False
  end.
Proof.
  unfold isBasicNode, type_is. destruct (type n) as [t|]; [|exact I].
  destruct (String.eqb_spec t "source") as [->|]; [exact I|].
  destruct (String.eqb_spec t "target") as [->|]; [exact I|].
  destruct (String.eqb_spec t "conversionMapping"); exact I.
Qed.

Lemma four_filters (nodes : list Node) :
  Permutation
    (map Flow.id (filter (fun node => type_is node "source") nodes)
     ++ map Flow.id (filter (fun node => type_is node "target") nodes)
     ++ map Flow.id (filter (fun node => negb (isBasicNode node)) nodes)
     ++ map Flow.id (filter (fun node => type_is node "conversionMapping") nodes))%list
    (map Flow.id nodes).
Proof.
  induction nodes as [|n nodes IH]; [constructor|].
  cbn [filter map]. pose proof (one_list_per_node n) as H.
  destruct (type_is n "source"), (type_is n "target"),
           (negb (isBasicNode n)), (type_is n "conversionMapping");
    try contradiction; cbn [map app].
  - now constructor.
  - symmetry. apply Permutation_cons_app. now symmetry.
  - symmetry. rewrite app_assoc. apply Permutation_cons_app. rewrite <- app_assoc.
    now symmetry.
  - symmetry. rewrite 2!app_assoc. apply Permutation_cons_app. rewrite <- 2!app_assoc.
    now symmetry.
Qed.

(** X12: the exported sources, targets, transforms and mappings together
    hold every node of the canvas exactly once, each list in canvas order;
    the connections are the edges, one for one. *)
Theorem X12_export_partitions_nodes
  (nowMs nowIso : string) (buildExecutionSteps : list Node -> list Edge -> JSON)
  (nodes : list Node) (edges : list Edge) (name : string) :
  let c := exportUIMappingConfiguration nowMs nowIso buildExecutionSteps nodes edges name in
  Permutation
    (map SourceNodeConfig.id (sources c) ++ map TargetNodeConfig.id (targets c)
     ++ map TransformNodeConfig.id (transforms c)
     ++ map MappingNodeConfig.id (UIExporter.mappings c))%list
    (map Flow.id nodes)
  /\ map (fun k => (cid k, sourceNodeId k, targetNodeId k)) (connections c)
     = map (fun e => (eid e, source e, target e)) edges.
Proof.
  cbv zeta. unfold exportUIMappingConfiguration.
  cbn [sources targets transforms UIExporter.mappings connections].
  rewrite exported_source_ids, exported_target_ids, exported_transform_ids,
    exported_mapping_ids.
  split; [apply four_filters|]. rewrite map_map. reflexivity.
Qed.

Lemma find_node_some nodes i n :
  find_node nodes i = Some n -> In n nodes /\ Flow.id n = i.
Proof.
  unfold find_node. intros H. apply find_some in H as [Hin Hid].
  apply String.eqb_eq in Hid. now split.
Qed.

Lemma find_node_unique nodes n :
  NoDup (map Flow.id nodes) -> In n nodes -> find_node nodes (Flow.id n) = Some n.
Proof.
  unfold find_node. induction nodes as [|x nodes IH]; cbn [map In find]; [tauto|].
  intros ND [->|Hin]; [now rewrite String.eqb_refl|].
  inversion ND as [|? ? Hx ND']; subst.
  destruct (String.eqb_spec (Flow.id x) (Flow.id n)) as [E|_]; [|now apply IH].
  exfalso. apply Hx. rewrite E. now apply in_map.
Qed.

Lemma find_node_none nodes i :
  find_node nodes i = None -> ~ In i (map Flow.id nodes).
Proof.
  unfold find_node. intros H Hin. apply in_map_iff in Hin as (n & <- & Hn).
  apply (find_none _ _ H) in Hn. now rewrite String.eqb_refl in Hn.
Qed.

Lemma filtered_id (p : Node -> bool) nodes n :
  NoDup (map Flow.id nodes) -> In n nodes ->
  (In (Flow.id n) (map Flow.id (filter p nodes)) <-> p n = true).
Proof.
  intros ND Hn. split.
  - intros H. apply in_map_iff in H as (n' & E & H'). apply filter_In in H' as [Hin Hp].
    assert (find_node nodes (Flow.id n') = Some n') as F' by now apply find_node_unique.
    assert (find_node nodes (Flow.id n) = Some n) as F by now apply find_node_unique.
    rewrite E, F in F'. now injection F' as <-.
  - intros Hp. apply in_map, filter_In. now split.
Qed.

(** X13: on a canvas whose node ids are distinct a connection has type
    transform exactly when its source node was exported among the
    transforms, type mapping exactly when it was exported among the
    mappings, and type direct otherwise, which includes an edge whose
    source is no node of the canvas. *)
Theorem X13_connection_types
  (nowMs nowIso : string) (buildExecutionSteps : list Node -> list Edge -> JSON)
  (nodes : list Node) (edges : list Edge) (name : string) (edge : Edge) :
  NoDup (map Flow.id nodes) ->
  let c := exportUIMappingConfiguration nowMs nowIso buildExecutionSteps nodes edges name in
  let k := exportConnection nodes edge in
  (In edge edges -> In k (connections c))
  /\ (ctype k = "transform"
      <-> In (source edge) (map TransformNodeConfig.id (transforms c)))
  /\ (ctype k = "mapping"
      <-> In (source edge) (map MappingNodeConfig.id (UIExporter.mappings c)))
  /\ (ctype k = "direct"
      <-> ~ In (source edge) (map TransformNodeConfig.id (transforms c))
          /\ ~ In (source edge) (map MappingNodeConfig.id (UIExporter.mappings c))).
Proof.
  intros ND. cbv zeta. unfold exportUIMappingConfiguration.
  cbn [transforms UIExporter.mappings connections].
  rewrite exported_transform_ids, exported_mapping_ids.
  split; [apply in_map|].
  unfold exportConnection. cbn [ctype].
  destruct (find_node nodes (source edge)) as [n|] eqn:F.
  - apply find_node_some in F as [Hn <-].
    rewrite !(filtered_id _ nodes n ND Hn).
    pose proof (one_list_per_node n) as H.
    destruct (type_is n "source"), (type_is n "target"),
             (negb (isBasicNode n)), (type_is n "conversionMapping");
      try contradiction; cbn [negb];
      (repeat split; try discriminate; try tauto; try reflexivity);
      intros [? ?]; congruence.
  - apply find_node_none in F.
    assert (N : forall p, ~ In (source edge) (map Flow.id (filter p nodes))).
    { intros p H. apply F. apply in_map_iff in H as (n & E & H).
      apply filter_In in H as [H _]. rewrite <- E. now apply in_map. }
    repeat split; try discriminate; try apply N; intros H; now apply N in H.
Qed.

Lemma X13_connection_types_witness :
  In (exportConnection orphanNodes (mkEdge "e1" "c1" "t1" (HStr "output") (HStr "f1")))
     (connections (exportUIMappingConfiguration "0" "" (fun _ _ => JNull)
                     orphanNodes orphanEdges "m")).
Proof.
  refine (proj1 (X13_connection_types "0" "" (fun _ _ => JNull) orphanNodes orphanEdges "m"
                   (mkEdge "e1" "c1" "t1" (HStr "output") (HStr "f1")) _) _).
  - repeat constructor; cbn; intuition discriminate.
  - left; reflexivity.
Defined.

End UIExporterMore.

(** ** More on exportExecutionMapping *)

Section ExecExporterMore.
Import JS Flow ExecExporter ExecExporterFacts.

Lemma jor_not_null a s : jor a (JStr s) <> JNull.
Proof.
  unfold jor. destruct (truthy a) eqn:T; [|discriminate].
  intros ->. discriminate.
Qed.

Lemma fieldNameAt_not_null node edge : fieldNameAt node edge <> JNull.
Proof. apply jor_not_null. Qed.

Lemma conversionInput_not_null nodes edges n : fst (conversionInput nodes edges n) <> JNull.
Proof.
  unfold conversionInput.
  repeat match goal with
         | |- context [match ?x with _ => _ end] => destruct x
         end; cbn [fst]; try discriminate; apply fieldNameAt_not_null.
Qed.

(** What [processEdge] pushes, property by property. *)
Lemma processEdge_some nodes edges tf e m :
  fst (processEdge nodes edges tf e) = Some m ->
  exists origin,
    find_node nodes (source e) = Some origin /\ resolvable origin = true
    /\ get "to" m = get "name" tf
    /\ get "type" m = JStr (kindOf origin)
    /\ (get "from" m = JNull <-> kindOf origin = "static").
Proof.
  unfold processEdge, resolvable, kindOf.
  destruct (find_node nodes (source e)) as [origin|]; [|discriminate].
  intros H. exists origin. split; [reflexivity|]. revert H.
  destruct (type_is origin "source").
  { cbn [fst]. intros H. injection H as <-. cbn. repeat split; try discriminate.
    intros H. exfalso. revert H. unfold jor.
    destruct (truthy (get "name" _)) eqn:T1; [intros H; rewrite H in T1; discriminate|].
    destruct (truthy (hjson _)) eqn:T2; [intros H; rewrite H in T2|]; discriminate. }
  destruct (type_is origin "staticValue").
  { cbn [fst]. intros H. injection H as <-. cbn. repeat split; reflexivity. }
  destruct (type_is origin "ifThen").
  { cbn [fst]. intros H. injection H as <-. cbn. repeat split; try discriminate.
    intros H. now apply fieldNameAt_not_null in H. }
  destruct (type_is origin "conversionMapping"); [|discriminate].
  pose proof (conversionInput_not_null nodes edges origin) as N.
  destruct (conversionInput nodes edges origin) as [field info]. cbn [fst] in *.
  intros H. injection H as <-.
  destruct (truthy info); cbn; repeat split; try discriminate; intros H; contradiction.
Qed.

(** X14: every exported mapping was produced for an edge of the canvas
    that enters a field of a target node and leaves a node of type
    source, staticValue, ifThen or conversionMapping; its [to] is the name
    of that field, its [type] is the one of the origin's arm, and its
    [from] is null exactly for a static mapping. *)
Theorem X14_exported_mapping_origin
  (nodes : list Node) (edges : list Edge) (name : string) (m : JSON) :
  In m (mappings (fst (exportExecutionMapping nodes edges name))) ->
  exists tn tf e origin,
    In tn nodes /\ type_is tn "target" = true
    /\ In tf (array_or_empty (jor (get "fields" (data tn)) (JArr [])))
    /\ In e edges /\ target e = id tn
    /\ strict_eq (hjson (targetHandle e)) (get "id" tf) = true
    /\ find_node nodes (source e) = Some origin /\ resolvable origin = true
    /\ get "to" m = get "name" tf
    /\ get "type" m = JStr (kindOf origin)
    /\ (get "from" m = JNull <-> kindOf origin = "static").
Proof.
  unfold exportExecutionMapping. cbn [fst mappings]. intros H.
  apply in_flat_map in H as (r & Hr & H). apply in_map_iff in Hr as (tn & <- & Htn).
  apply filter_In in Htn as [Htn Hty].
  unfold processTarget in H. cbn [fst] in H.
  apply in_flat_map in H as (r & Hr & H). apply in_map_iff in Hr as (tf & <- & Htf).
  unfold processField in H. cbn [fst] in H.
  apply in_flat_map in H as (r & Hr & H). apply in_map_iff in Hr as (e & <- & He).
  apply filter_In in He as [He Hf]. apply andb_true_iff in Hf as [Ht Hh].
  apply String.eqb_eq in Ht.
  destruct (fst (processEdge nodes edges tf e)) as [m'|] eqn:P; [|destruct H].
  destruct H as [<-|[]].
  destruct (processEdge_some _ _ _ _ _ P) as (origin & F & R & Hto & Hty' & Hfrom).
  exists tn, tf, e, origin. repeat split; try assumption; apply Hfrom.
Qed.

Lemma X14_exported_mapping_origin_witness :
  exists tn tf e origin,
    In tn [danglingSource; danglingTarget] /\ type_is tn "target" = true
    /\ In tf (array_or_empty (jor (get "fields" (data tn)) (JArr [])))
    /\ In e [danglingEdge] /\ target e = id tn
    /\ strict_eq (hjson (targetHandle e)) (get "id" tf) = true
    /\ find_node [danglingSource; danglingTarget] (source e) = Some origin
    /\ resolvable origin = true
    /\ JStr "total" = get "name" tf
    /\ JStr "direct" = JStr (kindOf origin)
    /\ (JStr "orders.amount" = JNull <-> kindOf origin = "static").
Proof.
  apply (X14_exported_mapping_origin [danglingSource; danglingTarget] [danglingEdge] "m"
           (JObj [("from", JStr "orders.amount"); ("to", JStr "total");
                  ("type", JStr "direct")])).
  left. reflexivity.
Defined.

Lemma set_entry_keys k v kv :
  map fst (set_entry k v kv)
  = if existsb (String.eqb k) (map fst kv) then map fst kv else (map fst kv ++ [k])%list.
Proof.
  induction kv as [|[k' v'] rest IH]; cbn [set_entry map fst existsb app]; [reflexivity|].
  destruct (String.eqb_spec k k') as [->|NE]; cbn [orb map fst]; [reflexivity|].
  rewrite IH. now destruct (existsb _ _).
Qed.

Lemma set_entry_nodup k v kv : NoDup (map fst kv) -> NoDup (map fst (set_entry k v kv)).
Proof.
  intros ND. rewrite set_entry_keys. destruct (existsb _ _) eqn:E; [assumption|].
  apply NoDup_app; [assumption|repeat constructor; intros []|].
  intros x Hx [Ex|[]]. subst x.
  assert (existsb (String.eqb k) (map fst kv) = true)
    by (apply existsb_exists; exists k; split; [assumption|apply String.eqb_refl]).
  congruence.
Qed.

Lemma hasKey_in k o : hasKey k o = true <-> In k (map fst o).
Proof.
  unfold hasKey. rewrite existsb_exists. split.
  - intros ([k' v] & H & E). apply String.eqb_eq in E. subst. now apply (in_map fst) in H.
  - intros H. apply in_map_iff in H as (e & <- & H). exists e. split; [assumption|].
    apply String.eqb_refl.
Qed.

Lemma hasKey_keys k o : hasKey k o = existsb (String.eqb k) (map fst o).
Proof. unfold hasKey. induction o as [|e o IH]; [reflexivity|]. cbn. now rewrite IH. Qed.

Lemma arrayIndex_text k n : arrayIndex k = Some n -> decimal n = k.
Proof.
  unfold arrayIndex. destruct k as [|c k]; [discriminate|].
  destruct (digitsValue _ 0) as [z|]; [|discriminate].
  destruct (String.eqb_spec (decimal z) (String c k)) as [E|]; [|discriminate].
  destruct (z <=? 4294967294)%Z; [|discriminate]. now intros [= <-].
Qed.

Lemma insertIndex_keys n k v o :
  Permutation (map fst (insertIndex n k v o)) (k :: map fst o).
Proof.
  induction o as [|[k' v'] rest IH]; cbn [insertIndex]; [reflexivity|].
  destruct (arrayIndex k'); [|reflexivity].
  destruct (n <? _)%Z; [reflexivity|]. cbn [map fst].
  rewrite IH. apply perm_swap.
Qed.

Lemma assoc_insertIndex_same n k v o :
  hasKey k o = false -> assoc k (insertIndex n k v o) = v.
Proof.
  induction o as [|[k' v'] rest IH]; cbn [insertIndex assoc hasKey existsb fst]; intros H.
  - now rewrite String.eqb_refl.
  - apply orb_false_elim in H as [Hk H].
    destruct (arrayIndex k'); [destruct (n <? _)%Z|]; cbn [assoc];
      rewrite ?String.eqb_refl, ?Hk; try reflexivity.
    now apply IH.
Qed.

Lemma assoc_insertIndex_other n k k' v o :
  k' <> k -> assoc k' (insertIndex n k v o) = assoc k' o.
Proof.
  intros NE. apply String.eqb_neq in NE.
  induction o as [|[k0 v0] rest IH]; cbn [insertIndex assoc]; [now rewrite NE|].
  destruct (arrayIndex k0); [destruct (n <? _)%Z|]; cbn [assoc]; rewrite ?NE; try reflexivity.
  now rewrite IH.
Qed.

Lemma assoc_append_same k v o : hasKey k o = false -> assoc k (o ++ [(k, v)]) = v.
Proof.
  induction o as [|[k' v'] rest IH]; cbn [app assoc hasKey existsb fst]; intros H.
  - now rewrite String.eqb_refl.
  - apply orb_false_elim in H as [Hk H]. rewrite Hk. now apply IH.
Qed.

Lemma assoc_append_other k k' v o : k' <> k -> assoc k' (o ++ [(k, v)]) = assoc k' o.
Proof.
  intros NE. apply String.eqb_neq in NE.
  induction o as [|[k0 v0] rest IH]; cbn [app assoc]; [now rewrite NE|]. now rewrite IH.
Qed.

Lemma assoc_defineOwn_same k v o : assoc k (defineOwn k v o) = v.
Proof.
  unfold defineOwn. destruct (hasKey k o) eqn:H; [apply assoc_set_same|].
  destruct (arrayIndex k); [now apply assoc_insertIndex_same|now apply assoc_append_same].
Qed.

Lemma assoc_defineOwn_other k k' v o : k' <> k -> assoc k' (defineOwn k v o) = assoc k' o.
Proof.
  intros NE. unfold defineOwn. destruct (hasKey k o).
  - now apply assoc_set_other.
  - destruct (arrayIndex k);
      [now apply assoc_insertIndex_other|now apply assoc_append_other].
Qed.

Lemma defineOwn_nodup k v o : NoDup (map fst o) -> NoDup (map fst (defineOwn k v o)).
Proof.
  intros ND. unfold defineOwn. destruct (hasKey k o) eqn:H.
  - now apply set_entry_nodup.
  - assert (N : ~ In k (map fst o)).
    { intros Hin. apply hasKey_in in Hin. congruence. }
    destruct (arrayIndex k).
    + eapply Permutation_NoDup; [symmetry; apply insertIndex_keys|]. now constructor.
    + rewrite map_app. apply NoDup_app; [assumption|repeat constructor; intros []|].
      intros x Hx [<-|[]]. contradiction.
Qed.

Lemma ordered_append ks k :
  ordered ks = true -> arrayIndex k = None -> ordered (ks ++ [k]) = true.
Proof.
  intros H Hk. induction ks as [|x ks IH]; [reflexivity|].
  cbn [app ordered] in *. apply andb_true_iff in H as [Hx H].
  rewrite forallb_app, Hx, (IH H). cbn [forallb]. unfold precedes. rewrite Hk.
  now destruct (arrayIndex x).
Qed.

Lemma ordered_insertIndex n k v o :
  arrayIndex k = Some n -> hasKey k o = false -> ordered (map fst o) = true ->
  ordered (map fst (insertIndex n k v o)) = true.
Proof.
  intros Hk. induction o as [|[k' v'] rest IH]; intros Hno Ho; [reflexivity|].
  cbn [hasKey existsb fst] in Hno. apply orb_false_elim in Hno as [Hkk Hno].
  cbn [map fst ordered] in Ho. apply andb_true_iff in Ho as [Hall Hrest].
  cbn [insertIndex]. destruct (arrayIndex k') as [n'|] eqn:Hk'.
  - destruct (Z.ltb_spec n n') as [Hlt|Hge].
    + cbn [map fst ordered forallb]. rewrite Hall, Hrest, !andb_true_r.
      apply andb_true_iff. split.
      * unfold precedes. rewrite Hk, Hk'. now apply Z.ltb_lt.
      * apply forallb_forall. intros x Hx. rewrite forallb_forall in Hall.
        specialize (Hall x Hx). unfold precedes in *. rewrite Hk. rewrite Hk' in Hall.
        destruct (arrayIndex x); [|reflexivity].
        apply Z.ltb_lt in Hall. apply Z.ltb_lt. lia.
    + cbn [map fst ordered]. rewrite (IH Hno Hrest), andb_true_r.
      apply forallb_forall. intros x Hx.
      apply (Permutation_in _ (insertIndex_keys n k v rest)) in Hx as [<-|Hx].
      * unfold precedes. rewrite Hk, Hk'. apply Z.ltb_lt.
        assert (n <> n').
        { intros ->. apply arrayIndex_text in Hk, Hk'. apply String.eqb_neq in Hkk.
          congruence. }
        lia.
      * rewrite forallb_forall in Hall. now apply Hall.
  - cbn [map fst ordered forallb]. rewrite Hall, Hrest, !andb_true_r.
    apply andb_true_iff. split.
    + unfold precedes. now rewrite Hk, Hk'.
    + apply forallb_forall. intros x Hx. rewrite forallb_forall in Hall.
      specialize (Hall x Hx). unfold precedes in *. rewrite Hk. rewrite Hk' in Hall.
      now destruct (arrayIndex x).
Qed.

Lemma defineOwn_ordered k v o :
  ordered (map fst o) = true -> ordered (map fst (defineOwn k v o)) = true.
Proof.
  intros H. unfold defineOwn. destruct (hasKey k o) eqn:Hk.
  - rewrite set_entry_keys, <- hasKey_keys, Hk. exact H.
  - destruct (arrayIndex k) as [n|] eqn:Hi.
    + now apply ordered_insertIndex.
    + rewrite map_app. now apply ordered_append.
Qed.

(** What the loop has built after the entries [ms]. *)
Lemma assignEntry_all k ms :
  let st := fold_left assignEntry ms (ObjectPrototype, []) in
  NoDup (map fst (snd st))
  /\ ordered (map fst (snd st)) = true
  /\ (k <> "__proto__" ->
      assoc k (snd st)
      = match find (fun m => String.eqb (toStr (get "from" m)) k) (rev ms) with
        | Some m => get "to" m
        | None => JUndef
        end)
  /\ ((forall m, In m ms -> toStr (get "from" m) = "__proto__" ->
                 ignoredBySetter (get "to" m) = true) ->
      fst st = ObjectPrototype /\ hasKey "__proto__" (snd st) = false).
Proof.
  induction ms as [|m ms (ND & Ord & Last & Hp)] using rev_ind.
  - cbn. repeat split; constructor.
  - rewrite fold_left_app, rev_app_distr. cbn [fold_left rev app find].
    destruct (fold_left assignEntry ms (ObjectPrototype, [])) as [proto o].
    cbn [fst snd] in *. unfold assignEntry.
    destruct (String.eqb_spec (toStr (get "from" m)) "__proto__") as [E|NE]; cbn [andb].
    + rewrite E.
      assert (Hk : k <> "__proto__" -> String.eqb "__proto__" k = false)
        by (intros N; apply String.eqb_neq; congruence).
      destruct (negb (hasKey "__proto__" o) && reachesSetter proto) eqn:S.
      * split; [destruct (get "to" m); assumption|].
        split; [destruct (get "to" m); assumption|]. split.
        -- intros N. rewrite (Hk N). destruct (get "to" m); now apply Last.
        -- intros H. destruct Hp as [-> Hno].
           { intros x Hx. apply H. apply in_or_app. now left. }
           assert (Hm : In m (ms ++ [m])) by (apply in_or_app; right; now left).
           specialize (H m Hm E).
           destruct (get "to" m); try discriminate H; now split.
      * cbn [snd fst]. split; [now apply defineOwn_nodup|].
        split; [now apply defineOwn_ordered|]. split.
        -- intros N. rewrite (Hk N), assoc_defineOwn_other by assumption. now apply Last.
        -- intros H. destruct Hp as [-> Hno].
           { intros x Hx. apply H. apply in_or_app. now left. }
           rewrite Hno in S. discriminate S.
    + cbn [snd fst]. split; [now apply defineOwn_nodup|].
      split; [now apply defineOwn_ordered|]. split.
      * intros N. destruct (String.eqb_spec (toStr (get "from" m)) k) as [<-|NEk].
        -- apply assoc_defineOwn_same.
        -- rewrite assoc_defineOwn_other by congruence. now apply Last.
      * intros H. destruct Hp as [-> Hno].
        { intros x Hx. apply H. apply in_or_app. now left. }
        split; [reflexivity|].
        destruct (hasKey "__proto__" (defineOwn _ _ o)) eqn:Hh; [|reflexivity].
        apply hasKey_in in Hh.
        assert (In "__proto__" (toStr (get "from" m) :: map fst o)).
        { unfold defineOwn in Hh. destruct (hasKey (toStr (get "from" m)) o) eqn:Hm.
          - rewrite set_entry_keys, <- hasKey_keys, Hm in Hh. now right.
          - destruct (arrayIndex _).
            + now apply (Permutation_in _ (insertIndex_keys _ _ _ _)) in Hh.
            + rewrite map_app in Hh. apply in_app_or in Hh as [Hh|[<-|[]]];
                [now right|now left]. }
        destruct H0 as [E|Hin]; [congruence|]. apply hasKey_in in Hin. congruence.
Qed.

(** X15: the own keys of the map object of a conversion node are
    pairwise different and stand in enumeration order, array indices
    first and increasing; under the text of a [from] value other than
    [__proto__] the object holds the [to] of the last entry with that
    [from], and nothing when no entry has it; entries whose [from] is
    [__proto__] add no key as long as their [to] is neither null nor an
    object, which the setter of the prototype would take. *)
Theorem X15_map_object_last_wins (conversionMappings : list JSON) (k : string) :
  let mapObject := buildMapObject (JArr conversionMappings) in
  NoDup (map fst mapObject)
  /\ ordered (map fst mapObject) = true
  /\ (k <> "__proto__" ->
      assoc k mapObject
      = match find (fun m => String.eqb (toStr (get "from" m)) k)
                   (rev conversionMappings) with
        | Some m => get "to" m
        | None => JUndef
        end)
  /\ ((forall m, In m conversionMappings -> toStr (get "from" m) = "__proto__" ->
                 ignoredBySetter (get "to" m) = true) ->
      assoc "__proto__" mapObject = JUndef).
Proof.
  cbv zeta. unfold buildMapObject.
  destruct (assignEntry_all k conversionMappings) as (ND & Ord & Last & Hp).
  repeat split; try assumption.
  intros H. destruct (Hp H) as [_ Hno].
  revert Hno. generalize (snd (fold_left assignEntry conversionMappings (ObjectPrototype, []))).
  intros o. induction o as [|[k' v'] o IH]; [reflexivity|].
  cbn [hasKey existsb fst assoc]. intros Hno. apply orb_false_elim in Hno as [-> Hno].
  now apply IH.
Qed.

Lemma X15_map_object_last_wins_witness :
  buildMapObject (JArr sampleTable) = [("9", JStr "4"); ("10", JStr "2"); ("b", JStr "5")]
  /\ assoc "b" (buildMapObject (JArr sampleTable)) = JStr "5"
  /\ assoc "__proto__" (buildMapObject (JArr sampleTable)) = JUndef.
Proof.
  split; [reflexivity|]. split.
  - apply (proj1 (proj2 (proj2 (X15_map_object_last_wins sampleTable "b")))). discriminate.
  - apply (proj2 (proj2 (proj2 (X15_map_object_last_wins sampleTable "b")))).
    intros m [<-|[<-|[<-|[<-|[<-|[]]]]]]; try discriminate; reflexivity.
Defined.

End ExecExporterMore.

(** ** getLatestMappings *)

Section LatestProps.
Import JS Flow MappingService MappingServiceMore.

Lemma group_eqb_spec a b : reflect (a = b) (group_eqb a b).
Proof.
  destruct a as [x|], b as [y|]; cbn [group_eqb]; try (constructor; congruence).
  destruct (String.eqb_spec x y); constructor; congruence.
Qed.

Lemma group_eqb_refl a : group_eqb a a = true.
Proof. now destruct (group_eqb_spec a a). Qed.

Lemma gm_get_set m g item g' :
  gm_get (gm_set m g item) g' = if group_eqb g g' then Some item else gm_get m g'.
Proof.
  unfold gm_get. induction m as [|[k r] rest IH]; cbn [gm_set find fst].
  - now destruct (group_eqb g g').
  - destruct (group_eqb_spec k g) as [->|NE]; cbn [find fst].
    + now destruct (group_eqb g g').
    + destruct (group_eqb_spec k g') as [->|NE'].
      * destruct (group_eqb_spec g g'); [congruence|reflexivity].
      * exact IH.
Qed.

Lemma gm_set_keys m g item :
  map fst (gm_set m g item)
  = if existsb (fun k => group_eqb k g) (map fst m) then map fst m
    else (map fst m ++ [g])%list.
Proof.
  induction m as [|[k r] rest IH]; cbn [gm_set map fst existsb app]; [reflexivity|].
  destruct (group_eqb k g); cbn [orb map fst]; [reflexivity|].
  rewrite IH. now destruct (existsb _ _).
Qed.

Lemma gm_set_nodup m g item : NoDup (map fst m) -> NoDup (map fst (gm_set m g item)).
Proof.
  intros ND. rewrite gm_set_keys. destruct (existsb _ _) eqn:E; [assumption|].
  apply NoDup_app; [assumption|repeat constructor; intros []|].
  intros x Hx [Ex|[]]. subst x.
  assert (existsb (fun k => group_eqb k g) (map fst m) = true)
    by (apply existsb_exists; exists g; split; [assumption|apply group_eqb_refl]).
  congruence.
Qed.

Lemma gm_set_in m g item k r :
  In (k, r) (gm_set m g item) -> (k = g /\ r = item) \/ In (k, r) m.
Proof.
  induction m as [|[k0 r0] rest IH]; cbn [gm_set In].
  - intros [E|[]]. injection E as <- <-. now left.
  - destruct (group_eqb_spec k0 g) as [->|NE]; cbn [In].
    + intros [E|H]; [injection E as <- <-; now left|right; now right].
    + intros [E|H]; [right; now left|]. destruct (IH H); [now left|right; now right].
Qed.

Lemma find_snoc {A} (p : A -> bool) l x :
  find p (l ++ [x])
  = match find p l with Some y => Some y | None => if p x then Some x else None end.
Proof.
  induction l as [|y l IH]; cbn [app find]; [reflexivity|]. now destruct (p y).
Qed.

Lemma representative_snoc g data x :
  representative g (data ++ [x])
  = match find (fun r => inGroupOf g r && is_active r) data with
    | Some r => Some r
    | None =>
        if inGroupOf g x && is_active x then Some x
        else match find (inGroupOf g) data with
             | Some r => Some r
             | None => if inGroupOf g x then Some x else None
             end
    end.
Proof.
  unfold representative. rewrite !find_snoc.
  destruct (find (fun r => inGroupOf g r && is_active r) data); [reflexivity|].
  now destruct (inGroupOf g x && is_active x).
Qed.

(** A representative that is not active means the group has no active
    row; one that is active is the first active row. *)
Lemma representative_cases g data r :
  representative g data = Some r ->
  if is_active r
  then find (fun r => inGroupOf g r && is_active r) data = Some r
  else find (fun r => inGroupOf g r && is_active r) data = None
       /\ find (inGroupOf g) data = Some r.
Proof.
  unfold representative.
  destruct (find (fun r => inGroupOf g r && is_active r) data) as [a|] eqn:Fa.
  - intros E. injection E as <-. apply find_some in Fa as [_ Ha].
    apply andb_true_iff in Ha as [_ ->]. reflexivity.
  - intros Fg. destruct (is_active r) eqn:Ar; [|now split].
    apply find_some in Fg as [Hin Hg]. apply (find_none _ _ Fa) in Hin.
    now rewrite Hg, Ar in Hin.
Qed.

Lemma representative_kept g data x :
  inGroupOf g x = false
  \/ (exists r, representative g data = Some r
                /\ (is_active x = false \/ is_active r = true)) ->
  representative g (data ++ [x]) = representative g data.
Proof.
  rewrite representative_snoc. intros [Hx|(r & Hr & Hact)].
  - rewrite Hx. cbn [andb]. unfold representative.
    destruct (find (fun r => inGroupOf g r && is_active r) data); [reflexivity|].
    now destruct (find (inGroupOf g) data).
  - pose proof (representative_cases _ _ _ Hr) as C. rewrite Hr.
    destruct (is_active r) eqn:Ar.
    + now rewrite C.
    + destruct C as [Ca Cg]. rewrite Ca, Cg.
      destruct Hact as [->|]; [|discriminate]. now rewrite andb_false_r.
Qed.

Lemma representative_replaced g data x :
  inGroupOf g x = true ->
  representative g data = None
  \/ (exists r, representative g data = Some r
                /\ is_active r = false /\ is_active x = true) ->
  representative g (data ++ [x]) = Some x.
Proof.
  rewrite representative_snoc. intros Hx [Hn|(r & Hr & Ar & Ax)].
  - unfold representative in Hn.
    destruct (find (fun r => inGroupOf g r && is_active r) data); [discriminate|].
    rewrite Hn, Hx. cbn [andb]. now destruct (is_active x).
  - pose proof (representative_cases _ _ _ Hr) as C. rewrite Ar in C.
    destruct C as [-> _]. now rewrite Hx, Ax.
Qed.

Lemma grouped_step data m x :
  grouped data m -> grouped (data ++ [x]) (groupStep m x).
Proof.
  intros [HK HG HE]. unfold groupStep.
  assert (Hself : inGroupOf (mapping_group_id x) x = true) by apply group_eqb_refl.
  assert (Hset : representative (mapping_group_id x) (data ++ [x]) = Some x ->
                 grouped (data ++ [x]) (gm_set m (mapping_group_id x) x)).
  { intros Hx. split.
    - now apply gm_set_nodup.
    - intros g. rewrite gm_get_set.
      destruct (group_eqb_spec (mapping_group_id x) g) as [<-|NE]; [now rewrite Hx|].
      rewrite HG. symmetry. apply representative_kept. left. unfold inGroupOf.
      now destruct (group_eqb_spec (mapping_group_id x) g).
    - intros k r H. apply gm_set_in in H as [[-> ->]|H]; [reflexivity|now apply HE]. }
  assert (Hkeep : forall existing,
            representative (mapping_group_id x) data = Some existing ->
            is_active x = false \/ is_active existing = true ->
            grouped (data ++ [x]) m).
  { intros existing Hr Hact. split; [assumption| |assumption].
    intros g. rewrite HG. symmetry. apply representative_kept.
    destruct (group_eqb_spec (mapping_group_id x) g) as [<-|NE].
    - right. now exists existing.
    - left. unfold inGroupOf. now destruct (group_eqb_spec (mapping_group_id x) g). }
  destruct (gm_get m (mapping_group_id x)) as [existing|] eqn:G; rewrite HG in G.
  - destruct (is_active x) eqn:Ax, (is_active existing) eqn:Ae; cbn [andb negb].
    + apply (Hkeep existing G). now right.
    + apply Hset, representative_replaced; [assumption|]. right. now exists existing.
    + apply (Hkeep existing G). now left.
    + apply (Hkeep existing G). now left.
  - apply Hset, representative_replaced; [assumption|now left].
Qed.

Lemma grouped_all data : grouped data (fold_left groupStep data []).
Proof.
  induction data as [|x data IH] using rev_ind.
  - split; [constructor|reflexivity|intros k r []].
  - rewrite fold_left_app. cbn [fold_left]. now apply grouped_step.
Qed.

Lemma find_values (m : GroupMap) g :
  (forall k r, In (k, r) m -> mapping_group_id r = k) ->
  find (inGroupOf g) (map snd m) = gm_get m g.
Proof.
  unfold gm_get, inGroupOf. induction m as [|[k r] rest IH]; intros H; [reflexivity|].
  cbn [map snd find fst]. rewrite (H k r) by now left.
  destruct (group_eqb k g); [reflexivity|]. apply IH. intros k' r' H'. apply H. now right.
Qed.

(** X16: when getLatestMappings returns, its rows carry pairwise
    different group ids, and the row returned for a group is the first
    active row of that group in the answer of the database, or the first
    row of the group when none of its rows is active; a group without
    rows has no row in the result.  It throws only for an empty user id
    or an error of the query. *)
Theorem X16_latest_one_per_group (answer : Select) (userId : string) (g : option string) :
  match getLatestMappings answer userId with
  | inr rows =>
      NoDup (map mapping_group_id rows)
      /\ find (inGroupOf g) rows
         = representative g (match sel_data answer with Some d => d | None => [] end)
  | inl _ => userId = "" \/ sel_error answer <> None
  end.
Proof.
  unfold getLatestMappings. destruct (String.eqb_spec userId ""); [now left|].
  destruct (sel_error answer); [right; discriminate|].
  generalize (match sel_data answer with Some d => d | None => [] end). intros data.
  destruct (grouped_all data) as [HK HG HE]. unfold latestByGroup. split.
  - assert (E : map mapping_group_id (map snd (fold_left groupStep data []))
                = map fst (fold_left groupStep data [])).
    { rewrite map_map. apply map_ext_in. intros [k r] H. cbn [fst snd]. now apply HE. }
    now rewrite E.
  - rewrite find_values by assumption. apply HG.
Qed.

End LatestProps.

(** ** copyMapping *)

Section CopyProps.
Import JS Flow MappingService MappingServiceMore.

Lemma single_row env rows r : single env rows = inr r -> rows = [r].
Proof.
  unfold single. destruct (fetch_error env); [discriminate|].
  destruct rows as [|x [|y rest]]; try discriminate. now intros [= ->].
Qed.

(** Inversion of a successful call. *)
Lemma copyMapping_ok env db mappingId userId newName transformType newMapping db' :
  copyMapping env db mappingId userId newName transformType = (inr newMapping, db') ->
  userId <> ""
  /\ (name_query_ok env = true -> nameTaken db userId (trim newName) = false)
  /\ db' = (db ++ [newMapping])%list
  /\ exists originalMapping,
       filter (fun r => String.eqb (MappingService.id r) mappingId
                        && String.eqb (user_id r) userId) db = [originalMapping]
       /\ newMapping = copyOf env originalMapping userId newName transformType.
Proof.
  unfold copyMapping. destruct (String.eqb_spec userId ""); [discriminate|].
  destruct (name_query_ok env && nameTaken db userId (trim newName)) eqn:T; [discriminate|].
  destruct (single env _) as [m|o] eqn:S; [discriminate|].
  destruct (copy_insert_error env); [discriminate|].
  intros [= <- <-]. repeat split; try assumption.
  - intros Q. now rewrite Q in T.
  - exists o. split; [now apply single_row in S|reflexivity].
Qed.

(** X17: a call of copyMapping that throws leaves the table as it was; a
    call that returns has appended one record and changed nothing else:
    an active record of version v1.01 under the trimmed new name, in the
    generated group, with the category, description and tags of the one
    record of the caller that carries the given id. *)
Theorem X17_copy_appends_one_record
  (env : CopyEnv) (db : Table) (mappingId userId newName : string)
  (transformType : option string) :
  match copyMapping env db mappingId userId newName transformType with
  | (inl _, db') => db' = db
  | (inr newMapping, db') =>
      db' = (db ++ [newMapping])%list
      /\ is_active newMapping = true
      /\ version newMapping = "v1.01"
      /\ MappingService.name newMapping = trim newName
      /\ user_id newMapping = userId
      /\ mapping_group_id newMapping = Some (copy_randomUUID env)
      /\ exists originalMapping,
           In originalMapping db
           /\ MappingService.id originalMapping = mappingId
           /\ user_id originalMapping = userId
           /\ category newMapping = category originalMapping
           /\ description newMapping = description originalMapping
           /\ tags newMapping = tags originalMapping
           /\ ui_nodes (ui_config newMapping) = ui_nodes (ui_config originalMapping)
           /\ ui_edges (ui_config newMapping) = ui_edges (ui_config originalMapping)
  end.
Proof.
  destruct (copyMapping env db mappingId userId newName transformType) as [[e|n] db'] eqn:E.
  - revert E. unfold copyMapping.
    repeat match goal with
           | |- context [if ?b then _ else _] => destruct b
           | |- context [match ?x with _ => _ end] => destruct x
           end; now intros [= <- <-].
  - apply copyMapping_ok in E as (_ & _ & -> & o & F & ->).
    repeat split. exists o.
    assert (Ho : In o (filter (fun r => String.eqb (MappingService.id r) mappingId
                                        && String.eqb (user_id r) userId) db))
      by (rewrite F; now left).
    apply filter_In in Ho as [Hin Hp]. apply andb_true_iff in Hp as [Hi Hu].
    apply String.eqb_eq in Hi, Hu. repeat split; assumption.
Qed.

Lemma activeInGroup_app u g db1 db2 :
  activeInGroup u g (db1 ++ db2)%list
  = (activeInGroup u g db1 ++ activeInGroup u g db2)%list.
Proof. apply filter_app. Qed.

Lemma nameTaken_app db1 db2 u n :
  nameTaken (db1 ++ db2)%list u n = nameTaken db1 u n || nameTaken db2 u n.
Proof. apply existsb_app. Qed.

(** X18: when copyMapping returns and the generated group id was carried
    by no record, the copy is the only active record of its group, the
    active records of every other group are the ones from before (the
    original stays active), and a further copy under the same new name is
    refused, whatever its source, without a write. *)
Theorem X18_copy_has_its_own_group
  (env : CopyEnv) (db db' : Table) (mappingId userId newName : string)
  (transformType : option string) (newMapping : Row) :
  (forall r, In r db -> mapping_group_id r <> Some (copy_randomUUID env)) ->
  copyMapping env db mappingId userId newName transformType = (inr newMapping, db') ->
  activeInGroup userId (copy_randomUUID env) db' = [newMapping]
  /\ (forall g, g <> copy_randomUUID env ->
                activeInGroup userId g db' = activeInGroup userId g db)
  /\ (forall env2 mappingId2 transformType2,
        name_query_ok env2 = true ->
        copyMapping env2 db' mappingId2 userId newName transformType2
        = (inl ("A mapping with the name " ++ quote ++ trim newName ++ quote
                ++ " already exists. Please choose a different name."), db')).
Proof.
  intros Hfresh E. apply copyMapping_ok in E as (Hu & _ & -> & o & _ & ->).
  split; [|split].
  - rewrite activeInGroup_app.
    assert (N : activeInGroup userId (copy_randomUUID env) db = []).
    { unfold activeInGroup. induction db as [|r db IH]; [reflexivity|]. cbn [filter].
      pose proof (fresh_not_inGroup userId _ (r :: db) Hfresh r (or_introl eq_refl)) as F.
      unfold inGroup in F. rewrite F.
      cbn [andb]. apply IH. intros r' H. apply Hfresh. now right. }
    rewrite N. unfold activeInGroup. cbn [app filter copyOf user_id mapping_group_id is_active col_eq].
    now rewrite !String.eqb_refl.
  - intros g Hg. rewrite activeInGroup_app. unfold activeInGroup at 2.
    cbn [filter copyOf user_id mapping_group_id is_active col_eq].
    destruct (String.eqb_spec (copy_randomUUID env) g) as [E|_]; [congruence|].
    rewrite andb_false_r. cbn [andb]. apply app_nil_r.
  - intros env2 mappingId2 transformType2 Q. unfold copyMapping.
    destruct (String.eqb_spec userId ""); [contradiction|].
    rewrite Q, nameTaken_app. unfold nameTaken at 2.
    cbn [existsb copyOf user_id MappingService.name].
    now rewrite !String.eqb_refl, orb_true_r.
Qed.

Lemma X18_copy_has_its_own_group_witness :
  activeInGroup "u1" "g9" (snd (copyMapping copyEnv1 [ordersV1; ordersV2] "id2" "u1"
                                  " orders copy " None))
  = [copyOf copyEnv1 ordersV2 "u1" " orders copy " None].
Proof.
  refine (proj1 (X18_copy_has_its_own_group copyEnv1 [ordersV1; ordersV2] _ "id2" "u1"
                   " orders copy " None _ _ eq_refl)).
  intros r [<-|[<-|[]]]; discriminate.
Defined.

End CopyProps.

(** ** What the table operations keep *)

Section TableFrame.
Import JS Flow MappingService MappingServiceMore MappingServiceFacts.

Lemma firstn_exact {A} (l l' : list A) : firstn (List.length l) (l ++ l') = l.
Proof. induction l as [|x l IH]; [reflexivity|]. cbn [List.length app firstn]. now rewrite IH. Qed.

Lemma keeps_refl u db : keeps u db db.
Proof.
  split; [lia|]. rewrite firstn_all. induction db; constructor; [now left|assumption].
Qed.

Lemma keeps_update u b p db :
  (forall r, p r = true -> user_id r = u) -> keeps u db (update_active b p db).
Proof.
  intros Hp. unfold keeps, update_active. rewrite length_map. split; [lia|].
  rewrite <- (length_map (fun r => if p r then set_active b r else r) db), firstn_all.
  induction db as [|r db IH]; cbn [map]; constructor; [|exact IH].
  destruct (p r) eqn:E; [right|now left]. split; [now apply Hp|reflexivity].
Qed.

Lemma keeps_snoc u db db1 x :
  keeps u db db1 -> List.length db1 = List.length db -> keeps u db (db1 ++ [x])%list.
Proof.
  intros [_ H] L. split; [rewrite length_app; cbn [List.length]; lia|].
  rewrite <- L, firstn_exact. now rewrite <- L, firstn_all in H.
Qed.

Lemma update_active_length b p db : List.length (update_active b p db) = List.length db.
Proof. apply length_map. Qed.

Lemma and_user_l u (q : bool) r :
  String.eqb (user_id r) u && q = true -> user_id r = u.
Proof. intros H. apply andb_true_iff in H as [H _]. now apply String.eqb_eq. Qed.

Lemma and_user_r u (q : bool) r :
  q && String.eqb (user_id r) u = true -> user_id r = u.
Proof. intros H. apply andb_true_iff in H as [_ H]. now apply String.eqb_eq. Qed.

Lemma saveMapping_keeps env db a : keeps (a_userId a) db (snd (saveMapping env db a)).
Proof.
  assert (D : forall g, keeps (a_userId a) db
                          (update_active false
                             (fun r => String.eqb (user_id r) (a_userId a)
                                       && col_eq (mapping_group_id r) g) db)).
  { intros g. apply keeps_update. intros r. apply and_user_l. }
  unfold saveMapping.
  destruct (String.eqb (a_userId a) ""); [apply keeps_refl|].
  destruct (findExisting env db (a_userId a) (a_name a)) as [e|].
  - cbv iota.
    destruct (if present (a_providedVersion a) then _ else _) as [m|v]; [apply keeps_refl|].
    destruct (deactivate_error env); [apply keeps_refl|].
    destruct (insert_error env); cbn [snd]; [apply D|].
    apply keeps_snoc; [apply D|apply update_active_length].
  - destruct (conflict_query_ok env && _); [apply keeps_refl|].
    destruct (if present (a_providedVersion a) then _ else _) as [m|v]; [apply keeps_refl|].
    destruct (insert_error env); cbn [snd]; [apply keeps_refl|].
    apply keeps_snoc; [apply keeps_refl|reflexivity].
Qed.

Lemma keeps_map u (f : Row -> Row) db :
  (forall r, f r = r \/ (user_id r = u /\ content (f r) = content r)) ->
  keeps u db (map f db).
Proof.
  intros Hf. unfold keeps. rewrite length_map. split; [lia|].
  rewrite <- (length_map f db), firstn_all.
  induction db as [|r db IH]; cbn [map]; constructor; [apply Hf|exact IH].
Qed.

Lemma activateVersion_keeps env db id u name category :
  keeps u db (snd (activateVersion env db id u name category)).
Proof.
  unfold activateVersion.
  destruct (String.eqb u ""); [apply keeps_refl|].
  destruct (act_deactivate_error env); [apply keeps_refl|].
  destruct (act_activate_error env); cbn [snd].
  - apply keeps_update. intros r H. apply andb_true_iff in H as [H _].
    now apply and_user_l in H.
  - unfold update_active. rewrite map_map. apply keeps_map. intros r.
    destruct (String.eqb (user_id r) u && String.eqb (MappingService.name r) name
              && categoryFilter category r) eqn:P.
    + right. split.
      * apply andb_true_iff in P as [P _]. now apply and_user_l in P.
      * cbn [set_active MappingService.id user_id].
        destruct (String.eqb (MappingService.id r) id && String.eqb (user_id r) u);
          reflexivity.
    + destruct (String.eqb (MappingService.id r) id && String.eqb (user_id r) u) eqn:Q;
        [right|now left].
      split; [now apply and_user_r in Q|reflexivity].
Qed.

(** X19: saveMapping, activateVersion, toggleMappingStatus and
    copyMapping, returning or throwing, keep every record of the table in
    its place and add at most one; a record they change belongs to the
    caller and changes in its activity flag only.  deleteMapping removes
    nothing but records of the caller with the given id. *)
Theorem X19_operations_keep_the_table (db : Table) (userId : string) :
  (forall env a, keeps (a_userId a) db (snd (saveMapping env db a)))
  /\ (forall env id name category,
        keeps userId db (snd (activateVersion env db id userId name category)))
  /\ (forall error id isActive,
        keeps userId db (snd (toggleMappingStatus error db id userId isActive)))
  /\ (forall env mappingId newName transformType,
        keeps userId db (snd (copyMapping env db mappingId userId newName transformType)))
  /\ (forall error id,
        snd (deleteMapping error db id userId) = db
        \/ snd (deleteMapping error db id userId)
           = filter (fun r => negb (isRecord id userId r)) db).
Proof.
  split; [|split; [|split; [|split]]].
  - intros env a. apply saveMapping_keeps.
  - intros. apply activateVersion_keeps.
  - intros error id isActive. unfold toggleMappingStatus.
    destruct (String.eqb userId ""); [apply keeps_refl|].
    destruct error; cbn [snd]; [apply keeps_refl|].
    apply keeps_update. intros r. apply and_user_r.
  - intros env mappingId newName transformType. unfold copyMapping.
    repeat match goal with
           | |- context [if ?b then _ else _] => destruct b
           | |- context [match ?x with _ => _ end] => destruct x
           end; cbn [snd]; try apply keeps_refl.
    apply keeps_snoc; [apply keeps_refl|reflexivity].
  - intros error id. unfold deleteMapping.
    destruct (String.eqb userId ""); [now left|]. destruct error; [now left|now right].
Qed.

End TableFrame.

(** ** Failures and sequences of table operations *)

Section TableSequences.
Import JS Flow MappingService MappingServiceMore MappingServiceFacts.

Lemma findExisting_single env db u n e :
  existing_query_ok env = true -> activeNamed u n db = [e] ->
  findExisting env db u n = Some e.
Proof. unfold findExisting, activeNamed. now intros -> ->. Qed.

Lemma findExisting_none env db u n :
  activeNamed u n db = [] -> findExisting env db u n = None.
Proof. unfold findExisting, activeNamed. intros ->. now destruct (existing_query_ok env). Qed.

(** A save under the name of the one active mapping of the caller. *)
Lemma saveMapping_new_version env db a e g v :
  a_userId a <> "" ->
  findExisting env db (a_userId a) (a_name a) = Some e ->
  mapping_group_id e = Some g -> g <> "" ->
  versionOf env a = inr v ->
  deactivate_error env = None -> insert_error env = None ->
  exists saved,
    saveMapping env db a
    = (inr saved, (update_active false (inGroup (a_userId a) g) db ++ [saved])%list)
    /\ mapping_group_id saved = Some g
    /\ user_id saved = a_userId a
    /\ MappingService.name saved = a_name a
    /\ version saved = v
    /\ is_active saved = true
    /\ (a_category a = "General" -> category saved = Some (opt_or (category e) "General")).
Proof.
  intros Hu Ex Hg Hne Hv Hd Hi. unfold saveMapping.
  apply String.eqb_neq in Hu. rewrite Hu, Ex. cbv iota.
  unfold versionOf in Hv. rewrite Hv, Hd, Hi, Hg.
  assert (G : opt_or (Some g) (randomUUID env) = g).
  { cbn [opt_or]. apply String.eqb_neq in Hne. now rewrite Hne. }
  rewrite G. eexists. split; [reflexivity|].
  cbn [mapping_group_id user_id MappingService.name version is_active category].
  repeat split. intros ->. reflexivity.
Qed.

(** A save under a name that other records of the caller carry while no
    single active one does. *)
Lemma saveMapping_refused env db a :
  a_userId a <> "" ->
  findExisting env db (a_userId a) (a_name a) = None ->
  conflict_query_ok env = true ->
  nameTaken db (a_userId a) (trim (a_name a)) = true ->
  saveMapping env db a
  = (inl ("A mapping with the name " ++ quote ++ trim (a_name a) ++ quote
          ++ " already exists. Please choose a different name."), db).
Proof.
  intros Hu Ex Hq Ht. unfold saveMapping.
  apply String.eqb_neq in Hu. rewrite Hu, Ex, Hq. unfold nameTaken in Ht. now rewrite Ht.
Qed.

(** X20: when the insert of saveMapping fails after the versions of the
    existing group were deactivated, the call throws and the table keeps
    the deactivation: the group, which had an active version, is left
    without one. *)
Theorem X20_failed_insert_leaves_group_inactive
  (env : SaveEnv) (db : Table) (a : SaveArgs) (e : Row) (g v message : string) :
  a_userId a <> "" ->
  findExisting env db (a_userId a) (a_name a) = Some e ->
  mapping_group_id e = Some g -> g <> "" ->
  versionOf env a = inr v ->
  deactivate_error env = None -> insert_error env = Some message ->
  saveMapping env db a
  = (inl ("Failed to save mapping: " ++ message),
     update_active false (inGroup (a_userId a) g) db)
  /\ In e (activeInGroup (a_userId a) g db)
  /\ activeInGroup (a_userId a) g (snd (saveMapping env db a)) = [].
Proof.
  intros Hu Ex Hg Hne Hv Hd Hi.
  assert (R : saveMapping env db a
              = (inl ("Failed to save mapping: " ++ message),
                 update_active false (inGroup (a_userId a) g) db)).
  { unfold saveMapping. pose proof Hu as Hu'.
    apply String.eqb_neq in Hu'. rewrite Hu', Ex. cbv iota.
    unfold versionOf in Hv. rewrite Hv, Hd, Hi, Hg.
    cbn [opt_or]. apply String.eqb_neq in Hne. now rewrite Hne. }
  split; [exact R|]. split.
  - unfold findExisting in Ex. destruct (existing_query_ok env); [|discriminate].
    destruct (filter _ db) as [|x [|y rest]] eqn:F; try discriminate.
    injection Ex as ->.
    assert (H : In e (filter (fun r => String.eqb (user_id r) (a_userId a)
                                       && String.eqb (MappingService.name r) (a_name a)
                                       && is_active r) db)) by (rewrite F; now left).
    apply filter_In in H as [Hin Hp]. apply andb_true_iff in Hp as [Hp Ha].
    apply andb_true_iff in Hp as [Hp _].
    apply filter_In. split; [assumption|].
    rewrite Hp, Ha, Hg. cbn [col_eq]. now rewrite String.eqb_refl.
  - rewrite R. cbn [snd]. apply activeInGroup_deactivated.
Qed.

Lemma X20_failed_insert_leaves_group_inactive_witness :
  activeInGroup "u1" "g1" (snd (saveMapping saveEnv2 [generalV1] saveArgs1)) = [].
Proof.
  refine (proj2 (proj2 (X20_failed_insert_leaves_group_inactive saveEnv2 [generalV1] saveArgs1
                          generalV1 "g1" "v1.02" "timeout" _ _ _ _ _ _ _)));
    try reflexivity; discriminate.
Defined.

Lemma partition_deactivated u n c db :
  filter (fun r => inPartition u n c r && is_active r)
         (update_active false (inPartition u n c) db) = [].
Proof.
  unfold update_active. induction db as [|r db IH]; [reflexivity|]. cbn [map filter].
  destruct (inPartition u n c r) eqn:E.
  - unfold inPartition in *. cbn [set_active user_id MappingService.name is_active].
    assert (C : categoryFilter c (set_active false r) = categoryFilter c r) by reflexivity.
    rewrite C, andb_false_r. exact IH.
  - rewrite E. exact IH.
Qed.

(** X21: when the activation statement of activateVersion fails after the
    deactivation went through, the call throws and every record of the
    caller under that name and category filter is left inactive, the
    targeted version included. *)
Theorem X21_failed_activation_leaves_none_active
  (env : ActivateEnv) (db : Table) (id userId name message : string)
  (category : option string) :
  userId <> "" ->
  act_deactivate_error env = None -> act_activate_error env = Some message ->
  activateVersion env db id userId name category
  = (inl ("Failed to activate mapping version: " ++ message),
     update_active false (inPartition userId name category) db)
  /\ filter (fun r => inPartition userId name category r && is_active r)
            (snd (activateVersion env db id userId name category)) = [].
Proof.
  intros Hu Hd Ha.
  assert (R : activateVersion env db id userId name category
              = (inl ("Failed to activate mapping version: " ++ message),
                 update_active false (inPartition userId name category) db)).
  { unfold activateVersion. apply String.eqb_neq in Hu. now rewrite Hu, Hd, Ha. }
  split; [exact R|]. rewrite R. apply partition_deactivated.
Qed.

Lemma X21_failed_activation_leaves_none_active_witness :
  filter (fun r => inPartition "u1" "orders" (Some "General") r && is_active r)
         (snd (activateVersion (mkActivateEnv None (Some "timeout")) [generalV1; generalV2]
                 "id2" "u1" "orders" (Some "General"))) = [].
Proof.
  refine (proj2 (X21_failed_activation_leaves_none_active
                   (mkActivateEnv None (Some "timeout")) [generalV1; generalV2]
                   "id2" "u1" "orders" "timeout" (Some "General") _ _ _));
    try reflexivity; discriminate.
Defined.

Lemma activeNamed_none u n db :
  (forall r, In r db -> user_id r = u -> MappingService.name r = n -> is_active r = false) ->
  activeNamed u n db = [].
Proof.
  intros H. unfold activeNamed. induction db as [|r db IH]; [reflexivity|]. cbn [filter].
  rewrite IH by (intros r' Hr'; apply H; now right).
  destruct (String.eqb_spec (user_id r) u) as [Eu|]; [|reflexivity].
  destruct (String.eqb_spec (MappingService.name r) n) as [En|]; [|reflexivity].
  now rewrite (H r (or_introl eq_refl) Eu En).
Qed.

Lemma nameTaken_in db u n r :
  In r db -> user_id r = u -> MappingService.name r = n -> nameTaken db u n = true.
Proof.
  intros Hin Hu Hn. apply existsb_exists. exists r. split; [assumption|].
  now rewrite Hu, Hn, !String.eqb_refl.
Qed.

(** X22: let the caller have at most one active record under a name
    that carries no white space at either end, and let the look-up of
    conflicting names be answered.  Once that record has been switched
    off with toggleMappingStatus, or deleted while another record of the
    caller under that name remains, saveMapping no longer accepts the
    name: it finds no active mapping to continue, treats the save as a
    new mapping, meets the remaining records of that name (after the
    toggle, the switched-off record itself) and throws without a write. *)
Theorem X22_save_refused_without_active_version
  (env : SaveEnv) (db : Table) (a : SaveArgs) (active : Row) :
  a_userId a <> "" -> trim (a_name a) = a_name a ->
  conflict_query_ok env = true ->
  In active db ->
  (forall r, In r db -> user_id r = a_userId a -> MappingService.name r = a_name a ->
             is_active r = true -> MappingService.id r = MappingService.id active) ->
  let refused (db1 : Table) :=
    saveMapping env db1 a
    = (inl ("A mapping with the name " ++ quote ++ a_name a ++ quote
            ++ " already exists. Please choose a different name."), db1) in
  (user_id active = a_userId a -> MappingService.name active = a_name a ->
   refused (snd (toggleMappingStatus None db (MappingService.id active) (a_userId a) false)))
  /\ (forall older, In older db ->
        user_id older = a_userId a -> MappingService.name older = a_name a ->
        MappingService.id older <> MappingService.id active ->
        refused (snd (deleteMapping None db (MappingService.id active) (a_userId a)))).
Proof.
  intros Hu Ht Hq Ha Huniq refused. unfold refused.
  pose proof Hu as Hu'. apply String.eqb_neq in Hu'.
  unfold toggleMappingStatus, deleteMapping. rewrite Hu'. cbn [snd].
  split; [intros Hau Han|intros older Ho Hou Hon Hoid];
    rewrite <- Ht at 1; apply saveMapping_refused; try assumption.
  - apply findExisting_none, activeNamed_none. intros r Hr Hru Hrn.
    unfold update_active in Hr. apply in_map_iff in Hr as (r0 & <- & Hr0).
    destruct (String.eqb (MappingService.id r0) _ && String.eqb (user_id r0) _) eqn:E;
      [reflexivity|].
    destruct (is_active r0) eqn:A; [|reflexivity].
    rewrite (Huniq r0 Hr0 Hru Hrn A), Hru, !String.eqb_refl in E. discriminate.
  - rewrite Ht. apply nameTaken_in with (set_active false active); try assumption.
    unfold update_active. apply in_map_iff. exists active. split; [|assumption].
    now rewrite Hau, !String.eqb_refl.
  - apply findExisting_none, activeNamed_none. intros r Hr Hru Hrn.
    apply filter_In in Hr as [Hr Hk].
    destruct (is_active r) eqn:A; [|reflexivity].
    rewrite (Huniq r Hr Hru Hrn A), Hru, !String.eqb_refl in Hk. discriminate.
  - rewrite Ht. apply nameTaken_in with older; try assumption.
    apply filter_In. split; [assumption|].
    destruct (String.eqb_spec (MappingService.id older) (MappingService.id active));
      [contradiction|reflexivity].
Qed.

Lemma X22_save_refused_without_active_version_witness :
  saveMapping saveEnv1
    (snd (toggleMappingStatus None [generalV1] "id1" "u1" false)) saveArgs1
  = (inl ("A mapping with the name " ++ quote ++ "orders" ++ quote
          ++ " already exists. Please choose a different name."),
     [set_active false generalV1])
  /\ saveMapping saveEnv1
       (snd (deleteMapping None [ordersV1; ordersV2] "id2" "u1")) saveArgs1
     = (inl ("A mapping with the name " ++ quote ++ "orders" ++ quote
             ++ " already exists. Please choose a different name."),
        [ordersV1]).
Proof.
  split.
  - refine (proj1 (X22_save_refused_without_active_version saveEnv1 [generalV1]
                     saveArgs1 generalV1 _ _ _ _ _) _ _);
      try reflexivity; try discriminate.
    + left; reflexivity.
    + intros r [<-|[]] _ _ _; reflexivity.
  - refine (proj2 (X22_save_refused_without_active_version saveEnv1 [ordersV1; ordersV2]
                     saveArgs1 ordersV2 _ _ _ _ _) ordersV1 _ _ _ _);
      try reflexivity; try discriminate.
    + right; left; reflexivity.
    + intros r [<-|[<-|[]]] _ _; [discriminate|reflexivity].
    + left; reflexivity.
Defined.

End TableSequences.

(** ** Saving after a save, and after a copy *)

Section SaveSequences.
Import JS Flow MappingService MappingServiceMore MappingServiceFacts.

Lemma activeNamed_app u n db1 db2 :
  activeNamed u n (db1 ++ db2)%list = (activeNamed u n db1 ++ activeNamed u n db2)%list.
Proof. apply filter_app. Qed.

Lemma update_active_app b p db1 db2 :
  update_active b p (db1 ++ db2)%list
  = (update_active b p db1 ++ update_active b p db2)%list.
Proof. apply map_app. Qed.

(** X23: a first save under a name that no active record of the caller
    carries opens a group; a second save under the same name, by the same
    caller, continues that group: it returns a record with the same
    mapping_group_id, the first record is switched off, the second is
    the only active record of the group, and with the default category
    it takes over the stored category of the first (the default itself
    when that is empty). *)
Theorem X23_second_save_continues_the_group
  (env1 env2 : SaveEnv) (db db1 : Table) (a1 a2 : SaveArgs) (first : Row) (v2 : string) :
  activeNamed (a_userId a1) (a_name a1) db = [] ->
  randomUUID env1 <> "" ->
  saveMapping env1 db a1 = (inr first, db1) ->
  a_userId a2 = a_userId a1 -> a_name a2 = a_name a1 ->
  existing_query_ok env2 = true ->
  versionOf env2 a2 = inr v2 ->
  deactivate_error env2 = None -> insert_error env2 = None ->
  exists second,
    saveMapping env2 db1 a2
    = (inr second,
       (update_active false (inGroup (a_userId a1) (randomUUID env1)) db
        ++ [set_active false first; second])%list)
    /\ mapping_group_id first = Some (randomUUID env1)
    /\ mapping_group_id second = Some (randomUUID env1)
    /\ version second = v2
    /\ activeInGroup (a_userId a1) (randomUUID env1) (snd (saveMapping env2 db1 a2))
       = [second]
    /\ (a_category a2 = "General" ->
        category second = Some (opt_or (category first) "General")).
Proof.
  intros Hnone Huuid S1 Hu2 Hn2 Hq Hv Hd Hi.
  assert (F : a_userId a1 <> "" /\ db1 = (db ++ [first])%list
              /\ mapping_group_id first = Some (randomUUID env1)
              /\ user_id first = a_userId a1
              /\ MappingService.name first = a_name a1
              /\ is_active first = true).
  { revert S1. unfold saveMapping.
    destruct (String.eqb_spec (a_userId a1) ""); [discriminate|].
    rewrite (findExisting_none env1 db _ _ Hnone).
    destruct (conflict_query_ok env1 && _); [discriminate|].
    destruct (if present (a_providedVersion a1) then _ else _) as [m|v]; [discriminate|].
    destruct (insert_error env1); [discriminate|].
    intros [= <- <-]. repeat split. assumption. }
  destruct F as (Hu & -> & Hg & Hfu & Hfn & Hfa).
  assert (Ex : findExisting env2 (db ++ [first])%list (a_userId a2) (a_name a2) = Some first).
  { apply findExisting_single; [assumption|]. rewrite Hu2, Hn2, activeNamed_app, Hnone.
    unfold activeNamed. cbn [app filter]. now rewrite Hfu, Hfn, Hfa, !String.eqb_refl. }
  destruct (saveMapping_new_version env2 _ a2 first _ v2
              ltac:(now rewrite Hu2) Ex Hg Huuid Hv Hd Hi)
    as (second & R & Hsg & Hsu & Hsn & Hsv & Hsa & Hsc).
  exists second. rewrite R, Hu2 in *. cbn [snd].
  assert (T : (update_active false (inGroup (a_userId a1) (randomUUID env1))
                 (db ++ [first]) ++ [second])%list
              = (update_active false (inGroup (a_userId a1) (randomUUID env1)) db
                 ++ [set_active false first; second])%list).
  { rewrite update_active_app, <- app_assoc. f_equal. cbn [update_active map app].
    unfold inGroup. rewrite Hfu, Hg. cbn [col_eq]. now rewrite !String.eqb_refl. }
  repeat split; try assumption.
  - now rewrite T.
  - now apply activeInGroup_after_insert.
Qed.

Lemma X23_second_save_continues_the_group_witness :
  exists second,
    saveMapping saveEnv3 (snd (saveMapping saveEnv1 [] saveArgs1)) saveArgs1
    = (inr second,
       (update_active false (inGroup "u1" "g2") []
        ++ [set_active false (mkRow "id2" "u1" "orders" "v1.02" (Some "General") None
                                (Some []) (Some "JsonToJson") (Some "g2")
                                (mkUiConfig "orders" "v1.02" "General" None [] [] []
                                   (mkMetadata "u1" "2025-01-01T00:00:00.000Z" "u1"))
                                JUndef true);
            second])%list)
    /\ mapping_group_id second = Some "g2".
Proof.
  destruct (X23_second_save_continues_the_group saveEnv1 saveEnv3 [] _ saveArgs1 saveArgs1
              _ "v1.03" eq_refl ltac:(discriminate) eq_refl eq_refl eq_refl eq_refl eq_refl
              eq_refl eq_refl)
    as (second & R & _ & G & _).
  exists second. split; [exact R|exact G].
Defined.

(** X24: after copyMapping has returned, with its name look-up answered
    and a generated group id that is not empty, a save under the trimmed
    new name continues the group of the copy: the copy is switched off
    and the saved record is the only active record of that group. *)
Theorem X24_save_after_copy_continues_the_copy
  (cenv : CopyEnv) (env : SaveEnv) (db db1 : Table) (mappingId userId newName : string)
  (transformType : option string) (copy : Row) (a : SaveArgs) (v : string) :
  name_query_ok cenv = true -> copy_randomUUID cenv <> "" ->
  copyMapping cenv db mappingId userId newName transformType = (inr copy, db1) ->
  a_userId a = userId -> a_name a = trim newName ->
  existing_query_ok env = true ->
  versionOf env a = inr v ->
  deactivate_error env = None -> insert_error env = None ->
  exists saved,
    fst (saveMapping env db1 a) = inr saved
    /\ mapping_group_id saved = mapping_group_id copy
    /\ In (set_active false copy) (snd (saveMapping env db1 a))
    /\ activeInGroup userId (copy_randomUUID cenv) (snd (saveMapping env db1 a)) = [saved].
Proof.
  intros Hq Huuid C Hu Hn Hq2 Hv Hd Hi.
  apply copyMapping_ok in C as (Hne & Hfree & -> & o & _ & ->).
  specialize (Hfree Hq).
  assert (Hnone : activeNamed userId (trim newName) db = []).
  { apply activeNamed_none. intros r Hr Hru Hrn.
    pose proof (nameTaken_in db userId (trim newName) r Hr Hru Hrn). congruence. }
  set (copy := copyOf cenv o userId newName transformType).
  assert (Ex : findExisting env (db ++ [copy])%list (a_userId a) (a_name a) = Some copy).
  { apply findExisting_single; [assumption|]. rewrite Hu, Hn, activeNamed_app, Hnone.
    unfold activeNamed, copy. cbn [app filter copyOf user_id MappingService.name is_active].
    now rewrite !String.eqb_refl. }
  destruct (saveMapping_new_version env _ a copy (copy_randomUUID cenv) v
              ltac:(now rewrite Hu) Ex eq_refl Huuid Hv Hd Hi)
    as (saved & R & Hsg & Hsu & Hsn & Hsv & Hsa & Hsc).
  exists saved. rewrite R, Hu in *. cbn [fst snd]. repeat split.
  - exact Hsg.
  - apply in_or_app. left. rewrite update_active_app. apply in_or_app. right.
    cbn [update_active map]. unfold inGroup, copy.
    cbn [copyOf user_id mapping_group_id col_eq]. rewrite !String.eqb_refl. now left.
  - now apply activeInGroup_after_insert.
Qed.

Lemma X24_save_after_copy_continues_the_copy_witness :
  exists saved,
    fst (saveMapping saveEnv3
           (snd (copyMapping copyEnv1 [ordersV1; ordersV2] "id2" "u1" " invoices " None))
           (mkSaveArgs "invoices" [] [] "u1" "General" None None JUndef None "JsonToJson"))
    = inr saved
    /\ mapping_group_id saved = Some "g9".
Proof.
  destruct (X24_save_after_copy_continues_the_copy copyEnv1 saveEnv3 [ordersV1; ordersV2] _
              "id2" "u1" " invoices " None _
              (mkSaveArgs "invoices" [] [] "u1" "General" None None JUndef None "JsonToJson")
              "v1.03" eq_refl ltac:(discriminate) eq_refl eq_refl eq_refl eq_refl eq_refl
              eq_refl eq_refl)
    as (saved & R & G & _).
  exists saved. split; [exact R|exact G].
Defined.

End SaveSequences.

(** ** The field editor of the target node *)

Section FieldEditorProps.
Import TargetNode.

(** Induction on field trees, with the hypothesis for every child. *)
Lemma SchemaField_nested_ind (P : SchemaField -> Prop) :
  (forall i n t p g, P (mkField i n t None p g)) ->
  (forall i n t cs p g, Forall P cs -> P (mkField i n t (Some cs) p g)) ->
  forall f, P f.
Proof.
  intros Hleaf Hnode.
  refine (fix go (f : SchemaField) : P f := _).
  destruct f as [i n t [cs|] p g]; [|apply Hleaf].
  apply Hnode. induction cs as [|c cs IH]; constructor; [apply go|exact IH].
Qed.

Lemma pruneField_eq fieldId i n t cs p g :
  pruneField fieldId (mkField i n t (Some cs) p g)
  = mkField i n t (Some (deleteFieldRecursive fieldId cs)) p g.
Proof.
  cbn [pruneField]. do 2 f_equal.
  induction cs as [|c cs IH]; [reflexivity|]. cbn [deleteFieldRecursive].
  destruct (String.eqb (id c) fieldId); now rewrite IH.
Qed.

Lemma allIds_cons f fs : allIds (f :: fs) = (map id (fieldsOf f) ++ allIds fs)%list.
Proof. unfold allIds, allFields. cbn [flat_map]. apply map_app. Qed.

Lemma fieldsOf_node i n t cs p g :
  map id (fieldsOf (mkField i n t (Some cs) p g)) = i :: allIds cs.
Proof. reflexivity. Qed.

Lemma own_id_listed f : In (id f) (map id (fieldsOf f)).
Proof. destruct f as [i n t [cs|] p g]; now left. Qed.

Lemma delete_list fieldId l :
  Forall (pruned fieldId) l ->
  ~ In fieldId (allIds (deleteFieldRecursive fieldId l))
  /\ incl (allIds (deleteFieldRecursive fieldId l)) (allIds l)
  /\ (~ In fieldId (allIds l) -> deleteFieldRecursive fieldId l = l).
Proof.
  induction 1 as [|c l Hc _ (IH1 & IH2 & IH3)]; [repeat split; auto; intros x []|].
  cbn [deleteFieldRecursive]. rewrite allIds_cons.
  destruct (String.eqb_spec (id c) fieldId) as [E|NE].
  - split; [assumption|]. split; [now apply incl_appr|].
    intros H. exfalso. apply H, in_or_app. left. rewrite <- E. apply own_id_listed.
  - destruct (Hc NE) as (C1 & C2 & C3). rewrite allIds_cons. split; [|split].
    + intros H. apply in_app_or in H as [H|H]; contradiction.
    + apply incl_app; [now apply incl_appl|now apply incl_appr].
    + intros H. rewrite C3, IH3; [reflexivity| |]; intros H'; apply H, in_or_app; auto.
Qed.

Lemma pruned_all fieldId : forall f, pruned fieldId f.
Proof.
  induction f as [i n t p g|i n t cs p g IH] using SchemaField_nested_ind; intros NE.
  - cbn in *. repeat split; [intros [H|[]]; contradiction|apply incl_refl].
  - rewrite pruneField_eq, !fieldsOf_node. cbn [id] in NE.
    destruct (delete_list fieldId cs IH) as (H1 & H2 & H3). split; [|split].
    + intros [H|H]; contradiction.
    + intros x [<-|H]; [now left|right; now apply H2].
    + intros H. rewrite H3; [reflexivity|]. intros H'. apply H. now right.
Qed.

(** X25: after deleteField no field with the given id is left at any
    depth, no other id has appeared, and a second deletion of the same id
    changes nothing. *)
Theorem X25_delete_removes_every_occurrence (fields : list SchemaField) (fieldId : string) :
  ~ In fieldId (allIds (deleteField fields fieldId))
  /\ incl (allIds (deleteField fields fieldId)) (allIds fields)
  /\ deleteField (deleteField fields fieldId) fieldId = deleteField fields fieldId.
Proof.
  unfold deleteField.
  assert (A : forall l, Forall (pruned fieldId) l)
    by (intros l; apply Forall_forall; intros f _; apply pruned_all).
  destruct (delete_list fieldId fields (A _)) as (H1 & H2 & _).
  repeat split; try assumption.
  now apply (delete_list fieldId _ (A _)).
Qed.

Lemma updateFieldIn_node fieldId updates i n t cs p g :
  i <> fieldId ->
  updateFieldIn fieldId updates (mkField i n t (Some cs) p g)
  = mkField i n t (Some (updateFieldRecursive fieldId updates cs)) p g.
Proof. intros NE. cbn [updateFieldIn id]. apply String.eqb_neq in NE. now rewrite NE. Qed.

Lemma updateFieldIn_leaf fieldId updates i n t p g :
  i <> fieldId ->
  updateFieldIn fieldId updates (mkField i n t None p g) = mkField i n t None p g.
Proof. intros NE. cbn [updateFieldIn id]. apply String.eqb_neq in NE. now rewrite NE. Qed.

Lemma updateFieldIn_match fieldId updates f :
  id f = fieldId -> updateFieldIn fieldId updates f = applyUpdates f updates.
Proof.
  intros E. destruct f as [i n t cs p g]. cbn [updateFieldIn id] in *.
  apply String.eqb_eq in E. now rewrite E.
Qed.

Lemma in_allFields g fs : In g (allFields fs) <-> exists f, In f fs /\ In g (fieldsOf f).
Proof. unfold allFields. apply in_flat_map. Qed.

(** X26: after updateField with a type that is neither object nor array,
    and no new id, every field that carries the given id has that type,
    no children and no groupBy. *)
Theorem X26_scalar_type_drops_children
  (fields : list SchemaField) (fieldId : string) (updates : Updates) (g : SchemaField) :
  given (u_type updates) = true -> isContainer (u_type updates) = false ->
  u_id updates = None ->
  In g (allFields (updateField fields fieldId updates)) -> id g = fieldId ->
  Some (type g) = u_type updates /\ children g = None /\ groupBy g = None.
Proof.
  intros Hg Hc Hid. unfold updateField, updateFieldRecursive.
  assert (A : forall f, In g (fieldsOf (updateFieldIn fieldId updates f)) -> id g = fieldId ->
                        Some (type g) = u_type updates /\ children g = None
                        /\ groupBy g = None).
  { induction f as [i n t p g0|i n t cs p g0 IH] using SchemaField_nested_ind.
    - destruct (String.eqb_spec i fieldId) as [E|NE].
      + rewrite updateFieldIn_match by exact E. unfold applyUpdates.
        rewrite Hg, Hc, Hid. cbn. intros [<-|[]] _. cbn.
        destruct (u_type updates); [auto|discriminate].
      + rewrite updateFieldIn_leaf by exact NE. intros [<-|[]] E. now cbn in E.
    - destruct (String.eqb_spec i fieldId) as [E|NE].
      + rewrite updateFieldIn_match by exact E. unfold applyUpdates.
        rewrite Hg, Hc, Hid. cbn. intros [<-|[]] _. cbn.
        destruct (u_type updates); [auto|discriminate].
      + rewrite updateFieldIn_node by exact NE. cbn [fieldsOf].
        intros [<-|H] E; [now cbn in E|].
        unfold updateFieldRecursive in H. apply in_flat_map in H as (c' & Hc' & H).
        apply in_map_iff in Hc' as (c & <- & Hin).
        rewrite Forall_forall in IH. now apply (IH c Hin). }
  intros H E. apply in_allFields in H as (f' & Hf' & H).
  apply in_map_iff in Hf' as (f & <- & _). now apply (A f).
Qed.

Lemma X26_scalar_type_drops_children_witness :
  Some (type (mkField "f2" "address" "string" None (Some "f1") None)) = Some "string"
  /\ children (mkField "f2" "address" "string" None (Some "f1") None) = None
  /\ groupBy (mkField "f2" "address" "string" None (Some "f1") None) = None.
Proof.
  apply (X26_scalar_type_drops_children [orderField] "f2" (typeOnly "string")
           (mkField "f2" "address" "string" None (Some "f1") None));
    try reflexivity.
  right; left; reflexivity.
Defined.

(** X27: an update that names no new id and no children, and whose type,
    if any, is object or array, neither adds nor removes a field: the ids
    of the tree are the same, in the same order. *)
Theorem X27_update_keeps_the_fields
  (fields : list SchemaField) (fieldId : string) (updates : Updates) :
  u_id updates = None -> u_children updates = None ->
  given (u_type updates) && negb (isContainer (u_type updates)) = false ->
  allIds (updateField fields fieldId updates) = allIds fields.
Proof.
  intros Hid Hch Hty. unfold updateField, updateFieldRecursive.
  assert (M : forall f, id f = fieldId ->
                        map id (fieldsOf (applyUpdates f updates)) = map id (fieldsOf f)).
  { intros [i n t cs p g] _. unfold applyUpdates. rewrite Hty, Hid, Hch.
    cbn [or_else id name type children parent groupBy].
    destruct (isContainer (u_type updates)), cs; reflexivity. }
  assert (A : forall f, map id (fieldsOf (updateFieldIn fieldId updates f))
                        = map id (fieldsOf f)).
  { induction f as [i n t p g0|i n t cs p g0 IH] using SchemaField_nested_ind.
    - destruct (String.eqb_spec i fieldId) as [E|NE].
      + rewrite updateFieldIn_match by exact E. now apply M.
      + now rewrite updateFieldIn_leaf.
    - destruct (String.eqb_spec i fieldId) as [E|NE].
      + rewrite updateFieldIn_match by exact E. now apply M.
      + rewrite updateFieldIn_node by exact NE. rewrite !fieldsOf_node. f_equal.
        unfold updateFieldRecursive. induction IH as [|c cs Hc _ IHcs]; [reflexivity|].
        cbn [map]. now rewrite !allIds_cons, Hc, IHcs. }
  induction fields as [|f fs IH]; [reflexivity|].
  cbn [map]. now rewrite !allIds_cons, A, IH.
Qed.

Lemma X27_update_keeps_the_fields_witness :
  allIds (updateField [orderField] "f3" (typeOnly "object")) = ["f1"; "f2"; "f3"].
Proof. apply (X27_update_keeps_the_fields [orderField] "f3" (typeOnly "object")); reflexivity. Defined.

(** X28: for an id that no field of the tree carries, updateField and
    deleteField return the fields as they are. *)
Theorem X28_absent_id_changes_nothing
  (fields : list SchemaField) (fieldId : string) (updates : Updates) :
  ~ In fieldId (allIds fields) ->
  updateField fields fieldId updates = fields /\ deleteField fields fieldId = fields.
Proof.
  intros H. split.
  - unfold updateField, updateFieldRecursive.
    assert (A : forall f, ~ In fieldId (map id (fieldsOf f)) ->
                          updateFieldIn fieldId updates f = f).
    { induction f as [i n t p g0|i n t cs p g0 IH] using SchemaField_nested_ind; intros N.
      - apply updateFieldIn_leaf. intros ->. apply N. now left.
      - rewrite fieldsOf_node in N. rewrite updateFieldIn_node by (intros ->; apply N; now left).
        do 2 f_equal. unfold updateFieldRecursive.
        assert (N' : ~ In fieldId (allIds cs)) by (intros H'; apply N; now right).
        clear N. induction IH as [|c cs Hc _ IHcs]; [reflexivity|].
        rewrite allIds_cons in N'. cbn [map].
        rewrite Hc, IHcs; [reflexivity| |]; intros H'; apply N', in_or_app; auto. }
    induction fields as [|f fs IH]; [reflexivity|].
    rewrite allIds_cons in H. cbn [map].
    rewrite A, IH; [reflexivity| |]; intros H'; apply H, in_or_app; auto.
  - unfold deleteField. apply delete_list; [|assumption].
    apply Forall_forall. intros f _. apply pruned_all.
Qed.

Lemma X28_absent_id_changes_nothing_witness :
  updateField [orderField] "f9" (typeOnly "string") = [orderField]
  /\ deleteField [orderField] "f9" = [orderField].
Proof.
  apply X28_absent_id_changes_nothing. cbn. intuition discriminate.
Defined.

(** X29: addField with a parent id appends the new field to the children
    of the root fields with that id and to nothing else: the number of
    root fields stays, and when the id is carried by nested fields only,
    the fields are returned unchanged. *)
Theorem X29_add_child_looks_at_root_fields_only
  (now : string) (fields : list SchemaField) (parentId : string) :
  parentId <> "" ->
  map id (addField now fields (Some parentId)) = map id fields
  /\ ((forall f, In f fields -> id f <> parentId) ->
      addField now fields (Some parentId) = fields).
Proof.
  intros NE. unfold addField. cbn [given or_else].
  apply String.eqb_neq in NE. rewrite NE. cbn [negb]. split.
  - rewrite map_map. apply map_ext. intros f. now destruct (String.eqb (id f) parentId).
  - intros H. induction fields as [|f fs IH]; [reflexivity|]. cbn [map].
    destruct (String.eqb_spec (id f) parentId) as [E|_].
    + exfalso. now apply (H f (or_introl eq_refl)).
    + f_equal. apply IH. intros f' Hf'. apply H. now right.
Qed.

Lemma X29_add_child_looks_at_root_fields_only_witness :
  In "f2" (allIds [orderField]) /\ addField "1700000000000" [orderField] (Some "f2") = [orderField].
Proof.
  split; [right; left; reflexivity|].
  apply (proj2 (X29_add_child_looks_at_root_fields_only "1700000000000" [orderField] "f2"
                  ltac:(discriminate))).
  intros f [<-|[]]. discriminate.
Defined.

End FieldEditorProps.

(** ** The expanded fields of the target node *)

Section ExpansionToggle.
Import TargetNode.

Lemma toggle_absent expandedFields fieldId :
  existsb (String.eqb fieldId) expandedFields = false <-> ~ In fieldId expandedFields.
Proof.
  split.
  - intros E H.
    assert (existsb (String.eqb fieldId) expandedFields = true)
      by (apply existsb_exists; exists fieldId; split; [assumption|apply String.eqb_refl]).
    congruence.
  - intros H. destruct (existsb _ _) eqn:E; [|reflexivity].
    apply existsb_exists in E as (x & Hx & Ex). apply String.eqb_eq in Ex. now subst.
Qed.

Lemma toggle_spec expandedFields fieldId x :
  In x (handleFieldExpansionToggle expandedFields fieldId)
  <-> (x <> fieldId /\ In x expandedFields) \/ (x = fieldId /\ ~ In fieldId expandedFields).
Proof.
  unfold handleFieldExpansionToggle.
  destruct (existsb (String.eqb fieldId) expandedFields) eqn:E.
  - rewrite filter_In.
    assert (Hin : In fieldId expandedFields).
    { apply existsb_exists in E as (y & Hy & Ey). apply String.eqb_eq in Ey. now subst. }
    destruct (String.eqb_spec x fieldId); cbn [negb]; intuition congruence.
  - apply toggle_absent in E. rewrite in_app_iff. cbn [In].
    destruct (String.eqb_spec x fieldId) as [->|NE]; intuition congruence.
Qed.

(** X30: toggling the expansion of a field flips the membership of its id
    in the set of expanded fields and of no other id, keeps the set free
    of duplicates, and a second toggle of the same field restores the
    members of the set. *)
Theorem X30_expansion_toggle (expandedFields : list string) (fieldId : string) :
  let toggled := handleFieldExpansionToggle expandedFields fieldId in
  (In fieldId toggled <-> ~ In fieldId expandedFields)
  /\ (forall x, x <> fieldId -> (In x toggled <-> In x expandedFields))
  /\ (forall x, In x (handleFieldExpansionToggle toggled fieldId) <-> In x expandedFields)
  /\ (NoDup expandedFields -> NoDup toggled).
Proof.
  cbv zeta. split; [|split; [|split]].
  - rewrite toggle_spec. tauto.
  - intros x NE. rewrite toggle_spec. tauto.
  - intros x. rewrite !toggle_spec.
    destruct (String.eqb_spec x fieldId) as [->|NE]; [|tauto].
    destruct (in_dec string_dec fieldId expandedFields); tauto.
  - intros ND. unfold handleFieldExpansionToggle.
    destruct (existsb (String.eqb fieldId) expandedFields) eqn:E.
    + now apply NoDup_filter.
    + apply toggle_absent in E. apply NoDup_app; [assumption|repeat constructor; intros []|].
      intros x Hx [<-|[]]. contradiction.
Qed.

End ExpansionToggle.
